(** * Delta-queue cooperative scheduler: model and verification

    The scheduler keeps its pending tasks in a singly linked list ordered by
    due time, where every node stores its delay relative to the node before
    it.  The timer interrupt ([SCH_Update]) only touches the head; insertion
    ([SCH_Add_Task]), removal ([SCH_Delete_Task]) and the dispatcher
    ([SCH_Dispatch_Tasks]) repair the relative delays around the place they
    change.

    The linked list is modelled as a Rocq list of nodes (head first), the
    four file-scope variables as one record threaded through every function,
    [uint32_t] fields as [Z] with the wrap-around of every arithmetic
    operation written out, and the outcome of each [malloc] call as an
    explicit boolean supplied by the caller of the model.

    The module [ArraySched] models the second scheduler of the repository,
    which keeps its tasks in a fixed table of 40 slots; [ArraySchedFacts]
    holds its properties. *)

From Stdlib Require Import ZArith List Lia Bool.
Import ListNotations.
Open Scope Z_scope.

(** ** Machine integers *)

Definition UINT32_MOD : Z := 2 ^ 32.

Definition wrap32 (z : Z) : Z := z mod UINT32_MOD.

Definition in_u32 (z : Z) : Prop := 0 <= z < UINT32_MOD.

(** ** Constants of scheduler.h *)

Definition ERROR_SCH_TOO_MANY_TASKS : Z := 1.
Definition ERROR_SCH_CANNOT_DELETE_TASK : Z := 2.
Definition ERROR_SCH_TASK_NOT_FOUND : Z := 3.
Definition NO_TASK_ID : Z := 0.

(** The null function pointer. *)
Definition NULL : Z := 0.

(** ** Data model *)

(** [struct TaskNode] without its [next] field, which is the list spine.
    [pTask] is the address of the callback. *)
Record TaskNode : Type := mkTaskNode {
  pTask : Z;
  Delay : Z;
  Period : Z;
  TaskID : Z
}.

(** The file-scope variables of the scheduler. *)
Record sched : Type := mkSched {
  g_TaskListHead : list TaskNode;
  g_CurrentTick : Z;
  g_NextTaskID : Z;
  g_ErrorCode : Z
}.

(** Assignment to the [Delay] field of a node. *)
Definition set_Delay (n : TaskNode) (d : Z) : TaskNode :=
  mkTaskNode (pTask n) d (Period n) (TaskID n).

(** ** SCH_Init *)

Definition SCH_Init (s : sched) : sched :=
  mkSched [] 0 1 0.

(** ** SCH_Update *)

Definition SCH_Update (s : sched) : sched :=
  let tick := wrap32 (g_CurrentTick s + 1) in
  match g_TaskListHead s with
  | h :: rest =>
      if 0 <? Delay h
      then mkSched (set_Delay h (wrap32 (Delay h - 1)) :: rest)
                   tick (g_NextTaskID s) (g_ErrorCode s)
      else mkSched (h :: rest) tick (g_NextTaskID s) (g_ErrorCode s)
  | [] => mkSched [] tick (g_NextTaskID s) (g_ErrorCode s)
  end.

(** ** Sorted insertion

    The delta-time insertion of [SCH_Add_Task]; [SCH_Dispatch_Tasks] repeats
    the same statements with [savedPeriod] in the place of [DELAY]. *)

(** The search loop and the splice after it.  [current] is the node under
    the cursor, [rest] the list hanging off [current->next], and
    [accumulatedTime] the running sum. *)
Fixpoint insert_after (newTask current : TaskNode) (rest : list TaskNode)
    (accumulatedTime DELAY : Z) : list TaskNode :=
  match rest with
  | nxt :: rest' =>
      if wrap32 (accumulatedTime + Delay nxt) <=? DELAY
      then current ::
           insert_after newTask nxt rest'
             (wrap32 (accumulatedTime + Delay nxt)) DELAY
      else
        let d := wrap32 (DELAY - accumulatedTime) in
        current :: set_Delay newTask d
                :: set_Delay nxt (wrap32 (Delay nxt - d)) :: rest'
  | [] =>
      [current; set_Delay newTask (wrap32 (DELAY - accumulatedTime))]
  end.

Definition insert_sorted (newTask : TaskNode) (DELAY : Z)
    (q : list TaskNode) : list TaskNode :=
  match q with
  | [] => [set_Delay newTask DELAY]
  | h :: rest =>
      if DELAY <? Delay h
      then set_Delay newTask DELAY
           :: set_Delay h (wrap32 (Delay h - DELAY)) :: rest
      else insert_after newTask h rest (Delay h) DELAY
  end.

(** ** SCH_Add_Task

    [malloc_ok] tells whether the allocation of the new node succeeds.  The
    result is the new state and the returned task id. *)
Definition SCH_Add_Task (pFunction DELAY PERIOD : Z) (malloc_ok : bool)
    (s : sched) : sched * Z :=
  if pFunction =? NULL then
    (mkSched (g_TaskListHead s) (g_CurrentTick s) (g_NextTaskID s)
             ERROR_SCH_TOO_MANY_TASKS, NO_TASK_ID)
  else if negb malloc_ok then
    (mkSched (g_TaskListHead s) (g_CurrentTick s) (g_NextTaskID s)
             ERROR_SCH_TOO_MANY_TASKS, NO_TASK_ID)
  else
    let newTask := mkTaskNode pFunction 0 PERIOD (g_NextTaskID s) in
    (mkSched (insert_sorted newTask DELAY (g_TaskListHead s))
             (g_CurrentTick s)
             (wrap32 (g_NextTaskID s + 1))
             (g_ErrorCode s),
     TaskID newTask).

(** ** SCH_Delete_Task *)

(** The scan of the list; [None] when no node carries [taskID]. *)
Fixpoint delete_node (taskID : Z) (q : list TaskNode)
    : option (list TaskNode) :=
  match q with
  | [] => None
  | current :: rest =>
      if TaskID current =? taskID then
        match rest with
        | nxt :: rest' =>
            Some (set_Delay nxt (wrap32 (Delay nxt + Delay current)) :: rest')
        | [] => Some []
        end
      else
        match delete_node taskID rest with
        | Some rest' => Some (current :: rest')
        | None => None
        end
  end.

Definition SCH_Delete_Task (taskID : Z) (s : sched) : sched * Z :=
  match g_TaskListHead s with
  | [] =>
      (mkSched [] (g_CurrentTick s) (g_NextTaskID s)
               ERROR_SCH_CANNOT_DELETE_TASK, 0)
  | _ :: _ =>
      match delete_node taskID (g_TaskListHead s) with
      | Some q' =>
          (mkSched q' (g_CurrentTick s) (g_NextTaskID s) (g_ErrorCode s), 1)
      | None =>
          (mkSched (g_TaskListHead s) (g_CurrentTick s) (g_NextTaskID s)
                   ERROR_SCH_TASK_NOT_FOUND, 0)
      end
  end.

(** ** SCH_Dispatch_Tasks

    Callbacks are opaque to the scheduler: the model records the nodes
    taken off the head, in order (the callback of each is invoked when it
    is not null), and takes the callbacks not to call back into the
    scheduler.  [malloc k] is the outcome of the [k]-th allocation made
    during the call. *)

Record dispatched : Type := mkDispatched {
  d_state : sched;
  d_ran : list TaskNode
}.

(** One turn of the [while] loop per unit of [fuel]; [k] counts the
    allocations made so far. *)
Fixpoint dispatch_loop (fuel : nat) (malloc : nat -> bool) (k : nat)
    (s : sched) : dispatched :=
  match fuel with
  | O => mkDispatched s []
  | S fuel' =>
      match g_TaskListHead s with
      | taskToRun :: rest =>
          if Delay taskToRun =? 0 then
            let '(q', k') :=
              if 0 <? Period taskToRun then
                if malloc k
                then (insert_sorted taskToRun (Period taskToRun) rest, S k)
                else (rest, S k)
              else (rest, k) in
            let r := dispatch_loop fuel' malloc k'
                       (mkSched q' (g_CurrentTick s) (g_NextTaskID s)
                                (g_ErrorCode s)) in
            mkDispatched (d_state r) (taskToRun :: d_ran r)
          else mkDispatched s []
      | [] => mkDispatched s []
      end
  end.

(** Every turn of the loop removes one node from the run of zero-delay nodes
    at the head and a rescheduled node never joins that run, so the length of
    the list bounds the number of turns (see [dispatch_loop_done]). *)
Definition SCH_Dispatch_Tasks (malloc : nat -> bool) (s : sched)
    : dispatched :=
  dispatch_loop (length (g_TaskListHead s)) malloc 0 s.

(** ** SCH_Get_Current_Time *)

Definition SCH_Get_Current_Time (s : sched) : Z :=
  wrap32 (g_CurrentTick s * 10).

(** ** SCH_Get_Error_Code *)

Definition SCH_Get_Error_Code (s : sched) : sched * Z :=
  (mkSched (g_TaskListHead s) (g_CurrentTick s) (g_NextTaskID s) 0,
   g_ErrorCode s).

(** ** Traces of operations *)

(** The operations of the delta queue proper. *)
Inductive qop : Type :=
  | QAdd (pFunction DELAY PERIOD : Z) (malloc_ok : bool)
  | QDelete (taskID : Z)
  | QTick.

(** All the operations a caller can issue after [SCH_Init]. *)
Inductive op : Type :=
  | OpQueue (o : qop)
  | OpDispatch (malloc : nat -> bool)
  | OpGetError.

Definition step_queue (s : sched) (o : qop) : sched :=
  match o with
  | QAdd pFunction DELAY PERIOD malloc_ok =>
      fst (SCH_Add_Task pFunction DELAY PERIOD malloc_ok s)
  | QDelete taskID => fst (SCH_Delete_Task taskID s)
  | QTick => SCH_Update s
  end.

Definition step (s : sched) (o : op) : sched :=
  match o with
  | OpQueue o => step_queue s o
  | OpDispatch malloc => d_state (SCH_Dispatch_Tasks malloc s)
  | OpGetError => fst (SCH_Get_Error_Code s)
  end.

Definition run (ops : list op) (s : sched) : sched := fold_left step ops s.

(** Arguments that fit the [uint32_t] parameters. *)
Definition qop_ok (o : qop) : Prop :=
  match o with
  | QAdd pFunction DELAY PERIOD _ =>
      in_u32 pFunction /\ in_u32 DELAY /\ in_u32 PERIOD
  | QDelete taskID => in_u32 taskID
  | QTick => True
  end.

Definition op_ok (o : op) : Prop :=
  match o with
  | OpQueue o => qop_ok o
  | _ => True
  end.

(** ** Derived notions used by the statements *)

Definition sum_delays (q : list TaskNode) : Z :=
  fold_right (fun n acc => Delay n + acc) 0 q.

(** Absolute remaining delay of the record at index [k]: the sum of the
    relative delays of that record and of all records before it. *)
Definition cumulative_delay (q : list TaskNode) (k : nat) : Z :=
  sum_delays (firstn (S k) q).

(** The queue with every relative delay replaced by the absolute one;
    [acc] is the absolute delay of the record before the first. *)
Fixpoint to_abs (acc : Z) (q : list TaskNode) : list TaskNode :=
  match q with
  | [] => []
  | n :: rest => set_Delay n (acc + Delay n) :: to_abs (acc + Delay n) rest
  end.

(** Adding [d] to the relative delay of the first record of [q]. *)
Definition shift_head (d : Z) (q : list TaskNode) : list TaskNode :=
  match q with
  | [] => []
  | p :: ps => set_Delay p (Delay p + d) :: ps
  end.

(** Index of the first record whose absolute delay is strictly greater than
    [DELAY] (the length of the queue when there is none). *)
Fixpoint first_later (acc DELAY : Z) (q : list TaskNode) : nat :=
  match q with
  | [] => O
  | n :: rest =>
      if DELAY <? acc + Delay n then O
      else S (first_later (acc + Delay n) DELAY rest)
  end.

(** Index of the first record whose absolute delay is greater than or equal
    to [DELAY] (the length of the queue when there is none). *)
Fixpoint first_not_earlier (acc DELAY : Z) (q : list TaskNode) : nat :=
  match q with
  | [] => O
  | n :: rest =>
      if DELAY <=? acc + Delay n then O
      else S (first_not_earlier (acc + Delay n) DELAY rest)
  end.

Definition node_ok (n : TaskNode) : Prop :=
  0 <= Delay n /\ in_u32 (Period n).

(** Well-formed queue: fields in range and no absolute delay beyond the
    32-bit range. *)
Definition queue_ok (q : list TaskNode) : Prop :=
  Forall node_ok q /\ sum_delays q < UINT32_MOD.

(** Invariant of the states reached while the id counter has not gone
    past [bound]. *)
Definition sched_inv (bound : Z) (s : sched) : Prop :=
  queue_ok (g_TaskListHead s) /\
  NoDup (map TaskID (g_TaskListHead s)) /\
  (forall i, In i (map TaskID (g_TaskListHead s)) ->
             1 <= i < g_NextTaskID s) /\
  1 <= g_NextTaskID s <= bound.

(** Whether the head record is present and not yet due: the test of
    [SCH_Update]. *)
Definition head_pending (s : sched) : bool :=
  match g_TaskListHead s with
  | h :: _ => 0 <? Delay h
  | [] => false
  end.

(** Number of records that are due: those whose absolute delay is zero. *)
Definition due_count (q : list TaskNode) : nat :=
  length (filter (fun m => Delay m =? 0) (to_abs 0 q)).

(** What one call of the loop guarantees about the final queue and about
    the records it ran. *)
Definition dispatch_post (malloc : nat -> bool) (s : sched)
    (r : dispatched) : Prop :=
  queue_ok (g_TaskListHead (d_state r)) /\
  NoDup (map TaskID (g_TaskListHead (d_state r))) /\
  (forall i, In i (map TaskID (g_TaskListHead (d_state r))) ->
             In i (map TaskID (g_TaskListHead s))) /\
  (forall m, In m (to_abs 0 (g_TaskListHead s)) -> 0 < Delay m ->
             In m (to_abs 0 (g_TaskListHead (d_state r)))) /\
  (forall n, In n (d_ran r) ->
     Delay n = 0 /\ in_u32 (Period n) /\
     (Period n = 0 ->
      ~ In (TaskID n) (map TaskID (g_TaskListHead (d_state r)))) /\
     ((forall j, malloc j = true) -> Period n <> 0 ->
      In (set_Delay n (Period n))
         (to_abs 0 (g_TaskListHead (d_state r))))).

(** The calls that fail and say so through the error slot. *)
Inductive failing_call : sched -> sched -> Prop :=
  | fail_add_null (DELAY PERIOD : Z) (malloc_ok : bool) (s : sched) :
      failing_call s (fst (SCH_Add_Task NULL DELAY PERIOD malloc_ok s))
  | fail_add_alloc (pFunction DELAY PERIOD : Z) (s : sched) :
      failing_call s (fst (SCH_Add_Task pFunction DELAY PERIOD false s))
  | fail_delete (taskID : Z) (s : sched) :
      ~ In taskID (map TaskID (g_TaskListHead s)) ->
      failing_call s (fst (SCH_Delete_Task taskID s)).

(** The tie-break as the insertion rule words it: the new record lands at
    the index of the first record whose absolute delay is [>= DELAY]. *)
Definition ties_before_existing : Prop :=
  forall (s : sched) (pFunction DELAY PERIOD : Z) (k : nat),
  queue_ok (g_TaskListHead s) -> in_u32 DELAY -> pFunction <> NULL ->
  (k < length (g_TaskListHead s))%nat ->
  cumulative_delay (g_TaskListHead s) k = DELAY ->
  exists d,
    nth_error
      (g_TaskListHead (fst (SCH_Add_Task pFunction DELAY PERIOD true s)))
      (first_not_earlier 0 DELAY (g_TaskListHead s))
    = Some (mkTaskNode pFunction d PERIOD (g_NextTaskID s)).

(** [n] rounds of registering a one-shot task and deleting it again; [id]
    is the identifier the first registration will receive. *)
Fixpoint churn (n : nat) (id : Z) : list op :=
  match n with
  | O => []
  | S n' =>
      OpQueue (QAdd 100 0 0 true) :: OpQueue (QDelete id)
      :: churn n' (wrap32 (id + 1))
  end.

(** The registry is a specification device: it remembers, for each
    successful registration, the id handed out, the delay that was asked
    for and how many ticks have been counted against it since.  The most
    recent registration of an id comes first. *)
Record registration : Type := mkReg {
  reg_id : Z;
  reg_delay : Z;
  reg_ticks : Z
}.

Fixpoint lookup_reg (id : Z) (log : list registration)
    : option registration :=
  match log with
  | [] => None
  | r :: log' => if reg_id r =? id then Some r else lookup_reg id log'
  end.

Definition tick_reg (r : registration) : registration :=
  mkReg (reg_id r) (reg_delay r) (reg_ticks r + 1).

(** [counts s] tells whether a tick arriving in state [s] is counted. *)
Definition step_log (counts : sched -> bool) (s : sched) (o : qop)
    (log : list registration) : list registration :=
  match o with
  | QAdd pFunction DELAY PERIOD malloc_ok =>
      if negb (pFunction =? NULL) && malloc_ok
      then mkReg (g_NextTaskID s) DELAY 0 :: log
      else log
  | QDelete _ => log
  | QTick => if counts s then map tick_reg log else log
  end.

Fixpoint run_log (counts : sched -> bool) (ops : list qop) (s : sched)
    (log : list registration) : sched * list registration :=
  match ops with
  | [] => (s, log)
  | o :: ops' =>
      run_log counts ops' (step_queue s o) (step_log counts s o log)
  end.

(** Whether a call registers a task: the callback is not null and the
    allocation succeeds.  These are the calls that take an id and move
    [g_NextTaskID]. *)
Definition registers (o : qop) : bool :=
  match o with
  | QAdd pFunction _ _ malloc_ok => negb (pFunction =? NULL) && malloc_ok
  | QDelete _ => false
  | QTick => false
  end.

(** Number of successful registrations in a trace. *)
Definition registrations (ops : list qop) : nat :=
  length (filter registers ops).

(** Every tick since the registration counts. *)
Definition every_tick (s : sched) : bool := true.

(** Requested delay minus counted ticks, floored at zero. *)
Definition remaining (r : registration) : Z :=
  Z.max 0 (reg_delay r - reg_ticks r).

Definition delta_queue_inv (s : sched) (log : list registration) : Prop :=
  forall k n, nth_error (g_TaskListHead s) k = Some n ->
  exists r, lookup_reg (TaskID n) log = Some r /\
            cumulative_delay (g_TaskListHead s) k = remaining r.

(** The invariant with all elapsed ticks counted, as C1 words it; asked
    here of short traces only, on which no id is used twice. *)
Definition delta_queue_inv_all_ticks : Prop :=
  forall (ops : list qop) (s0 : sched),
  Forall qop_ok ops -> Z.of_nat (length ops) < UINT32_MOD - 1 ->
  delta_queue_inv (fst (run_log every_tick ops (SCH_Init s0) []))
                  (snd (run_log every_tick ops (SCH_Init s0) [])).

(** The registry agrees with the absolute view of the queue. *)
Definition log_agrees (s : sched) (log : list registration) : Prop :=
  forall m, In m (to_abs 0 (g_TaskListHead s)) ->
  exists r, lookup_reg (TaskID m) log = Some r /\
            Delay m = reg_delay r - reg_ticks r.

(** ** Notions used for the dispatcher and the main loop *)

(** The records at the head of the queue whose relative delay is zero:
    the ones the test of the dispatcher loop accepts one after the other. *)
Fixpoint due_prefix (q : list TaskNode) : list TaskNode :=
  match q with
  | n :: rest => if Delay n =? 0 then n :: due_prefix rest else []
  | [] => []
  end.

(** No record is due: the dispatcher loop would stop at once. *)
Definition drained (q : list TaskNode) : Prop :=
  match q with
  | h :: _ => Delay h <> 0
  | [] => True
  end.

(** [n] timer interrupts in a row. *)
Fixpoint ticks (n : nat) (s : sched) : sched :=
  match n with
  | O => s
  | S n' => ticks n' (SCH_Update s)
  end.

(** One turn of the firmware when the dispatcher completes between two
    timer interrupts: a tick, then a call of the dispatcher. *)
Definition cycle (malloc : nat -> bool) (s : sched) : sched :=
  d_state (SCH_Dispatch_Tasks malloc (SCH_Update s)).

(** As many turns as there are allocation oracles in [ms]. *)
Definition main_loop (ms : list (nat -> bool)) (s : sched) : sched :=
  fold_left (fun s malloc => cycle malloc s) ms s.

(** Whether operation [o] issued in state [s] succeeds. *)
Definition op_succeeds (s : sched) (o : op) : bool :=
  match o with
  | OpQueue (QAdd pFunction _ _ malloc_ok) =>
      negb (pFunction =? NULL) && malloc_ok
  | OpQueue (QDelete taskID) =>
      existsb (fun n => TaskID n =? taskID) (g_TaskListHead s)
  | OpQueue QTick => true
  | OpDispatch _ => true
  | OpGetError => false
  end.

Fixpoint all_succeed (ops : list op) (s : sched) : bool :=
  match ops with
  | [] => true
  | o :: ops' => op_succeeds s o && all_succeed ops' (step s o)
  end.

(** What one call of the loop guarantees about absolute delays, whatever
    the allocations do: [q] is the queue at the call. *)
Definition dispatch_abs_post (malloc : nat -> bool) (q : list TaskNode)
    (r : dispatched) : Prop :=
  queue_ok (g_TaskListHead (d_state r)) /\
  (forall m, In m (to_abs 0 q) -> 0 < Delay m ->
     In m (to_abs 0 (g_TaskListHead (d_state r)))) /\
  (forall m, In m (to_abs 0 (g_TaskListHead (d_state r))) ->
     (In m (to_abs 0 q) /\ 0 < Delay m) \/
     (exists n, In n (d_ran r) /\
                0 < Period n /\ m = set_Delay n (Period n))) /\
  ((forall j, malloc j = true) ->
   forall n, In n (d_ran r) -> Period n <> 0 ->
   In (set_Delay n (Period n)) (to_abs 0 (g_TaskListHead (d_state r)))).

(** Number of allocations the dispatcher loop has made before it reaches
    the [i]-th record it runs: one for every periodic record run before
    it.  The allocation for that record, if it is periodic, is the one
    with this number. *)
Definition allocs_before (ran : list TaskNode) (i : nat) : nat :=
  length (filter (fun m => 0 <? Period m) (firstn i ran)).

(** C6 as it is worded, first half: in a state reached from [SCH_Init],
    every periodic record that the dispatcher runs is queued again under
    its id at an absolute delay equal to its period. *)
Definition periodic_always_requeued : Prop :=
  forall (ops : list op) (s0 : sched) (malloc : nat -> bool),
  Forall op_ok ops ->
  let r := SCH_Dispatch_Tasks malloc (run ops (SCH_Init s0)) in
  let q' := g_TaskListHead (d_state r) in
  forall n, In n (d_ran r) -> Period n <> 0 ->
  exists k m, nth_error q' k = Some m /\ TaskID m = TaskID n /\
              cumulative_delay q' k = Period n.

(** C6 as it is worded, second half: in a state reached from [SCH_Init],
    after a dispatch (even one whose allocations all succeed) a
    [SCH_Delete_Task] with the id of a one-shot record that was run
    fails. *)
Definition one_shot_always_gone : Prop :=
  forall (ops : list op) (s0 : sched) (malloc : nat -> bool),
  Forall op_ok ops -> (forall j, malloc j = true) ->
  let r := SCH_Dispatch_Tasks malloc (run ops (SCH_Init s0)) in
  forall n, In n (d_ran r) -> Period n = 0 ->
  snd (SCH_Delete_Task (TaskID n) (d_state r)) = 0.

(** * The table scheduler of Core/Src/scheduler.c

    The second scheduler of the repository keeps its tasks in a table of
    [SCH_MAX_TASKS] slots that [SCH_Update] scans on every tick.  The table
    is the list of its slots; a slot is free when its [pTask] is null. *)

Module ArraySched.

Definition SCH_MAX_TASKS : nat := 40.
Definition NO_TASK_ID : Z := 0.
Definition ERROR_SCH_TOO_MANY_TASKS : Z := 1.
Definition ERROR_SCH_CANNOT_DELETE_TASK : Z := 2.
Definition RETURN_ERROR : Z := 0.
Definition RETURN_NORMAL : Z := 1.

(** Wrap-around of the [uint8_t] field [RunMe]. *)
Definition wrap8 (z : Z) : Z := z mod 2 ^ 8.

Record sTask : Type := mk_sTask {
  pTask : Z;
  Delay : Z;
  Period : Z;
  RunMe : Z;
  TaskID : Z
}.

(** The file-scope variables. *)
Record sched : Type := mkSched {
  SCH_tasks_G : list sTask;
  Error_code_G : Z;
  Last_error_code_G : Z;
  Error_tick_count_G : Z;
  Task_ID_Counter : Z
}.

(** A slot after [SCH_Delete_Task] has cleared it. *)
Definition cleared : sTask := mk_sTask NULL 0 0 0 0.

(** Assignment to [SCH_tasks_G[Index]]. *)
Fixpoint set_slot (Index : nat) (t : sTask) (tasks : list sTask)
    : list sTask :=
  match tasks, Index with
  | [], _ => []
  | _ :: rest, O => t :: rest
  | x :: rest, S i => x :: set_slot i t rest
  end.

(** ** SCH_Delete_Task *)

(** The search loop: the first slot whose [TaskID] is [taskID] is cleared;
    [None] when the loop ends without a match. *)
Fixpoint delete_scan (taskID : Z) (tasks : list sTask)
    : option (list sTask) :=
  match tasks with
  | [] => None
  | t :: rest =>
      if TaskID t =? taskID then Some (cleared :: rest)
      else match delete_scan taskID rest with
           | Some rest' => Some (t :: rest')
           | None => None
           end
  end.

Definition SCH_Delete_Task (taskID : Z) (s : sched) : sched * Z :=
  match delete_scan taskID (SCH_tasks_G s) with
  | Some tasks' =>
      (mkSched tasks' (Error_code_G s) (Last_error_code_G s)
               (Error_tick_count_G s) (Task_ID_Counter s), RETURN_NORMAL)
  | None =>
      (mkSched (SCH_tasks_G s) ERROR_SCH_CANNOT_DELETE_TASK
               (Last_error_code_G s) (Error_tick_count_G s)
               (Task_ID_Counter s), RETURN_ERROR)
  end.

(** ** SCH_Init *)

(** [n] turns of the loop of [SCH_Init], the loop variable being at [i]:
    it passes its index to [SCH_Delete_Task], which takes a task id. *)
Fixpoint init_loop (n : nat) (i : Z) (s : sched) : sched :=
  match n with
  | O => s
  | S n' => init_loop n' (i + 1) (fst (SCH_Delete_Task i s))
  end.

Definition SCH_Init (s : sched) : sched :=
  mkSched (SCH_tasks_G (init_loop SCH_MAX_TASKS 0 s)) 0 0 0 1.

(** ** SCH_Update *)

(** The body of the loop of [SCH_Update] for one slot. *)
Definition update_task (t : sTask) : sTask :=
  if pTask t =? NULL then t
  else if Delay t =? 0 then
    mk_sTask (pTask t) (if Period t =? 0 then Delay t else Period t)
             (Period t) (wrap8 (RunMe t + 1)) (TaskID t)
  else
    mk_sTask (pTask t) (wrap32 (Delay t - 1)) (Period t) (RunMe t)
             (TaskID t).

Definition SCH_Update (s : sched) : sched :=
  mkSched (map update_task (SCH_tasks_G s)) (Error_code_G s)
          (Last_error_code_G s) (Error_tick_count_G s) (Task_ID_Counter s).

(** ** SCH_Report_Status and SCH_Go_To_Sleep *)

Definition SCH_Report_Status (s : sched) : sched :=
  if negb (Error_code_G s =? Last_error_code_G s) then
    mkSched (SCH_tasks_G s) (Error_code_G s) (Error_code_G s)
            (if negb (Error_code_G s =? 0) then 60000 else 0)
            (Task_ID_Counter s)
  else if negb (Error_tick_count_G s =? 0) then
    let count := wrap32 (Error_tick_count_G s - 1) in
    mkSched (SCH_tasks_G s) (if count =? 0 then 0 else Error_code_G s)
            (Last_error_code_G s) count (Task_ID_Counter s)
  else s.

Definition SCH_Go_To_Sleep (s : sched) : sched := s.

(** ** SCH_Dispatch_Tasks

    As for the delta queue, callbacks are taken not to call back into the
    scheduler; the model returns the slots whose callback was run. *)

(** Whether the test of the dispatcher loop accepts the slot. *)
Definition flagged (t : sTask) : bool :=
  (0 <? RunMe t) && negb (pTask t =? NULL).

(** The body of the loop for slot [Index]. *)
Definition dispatch_slot (Index : nat) (s : sched) : sched * list sTask :=
  match nth_error (SCH_tasks_G s) Index with
  | Some t =>
      if flagged t then
        let t' := mk_sTask (pTask t) (Delay t) (Period t)
                           (wrap8 (RunMe t - 1)) (TaskID t) in
        let s1 := mkSched (set_slot Index t' (SCH_tasks_G s))
                          (Error_code_G s) (Last_error_code_G s)
                          (Error_tick_count_G s) (Task_ID_Counter s) in
        if Period t' =? 0
        then (fst (SCH_Delete_Task (TaskID t') s1), [t])
        else (s1, [t])
      else (s, [])
  | None => (s, [])
  end.

(** [n] turns of the loop, starting at slot [Index]. *)
Fixpoint dispatch_from (n Index : nat) (s : sched) : sched * list sTask :=
  match n with
  | O => (s, [])
  | S n' =>
      let '(s1, ran1) := dispatch_slot Index s in
      let '(s2, ran2) := dispatch_from n' (S Index) s1 in
      (s2, ran1 ++ ran2)
  end.

Definition SCH_Dispatch_Tasks (s : sched) : sched * list sTask :=
  let '(s1, ran) := dispatch_from SCH_MAX_TASKS 0 s in
  (SCH_Go_To_Sleep (SCH_Report_Status s1), ran).

(** ** SCH_Add_Task *)

(** The search for a gap: the index of the first slot whose [pTask] is
    null.  When no slot of the table is free the loop of the source goes on
    to read [SCH_tasks_G[SCH_MAX_TASKS]], past the end of the table, before
    it tests the index; the model gives no result for that case. *)
Fixpoint find_gap (tasks : list sTask) : option nat :=
  match tasks with
  | [] => None
  | t :: rest =>
      if pTask t =? NULL then Some O else option_map S (find_gap rest)
  end.

Definition SCH_Add_Task (pFunction DELAY PERIOD : Z) (s : sched)
    : option (sched * Z) :=
  match find_gap (SCH_tasks_G s) with
  | Some Index =>
      Some (mkSched
              (set_slot Index
                 (mk_sTask pFunction DELAY PERIOD 0 (Task_ID_Counter s))
                 (SCH_tasks_G s))
              (Error_code_G s) (Last_error_code_G s)
              (Error_tick_count_G s) (wrap32 (Task_ID_Counter s + 1)),
            Task_ID_Counter s)
  | None => None
  end.

(** ** Notions used by the statements *)

(** [n] timer interrupts in a row. *)
Fixpoint ticks (n : nat) (s : sched) : sched :=
  match n with
  | O => s
  | S n' => ticks n' (SCH_Update s)
  end.

(** [n] calls of [SCH_Report_Status] in a row. *)
Fixpoint reports (n : nat) (s : sched) : sched :=
  match n with
  | O => s
  | S n' => reports n' (SCH_Report_Status s)
  end.

(** What a call of the dispatcher does to a slot whose id no other slot
    shares. *)
Definition dispatch_task (t : sTask) : sTask :=
  if flagged t then
    if Period t =? 0 then cleared
    else mk_sTask (pTask t) (Delay t) (Period t) (wrap8 (RunMe t - 1))
                  (TaskID t)
  else t.

(** [n] ticks seen from one slot. *)
Fixpoint age (n : nat) (t : sTask) : sTask :=
  match n with
  | O => t
  | S n' => age n' (update_task t)
  end.

(** No two slots share a nonzero id. *)
Definition distinct_ids (tasks : list sTask) : Prop :=
  NoDup (filter (fun i => negb (i =? 0)) (map TaskID tasks)).

(** Whether every flagged one-shot slot has a nonzero id that is neither
    in [seen] nor the id of an earlier slot of [tasks]. *)
Fixpoint one_shots_first (seen : list Z) (tasks : list sTask) : bool :=
  match tasks with
  | [] => true
  | t :: rest =>
      (if flagged t && (Period t =? 0)
       then negb (TaskID t =? 0) && negb (existsb (Z.eqb (TaskID t)) seen)
       else true)
      && one_shots_first (TaskID t :: seen) rest
  end.

(** The state with another table. *)
Definition with_tasks (s : sched) (tasks : list sTask) : sched :=
  mkSched tasks (Error_code_G s) (Last_error_code_G s)
          (Error_tick_count_G s) (Task_ID_Counter s).

End ArraySched.

(** * Basic facts *)

(** Side conditions saying that a value fits in 32 bits. *)
Ltac u32 := unfold in_u32, UINT32_MOD in *; lia.

Lemma wrap32_small (z : Z) : in_u32 z -> wrap32 z = z.
Proof. unfold in_u32, wrap32. intros H. now apply Z.mod_small. Qed.

Lemma sum_delays_app (l1 l2 : list TaskNode) :
  sum_delays (l1 ++ l2) = sum_delays l1 + sum_delays l2.
Proof.
  induction l1 as [|n l1 IH]; simpl; [reflexivity|].
  rewrite IH. lia.
Qed.

Lemma sum_delays_nonneg (q : list TaskNode) :
  Forall node_ok q -> 0 <= sum_delays q.
Proof.
  induction 1 as [|n q [Hn _] _ IH]; simpl; lia.
Qed.

Lemma Forall_node_ok_firstn (k : nat) (q : list TaskNode) :
  Forall node_ok q -> Forall node_ok (firstn k q).
Proof.
  intros H. apply Forall_forall. intros x Hx.
  rewrite Forall_forall in H. apply H.
  rewrite <- (firstn_skipn k q). apply in_or_app. now left.
Qed.

Lemma Forall_node_ok_skipn (k : nat) (q : list TaskNode) :
  Forall node_ok q -> Forall node_ok (skipn k q).
Proof.
  intros H. apply Forall_forall. intros x Hx.
  rewrite Forall_forall in H. apply H.
  rewrite <- (firstn_skipn k q). apply in_or_app. now right.
Qed.

Lemma sum_delays_split (k : nat) (q : list TaskNode) :
  sum_delays q = sum_delays (firstn k q) + sum_delays (skipn k q).
Proof. now rewrite <- sum_delays_app, firstn_skipn. Qed.

Lemma to_abs_app (acc : Z) (l1 l2 : list TaskNode) :
  to_abs acc (l1 ++ l2) = to_abs acc l1 ++ to_abs (acc + sum_delays l1) l2.
Proof.
  revert acc. induction l1 as [|n l1 IH]; intros acc; simpl.
  - now rewrite Z.add_0_r.
  - rewrite IH. now rewrite Z.add_assoc.
Qed.

Lemma to_abs_split (k : nat) (q : list TaskNode) :
  to_abs 0 q
  = to_abs 0 (firstn k q) ++ to_abs (sum_delays (firstn k q)) (skipn k q).
Proof.
  rewrite <- (firstn_skipn k q) at 1. now rewrite to_abs_app.
Qed.

Lemma to_abs_ids (acc : Z) (q : list TaskNode) :
  map TaskID (to_abs acc q) = map TaskID q.
Proof.
  revert acc. induction q as [|n q IH]; intros acc; simpl; [reflexivity|].
  now rewrite IH.
Qed.

Lemma to_abs_shift_head (acc d : Z) (q : list TaskNode) :
  to_abs acc (shift_head d q) = to_abs (acc + d) q.
Proof.
  destruct q as [|p ps]; simpl; [reflexivity|].
  replace (acc + (Delay p + d)) with (acc + d + Delay p) by lia.
  reflexivity.
Qed.

(** The absolute view lists the records with their cumulative delays. *)
Lemma to_abs_nth (q : list TaskNode) (acc : Z) (k : nat) (n : TaskNode) :
  nth_error q k = Some n ->
  nth_error (to_abs acc q) k
  = Some (set_Delay n (acc + cumulative_delay q k)).
Proof.
  revert acc k. induction q as [|h q IH]; intros acc k Hk.
  - destruct k; discriminate.
  - destruct k as [|k]; simpl in *.
    + injection Hk as ->. unfold cumulative_delay. simpl.
      destruct q; simpl; now rewrite Z.add_0_r.
    + rewrite (IH _ _ Hk). unfold cumulative_delay. simpl.
      do 2 f_equal. lia.
Qed.

Lemma to_abs_In (q : list TaskNode) (acc : Z) (m : TaskNode) :
  In m (to_abs acc q) ->
  exists k n, nth_error q k = Some n /\
              m = set_Delay n (acc + cumulative_delay q k).
Proof.
  intros Hm. apply In_nth_error in Hm. destruct Hm as [k Hk].
  destruct (nth_error q k) as [n|] eqn:Hq.
  - exists k, n. split; [exact Hq|].
    rewrite (to_abs_nth _ acc _ _ Hq) in Hk. now injection Hk.
  - exfalso. apply nth_error_None in Hq.
    assert (Hl : length (to_abs acc q) = length q).
    { rewrite <- (length_map TaskID), to_abs_ids. apply length_map. }
    assert (nth_error (to_abs acc q) k = None)
      by (apply nth_error_None; lia).
    congruence.
Qed.

(** * Shape of the queue after an insertion *)

Lemma first_later_prefix (q : list TaskNode) (acc DELAY : Z) :
  Forall node_ok q -> acc <= DELAY ->
  acc + sum_delays (firstn (first_later acc DELAY q) q) <= DELAY.
Proof.
  intros Hq. revert acc.
  induction Hq as [|n q [Hn _] _ IH]; intros acc Hacc; simpl; [lia|].
  destruct (Z.ltb_spec DELAY (acc + Delay n)); simpl; [lia|].
  specialize (IH (acc + Delay n)). lia.
Qed.

Lemma first_later_next (q : list TaskNode) (acc DELAY : Z)
    (p : TaskNode) (ps : list TaskNode) :
  skipn (first_later acc DELAY q) q = p :: ps ->
  DELAY < acc + sum_delays (firstn (first_later acc DELAY q) q) + Delay p.
Proof.
  revert acc. induction q as [|n q IH]; intros acc; simpl; [discriminate|].
  destruct (Z.ltb_spec DELAY (acc + Delay n)); simpl.
  - intros [= <- <-]. lia.
  - intros Hs. specialize (IH _ Hs). lia.
Qed.

Lemma first_later_le_length (q : list TaskNode) (acc DELAY : Z) :
  (first_later acc DELAY q <= length q)%nat.
Proof.
  revert acc. induction q as [|n q IH]; intros acc; simpl; [lia|].
  destruct (DELAY <? acc + Delay n); [lia|].
  specialize (IH (acc + Delay n)). lia.
Qed.

Lemma insert_after_shape (newTask : TaskNode) (rest : list TaskNode) :
  forall (current : TaskNode) (a DELAY : Z),
  Forall node_ok rest -> 0 <= a <= DELAY -> DELAY < UINT32_MOD ->
  a + sum_delays rest < UINT32_MOD ->
  insert_after newTask current rest a DELAY
  = current ::
    firstn (first_later a DELAY rest) rest ++
    set_Delay newTask
      (DELAY - a - sum_delays (firstn (first_later a DELAY rest) rest)) ::
    shift_head
      (- (DELAY - a - sum_delays (firstn (first_later a DELAY rest) rest)))
      (skipn (first_later a DELAY rest) rest).
Proof.
  induction rest as [|nxt rest IH]; intros current a DELAY Hok Ha HD Hsum.
  - simpl. rewrite wrap32_small by u32.
    now rewrite Z.sub_0_r.
  - simpl in Hsum. inversion Hok as [|? ? [Hn _] Hok']; subst.
    pose proof (sum_delays_nonneg _ Hok') as Hnn.
    simpl. rewrite (wrap32_small (a + Delay nxt)) by u32.
    destruct (Z.leb_spec (a + Delay nxt) DELAY) as [Hle|Hgt];
      destruct (Z.ltb_spec DELAY (a + Delay nxt)) as [Hlt|Hge]; try lia.
    + rewrite IH by (try assumption; lia). simpl.
      set (pre := firstn (first_later (a + Delay nxt) DELAY rest) rest).
      replace (DELAY - a - (Delay nxt + sum_delays pre))
        with (DELAY - (a + Delay nxt) - sum_delays pre) by lia.
      reflexivity.
    + simpl. rewrite (wrap32_small (DELAY - a)) by u32.
      rewrite wrap32_small by u32.
      rewrite Z.sub_0_r.
      replace (Delay nxt + - (DELAY - a)) with (Delay nxt - (DELAY - a))
        by lia.
      reflexivity.
Qed.

Lemma insert_sorted_shape (newTask : TaskNode) (DELAY : Z)
    (q : list TaskNode) :
  queue_ok q -> in_u32 DELAY ->
  insert_sorted newTask DELAY q
  = firstn (first_later 0 DELAY q) q ++
    set_Delay newTask
      (DELAY - sum_delays (firstn (first_later 0 DELAY q) q)) ::
    shift_head (- (DELAY - sum_delays (firstn (first_later 0 DELAY q) q)))
      (skipn (first_later 0 DELAY q) q).
Proof.
  intros [Hok Hsum] [HD0 HD]. destruct q as [|h rest].
  - simpl. now rewrite Z.sub_0_r.
  - inversion Hok as [|? ? [Hh _] Hok']; subst. simpl in Hsum.
    pose proof (sum_delays_nonneg _ Hok') as Hnn.
    unfold insert_sorted. simpl first_later.
    destruct (Z.ltb_spec DELAY (Delay h)) as [Hlt|Hge].
    + simpl. rewrite wrap32_small by u32.
      rewrite Z.sub_0_r.
      replace (Delay h + - DELAY) with (Delay h - DELAY) by lia.
      reflexivity.
    + rewrite insert_after_shape by (try assumption; lia).
      simpl.
      set (pre := firstn (first_later (Delay h) DELAY rest) rest).
      replace (DELAY - (Delay h + sum_delays pre))
        with (DELAY - Delay h - sum_delays pre) by lia.
      reflexivity.
Qed.

(** What an insertion does to the well-formedness of the queue, to its
    absolute view and to the identifiers it holds. *)

Lemma insert_sorted_ok (newTask : TaskNode) (DELAY : Z) (q : list TaskNode) :
  queue_ok q -> in_u32 DELAY -> in_u32 (Period newTask) ->
  queue_ok (insert_sorted newTask DELAY q).
Proof.
  intros Hq HD HP. rewrite insert_sorted_shape by assumption.
  destruct Hq as [Hok Hsum].
  set (k := first_later 0 DELAY q).
  pose proof (first_later_prefix q 0 DELAY Hok (proj1 HD)) as Hpre.
  fold k in Hpre.
  pose proof (first_later_next q 0 DELAY) as Hnext. fold k in Hnext.
  pose proof (Forall_node_ok_firstn k q Hok) as Hf.
  pose proof (Forall_node_ok_skipn k q Hok) as Hs.
  pose proof (sum_delays_nonneg _ Hf) as Hfn.
  pose proof (sum_delays_split k q) as Hsplit.
  destruct HD as [HD0 HD].
  destruct (skipn k q) as [|p ps] eqn:Hsk; simpl.
  - split.
    + apply Forall_app. split; [assumption|].
      constructor; [|constructor]. split; simpl; [lia|assumption].
    + rewrite sum_delays_app. simpl. lia.
  - specialize (Hnext p ps eq_refl).
    inversion Hs as [|? ? [Hp HpP] Hps]; subst.
    split.
    + apply Forall_app. split; [assumption|].
      constructor; [split; simpl; [lia|assumption]|].
      constructor; [split; simpl; [lia|assumption]|assumption].
    + rewrite sum_delays_app. simpl. simpl in Hsplit. lia.
Qed.

Lemma insert_sorted_abs (newTask : TaskNode) (DELAY : Z)
    (q : list TaskNode) :
  queue_ok q -> in_u32 DELAY ->
  to_abs 0 (insert_sorted newTask DELAY q)
  = to_abs 0 (firstn (first_later 0 DELAY q) q) ++
    set_Delay newTask DELAY ::
    to_abs (sum_delays (firstn (first_later 0 DELAY q) q))
      (skipn (first_later 0 DELAY q) q).
Proof.
  intros Hq HD. rewrite insert_sorted_shape by assumption.
  rewrite to_abs_app. f_equal. simpl to_abs at 1.
  rewrite to_abs_shift_head. simpl.
  set (pre := sum_delays (firstn (first_later 0 DELAY q) q)).
  replace (pre + (DELAY - pre) + - (DELAY - pre)) with pre by lia.
  replace (pre + (DELAY - pre)) with DELAY by lia.
  reflexivity.
Qed.

Lemma insert_sorted_abs_In (newTask : TaskNode) (DELAY : Z)
    (q : list TaskNode) (m : TaskNode) :
  queue_ok q -> in_u32 DELAY ->
  In m (to_abs 0 (insert_sorted newTask DELAY q)) <->
  m = set_Delay newTask DELAY \/ In m (to_abs 0 q).
Proof.
  intros Hq HD. rewrite insert_sorted_abs by assumption.
  rewrite (to_abs_split (first_later 0 DELAY q) q).
  rewrite !in_app_iff. simpl.
  intuition congruence.
Qed.

Lemma insert_sorted_ids (newTask : TaskNode) (DELAY : Z)
    (q : list TaskNode) (i : Z) :
  queue_ok q -> in_u32 DELAY ->
  In i (map TaskID (insert_sorted newTask DELAY q)) <->
  i = TaskID newTask \/ In i (map TaskID q).
Proof.
  intros Hq HD. rewrite <- (to_abs_ids 0), <- (to_abs_ids 0 q).
  rewrite !in_map_iff. split.
  - intros [m [Hi Hm]]. apply insert_sorted_abs_In in Hm; try assumption.
    destruct Hm as [-> | Hm]; [left; now rewrite <- Hi|right; eauto].
  - intros [-> | [m [Hi Hm]]].
    + exists (set_Delay newTask DELAY). split; [reflexivity|].
      apply insert_sorted_abs_In; auto.
    + exists m. split; [assumption|].
      apply insert_sorted_abs_In; auto.
Qed.

Lemma insert_sorted_NoDup (newTask : TaskNode) (DELAY : Z)
    (q : list TaskNode) :
  queue_ok q -> in_u32 DELAY ->
  NoDup (map TaskID q) -> ~ In (TaskID newTask) (map TaskID q) ->
  NoDup (map TaskID (insert_sorted newTask DELAY q)).
Proof.
  intros Hq HD Hnd Hfresh. rewrite insert_sorted_shape by assumption.
  rewrite <- (firstn_skipn (first_later 0 DELAY q) q) in Hnd, Hfresh.
  set (pre := firstn (first_later 0 DELAY q) q) in *.
  assert (Hsh : forall d l, map TaskID (shift_head d l) = map TaskID l)
    by (intros d [|p ps]; reflexivity).
  rewrite map_app in *. simpl. rewrite Hsh.
  apply NoDup_Add with (a := TaskID newTask)
                       (l := map TaskID pre ++ map TaskID
                               (skipn (first_later 0 DELAY q) q)).
  - apply Add_app.
  - split; assumption.
Qed.

(** * Shape of the queue after a removal *)

Lemma delete_node_None (taskID : Z) (q : list TaskNode) :
  delete_node taskID q = None <-> ~ In taskID (map TaskID q).
Proof.
  induction q as [|c rest IH]; simpl.
  - tauto.
  - destruct (Z.eqb_spec (TaskID c) taskID) as [He|Hne].
    + split; [destruct rest; discriminate|tauto].
    + destruct (delete_node taskID rest) as [rest'|].
      * split; [discriminate|]. intros H. exfalso.
        assert (Hin : ~ In taskID (map TaskID rest)) by tauto.
        apply IH in Hin. discriminate.
      * split; [|reflexivity]. intros _ [H|H]; [contradiction|].
        now apply (proj1 IH eq_refl).
Qed.

Lemma delete_node_shape (taskID : Z) (q q' : list TaskNode) :
  queue_ok q -> delete_node taskID q = Some q' ->
  exists pre c post,
    q = pre ++ c :: post /\ TaskID c = taskID /\
    ~ In taskID (map TaskID pre) /\
    q' = pre ++ shift_head (Delay c) post.
Proof.
  intros [Hok Hsum]. revert q' Hsum.
  induction Hok as [|c rest [Hc _] Hok IH]; intros q' Hsum; simpl;
    [discriminate|].
  simpl in Hsum. pose proof (sum_delays_nonneg _ Hok) as Hnn.
  destruct (Z.eqb_spec (TaskID c) taskID) as [He|Hne].
  - intros Hq'. exists [], c, rest. simpl. repeat split; auto.
    destruct rest as [|nxt rest']; simpl in *; [congruence|].
    inversion Hok as [|? ? [Hn _] Hok']; subst.
    pose proof (sum_delays_nonneg _ Hok').
    rewrite wrap32_small in Hq' by u32. congruence.
  - destruct (delete_node taskID rest) as [rest'|]; [|discriminate].
    intros [= <-].
    destruct (IH rest' ltac:(lia) eq_refl)
      as (pre & c' & post & -> & Hid & Hpre & ->).
    exists (c :: pre), c', post. simpl. repeat split; auto.
    intros [H|H]; contradiction.
Qed.

Lemma delete_node_ok (taskID : Z) (q q' : list TaskNode) :
  queue_ok q -> delete_node taskID q = Some q' -> queue_ok q'.
Proof.
  intros Hq Hd.
  destruct (delete_node_shape _ _ _ Hq Hd)
    as (pre & c & post & -> & _ & _ & ->).
  destruct Hq as [Hok Hsum].
  apply Forall_app in Hok as [Hpre Hpost].
  inversion Hpost as [|? ? [Hc _] Hpost']; subst.
  rewrite sum_delays_app in Hsum. simpl in Hsum.
  destruct post as [|p ps]; simpl.
  - rewrite app_nil_r. split; [assumption|].
    simpl in Hsum. lia.
  - inversion Hpost' as [|? ? [Hp HpP] Hps]; subst. split.
    + apply Forall_app. split; [assumption|].
      constructor; [split; simpl; [lia|assumption]|assumption].
    + rewrite sum_delays_app. simpl in *. lia.
Qed.

Lemma delete_node_abs (taskID : Z) (q q' : list TaskNode) (m : TaskNode) :
  queue_ok q -> delete_node taskID q = Some q' ->
  In m (to_abs 0 q') -> In m (to_abs 0 q).
Proof.
  intros Hq Hd.
  destruct (delete_node_shape _ _ _ Hq Hd)
    as (pre & c & post & -> & _ & _ & ->).
  rewrite !to_abs_app. rewrite to_abs_shift_head. simpl.
  rewrite !in_app_iff. simpl.
  replace (sum_delays pre + Delay c) with (0 + sum_delays pre + Delay c)
    by lia.
  tauto.
Qed.

Lemma delete_node_ids (taskID : Z) (q q' : list TaskNode) (i : Z) :
  queue_ok q -> delete_node taskID q = Some q' ->
  In i (map TaskID q') -> In i (map TaskID q).
Proof.
  intros Hq Hd. rewrite <- (to_abs_ids 0 q'), <- (to_abs_ids 0 q).
  rewrite !in_map_iff. intros [m [Hi Hm]]. exists m. split; [assumption|].
  eapply delete_node_abs; eassumption.
Qed.

Lemma delete_node_NoDup (taskID : Z) (q q' : list TaskNode) :
  queue_ok q -> delete_node taskID q = Some q' ->
  NoDup (map TaskID q) -> NoDup (map TaskID q').
Proof.
  intros Hq Hd.
  destruct (delete_node_shape _ _ _ Hq Hd)
    as (pre & c & post & -> & _ & _ & ->).
  assert (Hsh : forall d l, map TaskID (shift_head d l) = map TaskID l)
    by (intros d [|p ps]; reflexivity).
  rewrite !map_app, Hsh. simpl. apply NoDup_remove_1.
Qed.

(** * The timer tick on the absolute view *)

Lemma SCH_Update_ids (s : sched) :
  map TaskID (g_TaskListHead (SCH_Update s)) = map TaskID (g_TaskListHead s).
Proof.
  unfold SCH_Update. destruct (g_TaskListHead s) as [|h rest];
    [reflexivity|].
  destruct (0 <? Delay h); reflexivity.
Qed.

Lemma SCH_Update_ok (s : sched) :
  queue_ok (g_TaskListHead s) -> queue_ok (g_TaskListHead (SCH_Update s)).
Proof.
  unfold SCH_Update. destruct (g_TaskListHead s) as [|h rest];
    [simpl; auto|].
  intros [Hok Hsum]. destruct (Z.ltb_spec 0 (Delay h)); simpl;
    [|split; assumption].
  inversion Hok as [|? ? [Hh HP] Hok']; subst. simpl in Hsum.
  pose proof (sum_delays_nonneg _ Hok').
  rewrite wrap32_small by u32. split.
  - constructor; [split; simpl; [lia|assumption]|assumption].
  - simpl. lia.
Qed.

(** A tick that finds the head pending takes one off every absolute delay;
    any other tick leaves them all as they are. *)
Lemma SCH_Update_abs (s : sched) :
  queue_ok (g_TaskListHead s) ->
  to_abs 0 (g_TaskListHead (SCH_Update s))
  = if head_pending s
    then map (fun m => set_Delay m (Delay m - 1))
             (to_abs 0 (g_TaskListHead s))
    else to_abs 0 (g_TaskListHead s).
Proof.
  assert (Hgen : forall q a, to_abs (a - 1) q
                 = map (fun m => set_Delay m (Delay m - 1)) (to_abs a q)).
  { induction q as [|n q IH]; intros a; simpl; [reflexivity|].
    replace (a - 1 + Delay n) with (a + Delay n - 1) by lia.
    now rewrite IH. }
  unfold SCH_Update, head_pending.
  destruct (g_TaskListHead s) as [|h rest]; [reflexivity|].
  intros [Hok Hsum]. destruct (Z.ltb_spec 0 (Delay h)); simpl;
    [|reflexivity].
  inversion Hok as [|? ? [Hh HP] Hok']; subst. simpl in Hsum.
  pose proof (sum_delays_nonneg _ Hok').
  rewrite wrap32_small by u32.
  now rewrite Hgen.
Qed.

(** * The dispatcher loop *)

Section Dispatcher.

(** The outcome of the allocations made during the call. *)
Variable malloc : nat -> bool.

Lemma dispatch_loop_fields (fuel : nat) :
  forall (k : nat) (s : sched),
  g_CurrentTick (d_state (dispatch_loop fuel malloc k s)) = g_CurrentTick s /\
  g_NextTaskID (d_state (dispatch_loop fuel malloc k s)) = g_NextTaskID s /\
  g_ErrorCode (d_state (dispatch_loop fuel malloc k s)) = g_ErrorCode s.
Proof.
  induction fuel as [|fuel IH]; intros k s; simpl; [auto|].
  destruct (g_TaskListHead s) as [|h rest]; [auto|].
  destruct (Delay h =? 0); [|auto].
  destruct (0 <? Period h); [destruct (malloc k)|]; simpl;
    match goal with
    | |- context [dispatch_loop fuel malloc ?k' ?s'] =>
        destruct (IH k' s') as (Ht & Hn & He)
    end; simpl in *; auto.
Qed.

Lemma due_count_le_length (q : list TaskNode) :
  (due_count q <= length q)%nat.
Proof.
  unfold due_count. etransitivity; [apply filter_length_le|].
  rewrite <- (length_map TaskID), to_abs_ids, length_map. lia.
Qed.

Lemma due_count_pop (h : TaskNode) (rest : list TaskNode) :
  Delay h = 0 -> due_count (h :: rest) = S (due_count rest).
Proof.
  intros Hh. unfold due_count. simpl. rewrite Hh. reflexivity.
Qed.

Lemma due_count_insert (newTask : TaskNode) (DELAY : Z)
    (q : list TaskNode) :
  queue_ok q -> in_u32 DELAY -> 0 < DELAY ->
  due_count (insert_sorted newTask DELAY q) = due_count q.
Proof.
  intros Hq HD Hpos. unfold due_count.
  rewrite insert_sorted_abs by assumption.
  rewrite (to_abs_split (first_later 0 DELAY q) q).
  rewrite !filter_app, !length_app. simpl.
  destruct (Z.eqb_spec DELAY 0); [lia|reflexivity].
Qed.

Lemma queue_ok_tail (h : TaskNode) (rest : list TaskNode) :
  queue_ok (h :: rest) -> queue_ok rest.
Proof.
  intros [Hok Hsum]. inversion Hok as [|? ? [Hh _] Hok']; subst.
  simpl in Hsum. split; [assumption|lia].
Qed.

(** The loop stops by itself: with at least as much fuel as there are due
    records, the head of the final queue is not due. *)
Lemma dispatch_loop_done (fuel : nat) :
  forall (k : nat) (s : sched),
  queue_ok (g_TaskListHead s) ->
  (due_count (g_TaskListHead s) <= fuel)%nat ->
  match g_TaskListHead (d_state (dispatch_loop fuel malloc k s)) with
  | h :: _ => Delay h <> 0
  | [] => True
  end.
Proof.
  induction fuel as [|fuel IH]; intros k s Hq Hfuel; simpl.
  - destruct (g_TaskListHead s) as [|h rest]; [exact I|].
    intros Hh. rewrite (due_count_pop _ _ Hh) in Hfuel. lia.
  - destruct (g_TaskListHead s) as [|h rest] eqn:Hs;
      [simpl; now rewrite Hs|].
    destruct (Z.eqb_spec (Delay h) 0) as [Hh|Hh]; [|simpl; now rewrite Hs].
    rewrite (due_count_pop _ _ Hh) in Hfuel.
    pose proof (queue_ok_tail _ _ Hq) as Hrest.
    assert (HP : in_u32 (Period h)).
    { destruct Hq as [Hok _]. inversion Hok as [|? ? [_ HP] _]; now subst. }
    destruct (Z.ltb_spec 0 (Period h)); [destruct (malloc k)|]; simpl;
      apply IH; simpl; try assumption; try lia.
    + now apply insert_sorted_ok.
    + rewrite due_count_insert by assumption. lia.
Qed.

Lemma dispatch_post_stop (s : sched) :
  queue_ok (g_TaskListHead s) -> NoDup (map TaskID (g_TaskListHead s)) ->
  dispatch_post malloc s (mkDispatched s []).
Proof.
  intros Hq Hnd. unfold dispatch_post. simpl.
  split; [assumption|]. split; [assumption|].
  split; [auto|]. split; [auto|]. intros n [].
Qed.

Lemma dispatch_loop_spec (fuel : nat) :
  forall (k : nat) (s : sched),
  queue_ok (g_TaskListHead s) -> NoDup (map TaskID (g_TaskListHead s)) ->
  dispatch_post malloc s (dispatch_loop fuel malloc k s).
Proof.
  induction fuel as [|fuel IH]; intros k s Hq Hnd; simpl.
  - now apply dispatch_post_stop.
  - destruct (g_TaskListHead s) as [|h rest] eqn:Hs.
    { apply dispatch_post_stop; now rewrite Hs. }
    destruct (Z.eqb_spec (Delay h) 0) as [Hh|Hh].
    2:{ apply dispatch_post_stop; now rewrite Hs. }
    pose proof (queue_ok_tail _ _ Hq) as Hrest.
    assert (HP : in_u32 (Period h)).
    { destruct Hq as [Hok _]. inversion Hok as [|? ? [_ HP] _]; now subst. }
    simpl in Hnd. inversion Hnd as [|? ? Hfresh Hnd']; subst.
    assert (Habs : forall m, In m (to_abs 0 (h :: rest)) -> 0 < Delay m ->
                             In m (to_abs 0 rest)).
    { simpl. rewrite Hh. simpl. intros m [<-|Hm] Hpos; [simpl in Hpos; lia|].
      exact Hm. }
    set (q1 := if 0 <? Period h
               then if malloc k
                    then (insert_sorted h (Period h) rest, S k)
                    else (rest, S k)
               else (rest, k)).
    assert (Hq1 : queue_ok (fst q1) /\ NoDup (map TaskID (fst q1)) /\
                  (forall i, In i (map TaskID (fst q1)) ->
                             In i (map TaskID (h :: rest))) /\
                  (forall m, In m (to_abs 0 rest) ->
                             In m (to_abs 0 (fst q1))) /\
                  (Period h = 0 -> fst q1 = rest) /\
                  ((forall j, malloc j = true) -> Period h <> 0 ->
                   In (set_Delay h (Period h)) (to_abs 0 (fst q1)))).
    { unfold q1. destruct (Z.ltb_spec 0 (Period h)) as [Hpos|Hnpos];
        [destruct (malloc k) eqn:Hm|]; simpl.
      - split; [now apply insert_sorted_ok|].
        split; [now apply insert_sorted_NoDup|].
        split.
        { intros i Hi. apply insert_sorted_ids in Hi; [|assumption..].
          destruct Hi as [->|Hi]; simpl; auto. }
        split.
        { intros m Hm'. apply insert_sorted_abs_In; auto. }
        split; [lia|].
        intros _ _. apply insert_sorted_abs_In; auto.
      - split; [assumption|]. split; [assumption|].
        split; [intros i Hi; now right|]. split; [auto|].
        split; [reflexivity|].
        intros Hall. rewrite Hall in Hm. discriminate.
      - split; [assumption|]. split; [assumption|].
        split; [intros i Hi; now right|]. split; [auto|].
        split; [reflexivity|].
        destruct HP. lia. }
    destruct q1 as [q' k']. simpl in Hq1.
    destruct Hq1 as (Hok1 & Hnd1 & Hids1 & Habs1 & Hone & Hper).
    specialize (IH k' (mkSched q' (g_CurrentTick s) (g_NextTaskID s)
                               (g_ErrorCode s)) Hok1 Hnd1).
    destruct IH as (Hok2 & Hnd2 & Hids2 & Habs2 & Hran2).
    simpl in Hids2, Habs2. unfold dispatch_post. rewrite Hs. simpl.
    split; [assumption|]. split; [assumption|].
    split; [auto|]. split; [intros m Hm Hpos; apply Habs2; auto|].
    intros n [<-|Hn]; [|now apply Hran2].
    split; [assumption|]. split; [assumption|]. split.
    + intros Hz Hin. apply Hids2 in Hin. rewrite (Hone Hz) in Hin.
      contradiction.
    + intros Hall Hnz. apply Habs2; [now apply Hper|].
      simpl. destruct HP. lia.
Qed.

End Dispatcher.

(** * The invariant along a trace *)

Lemma sched_inv_weaken (b b' : Z) (s : sched) :
  b <= b' -> sched_inv b s -> sched_inv b' s.
Proof.
  intros Hb (Hq & Hnd & Hids & Hnext). unfold sched_inv.
  split; [assumption|]. split; [assumption|]. split; [assumption|lia].
Qed.

Lemma SCH_Init_inv (s : sched) : sched_inv 1 (SCH_Init s).
Proof.
  unfold sched_inv, queue_ok. simpl.
  split; [split; [constructor|reflexivity]|].
  split; [constructor|]. split; [intros i []|lia].
Qed.

Lemma SCH_Add_Task_inv (b : Z) (s : sched) (pFunction DELAY PERIOD : Z)
    (malloc_ok : bool) :
  sched_inv b s -> in_u32 DELAY -> in_u32 PERIOD -> b + 1 < UINT32_MOD ->
  sched_inv (b + 1) (fst (SCH_Add_Task pFunction DELAY PERIOD malloc_ok s)).
Proof.
  intros Hinv HD HP Hb. unfold SCH_Add_Task.
  destruct (pFunction =? NULL);
    [apply sched_inv_weaken with b; [lia|exact Hinv]|].
  destruct malloc_ok; simpl;
    [|apply sched_inv_weaken with b; [lia|exact Hinv]].
  destruct Hinv as (Hq & Hnd & Hids & Hnext).
  assert (Hfresh : ~ In (g_NextTaskID s) (map TaskID (g_TaskListHead s))).
  { intros Hin. apply Hids in Hin. lia. }
  unfold sched_inv. simpl.
  rewrite wrap32_small by u32.
  split; [now apply insert_sorted_ok|].
  split; [now apply insert_sorted_NoDup|].
  split; [|lia].
  intros i Hi. apply insert_sorted_ids in Hi; [|assumption..].
  simpl in Hi. destruct Hi as [->|Hi]; [lia|].
  apply Hids in Hi. lia.
Qed.

Lemma SCH_Delete_Task_inv (b : Z) (s : sched) (taskID : Z) :
  sched_inv b s -> sched_inv b (fst (SCH_Delete_Task taskID s)).
Proof.
  intros Hinv. unfold SCH_Delete_Task.
  destruct (g_TaskListHead s) as [|h rest] eqn:Hs.
  - destruct Hinv as (Hq & Hnd & Hids & Hnext). rewrite Hs in *.
    unfold sched_inv. simpl. auto.
  - rewrite <- Hs.
    destruct (delete_node taskID (g_TaskListHead s)) as [q'|] eqn:Hd;
      simpl; [|exact Hinv].
    destruct Hinv as (Hq & Hnd & Hids & Hnext). unfold sched_inv. simpl.
    split; [eapply delete_node_ok; eassumption|].
    split; [eapply delete_node_NoDup; eassumption|].
    split; [|assumption].
    intros i Hi. apply Hids. eapply delete_node_ids; eassumption.
Qed.

Lemma SCH_Update_fields (s : sched) :
  g_NextTaskID (SCH_Update s) = g_NextTaskID s /\
  g_ErrorCode (SCH_Update s) = g_ErrorCode s /\
  g_CurrentTick (SCH_Update s) = wrap32 (g_CurrentTick s + 1).
Proof.
  unfold SCH_Update. destruct (g_TaskListHead s) as [|h rest]; [auto|].
  destruct (0 <? Delay h); auto.
Qed.

Lemma SCH_Update_inv (b : Z) (s : sched) :
  sched_inv b s -> sched_inv b (SCH_Update s).
Proof.
  intros (Hq & Hnd & Hids & Hnext). unfold sched_inv.
  rewrite SCH_Update_ids. destruct (SCH_Update_fields s) as (-> & _ & _).
  split; [now apply SCH_Update_ok|]. auto.
Qed.

Lemma SCH_Dispatch_Tasks_inv (b : Z) (s : sched) (malloc : nat -> bool) :
  sched_inv b s -> sched_inv b (d_state (SCH_Dispatch_Tasks malloc s)).
Proof.
  intros (Hq & Hnd & Hids & Hnext). unfold SCH_Dispatch_Tasks.
  destruct (dispatch_loop_spec malloc (length (g_TaskListHead s)) 0 s Hq Hnd)
    as (Hq' & Hnd' & Hids' & _).
  destruct (dispatch_loop_fields malloc (length (g_TaskListHead s)) 0 s)
    as (_ & Hn & _).
  unfold sched_inv. rewrite Hn.
  split; [assumption|]. split; [assumption|]. split; [|assumption].
  intros i Hi. apply Hids. now apply Hids'.
Qed.

Lemma step_inv (b : Z) (s : sched) (o : op) :
  sched_inv b s -> op_ok o -> b + 1 < UINT32_MOD ->
  sched_inv (b + 1) (step s o).
Proof.
  intros Hinv Hok Hb. destruct o as [[pf D P ok|taskID|]|malloc|]; simpl.
  - destruct Hok as (_ & HD & HP). now apply SCH_Add_Task_inv.
  - apply sched_inv_weaken with b; [lia|]. now apply SCH_Delete_Task_inv.
  - apply sched_inv_weaken with b; [lia|]. now apply SCH_Update_inv.
  - apply sched_inv_weaken with b; [lia|]. now apply SCH_Dispatch_Tasks_inv.
  - apply sched_inv_weaken with b; [lia|]. exact Hinv.
Qed.

Lemma run_inv (ops : list op) :
  forall (b : Z) (s : sched),
  sched_inv b s -> Forall op_ok ops ->
  b + Z.of_nat (length ops) < UINT32_MOD ->
  sched_inv (b + Z.of_nat (length ops)) (run ops s).
Proof.
  induction ops as [|o ops IH]; intros b s Hinv Hok Hb.
  - simpl. now rewrite Z.add_0_r.
  - inversion Hok as [|? ? Ho Hops]; subst.
    change (run (o :: ops) s) with (run ops (step s o)).
    replace (b + Z.of_nat (length (o :: ops)))
      with (b + 1 + Z.of_nat (length ops))
      by (simpl length; lia).
    simpl length in Hb.
    apply IH; [apply step_inv; auto; lia|assumption|lia].
Qed.

(** Every state reached from [SCH_Init] by fewer than [2^32 - 1] operations
    satisfies the invariant. *)
Lemma reachable_inv (ops : list op) (s0 : sched) :
  Forall op_ok ops -> Z.of_nat (length ops) < UINT32_MOD - 1 ->
  sched_inv (1 + Z.of_nat (length ops)) (run ops (SCH_Init s0)).
Proof.
  intros Hok Hlen. apply run_inv; [apply SCH_Init_inv|assumption|lia].
Qed.

(** * Registration failures *)

Lemma SCH_Add_Task_failed (s : sched) (pFunction DELAY PERIOD : Z)
    (malloc_ok : bool) :
  pFunction = NULL \/ malloc_ok = false ->
  SCH_Add_Task pFunction DELAY PERIOD malloc_ok s
  = (mkSched (g_TaskListHead s) (g_CurrentTick s) (g_NextTaskID s)
             ERROR_SCH_TOO_MANY_TASKS, NO_TASK_ID).
Proof.
  intros Hfail. unfold SCH_Add_Task.
  destruct (Z.eqb_spec pFunction NULL) as [Hnull|Hfun]; [reflexivity|].
  destruct Hfail as [Hnull | ->]; [contradiction|reflexivity].
Qed.

(** C4.  A call of [SCH_Add_Task] with a null callback, or whose allocation
    fails, returns the sentinel [NO_TASK_ID] (0), stores an error code in the
    error slot and leaves the queue (hence every record and its delay), the
    id counter and the tick counter as they were. *)
Theorem SCH_Add_Task_failure_atomic (s : sched) (pFunction DELAY PERIOD : Z)
    (malloc_ok : bool) :
  pFunction = NULL \/ malloc_ok = false ->
  snd (SCH_Add_Task pFunction DELAY PERIOD malloc_ok s) = 0 /\
  g_ErrorCode (fst (SCH_Add_Task pFunction DELAY PERIOD malloc_ok s))
  = ERROR_SCH_TOO_MANY_TASKS /\
  ERROR_SCH_TOO_MANY_TASKS <> 0 /\
  g_TaskListHead (fst (SCH_Add_Task pFunction DELAY PERIOD malloc_ok s))
  = g_TaskListHead s /\
  g_NextTaskID (fst (SCH_Add_Task pFunction DELAY PERIOD malloc_ok s))
  = g_NextTaskID s /\
  g_CurrentTick (fst (SCH_Add_Task pFunction DELAY PERIOD malloc_ok s))
  = g_CurrentTick s.
Proof.
  intros Hfail. rewrite (SCH_Add_Task_failed _ _ _ _ _ Hfail). simpl.
  repeat split; discriminate.
Qed.

Lemma SCH_Add_Task_failure_atomic_witness :
  let s := mkSched [mkTaskNode 100 5 0 1] 3 2 0 in
  (100 = NULL \/ false = false) /\
  snd (SCH_Add_Task 100 7 0 false s) = 0 /\
  g_ErrorCode (fst (SCH_Add_Task 100 7 0 false s)) = 1 /\
  g_TaskListHead (fst (SCH_Add_Task 100 7 0 false s))
  = [mkTaskNode 100 5 0 1].
Proof.
  intros s.
  assert (Hfail : 100 = NULL \/ false = false) by (right; reflexivity).
  split; [exact Hfail|]. split; [|split].
  - exact (proj1 (SCH_Add_Task_failure_atomic s 100 7 0 false Hfail)).
  - exact (proj1 (proj2 (SCH_Add_Task_failure_atomic s 100 7 0 false Hfail))).
  - exact (proj1 (proj2 (proj2 (proj2
             (SCH_Add_Task_failure_atomic s 100 7 0 false Hfail))))).
Defined.

(** * The timer tick *)

(** C5.  [SCH_Update] adds one to the tick counter (modulo 2^32, the width
    of the counter) and changes at most the head record: its relative delay
    goes down by one exactly when the queue is not empty and that delay is
    positive.  The other fields of the head, every other record, the id
    counter and the error slot are unchanged, whatever the queue length. *)
Theorem SCH_Update_frame (s : sched) :
  queue_ok (g_TaskListHead s) ->
  g_CurrentTick (SCH_Update s) = wrap32 (g_CurrentTick s + 1) /\
  g_NextTaskID (SCH_Update s) = g_NextTaskID s /\
  g_ErrorCode (SCH_Update s) = g_ErrorCode s /\
  match g_TaskListHead s with
  | [] => g_TaskListHead (SCH_Update s) = []
  | h :: rest =>
      g_TaskListHead (SCH_Update s)
      = (if 0 <? Delay h then set_Delay h (Delay h - 1) else h) :: rest
  end.
Proof.
  intros [Hok Hsum]. destruct (SCH_Update_fields s) as (Hn & He & Ht).
  split; [assumption|]. split; [assumption|]. split; [assumption|].
  unfold SCH_Update. destruct (g_TaskListHead s) as [|h rest];
    [reflexivity|].
  destruct (Z.ltb_spec 0 (Delay h)); simpl; [|reflexivity].
  inversion Hok as [|? ? [Hh _] Hok']; subst. simpl in Hsum.
  pose proof (sum_delays_nonneg _ Hok').
  now rewrite wrap32_small by u32.
Qed.

Lemma SCH_Update_frame_witness :
  let s := mkSched [mkTaskNode 100 5 0 1; mkTaskNode 200 2 0 2] 3 3 0 in
  queue_ok (g_TaskListHead s) /\
  g_CurrentTick (SCH_Update s) = 4 /\
  g_TaskListHead (SCH_Update s)
  = [mkTaskNode 100 4 0 1; mkTaskNode 200 2 0 2].
Proof.
  intros s.
  assert (Hq : queue_ok (g_TaskListHead s)).
  { split; [repeat constructor; simpl; u32|].
    reflexivity. }
  split; [exact Hq|].
  split; [exact (proj1 (SCH_Update_frame s Hq))|].
  exact (proj2 (proj2 (proj2 (SCH_Update_frame s Hq)))).
Defined.

(** * Removal failures *)

Lemma SCH_Delete_Task_absent (taskID : Z) (s : sched) :
  ~ In taskID (map TaskID (g_TaskListHead s)) ->
  SCH_Delete_Task taskID s
  = (mkSched (g_TaskListHead s) (g_CurrentTick s) (g_NextTaskID s)
             (match g_TaskListHead s with
              | [] => ERROR_SCH_CANNOT_DELETE_TASK
              | _ :: _ => ERROR_SCH_TASK_NOT_FOUND
              end), 0).
Proof.
  intros Habs. apply delete_node_None in Habs. unfold SCH_Delete_Task.
  destruct (g_TaskListHead s) as [|h rest] eqn:Hs; [reflexivity|].
  now rewrite Habs.
Qed.

(** C7.  [SCH_Delete_Task] with an id that no queued record carries returns
    0 (failure), stores a nonzero error code in the error slot and leaves
    the queue exactly as it was: same records, same relative delays, same
    order. *)
Theorem SCH_Delete_Task_missing_id (taskID : Z) (s : sched) :
  ~ In taskID (map TaskID (g_TaskListHead s)) ->
  snd (SCH_Delete_Task taskID s) = 0 /\
  g_ErrorCode (fst (SCH_Delete_Task taskID s)) <> 0 /\
  g_TaskListHead (fst (SCH_Delete_Task taskID s)) = g_TaskListHead s /\
  g_NextTaskID (fst (SCH_Delete_Task taskID s)) = g_NextTaskID s /\
  g_CurrentTick (fst (SCH_Delete_Task taskID s)) = g_CurrentTick s.
Proof.
  intros Habs. rewrite (SCH_Delete_Task_absent _ _ Habs). simpl.
  repeat split. destruct (g_TaskListHead s); discriminate.
Qed.

Lemma SCH_Delete_Task_missing_id_witness :
  let s := mkSched [mkTaskNode 100 5 0 1; mkTaskNode 200 2 0 2] 3 3 0 in
  ~ In 7 (map TaskID (g_TaskListHead s)) /\
  snd (SCH_Delete_Task 7 s) = 0 /\
  g_TaskListHead (fst (SCH_Delete_Task 7 s)) = g_TaskListHead s.
Proof.
  intros s.
  assert (Habs : ~ In 7 (map TaskID (g_TaskListHead s)))
    by (simpl; intuition discriminate).
  split; [exact Habs|].
  split; [exact (proj1 (SCH_Delete_Task_missing_id 7 s Habs))|].
  exact (proj1 (proj2 (proj2 (SCH_Delete_Task_missing_id 7 s Habs)))).
Defined.

(** C10.  The two failures of [SCH_Delete_Task] carry different codes: on an
    empty queue the error slot receives ERROR_SCH_CANNOT_DELETE_TASK (2), on
    a queue that is not empty but holds no record with the id it receives
    ERROR_SCH_TASK_NOT_FOUND (3); both calls return 0. *)
Theorem SCH_Delete_Task_failure_codes (taskID : Z) (s : sched) :
  ~ In taskID (map TaskID (g_TaskListHead s)) ->
  snd (SCH_Delete_Task taskID s) = 0 /\
  (g_TaskListHead s = [] ->
   g_ErrorCode (fst (SCH_Delete_Task taskID s)) = 2) /\
  (g_TaskListHead s <> [] ->
   g_ErrorCode (fst (SCH_Delete_Task taskID s)) = 3) /\
  ERROR_SCH_CANNOT_DELETE_TASK = 2 /\ ERROR_SCH_TASK_NOT_FOUND = 3.
Proof.
  intros Habs. rewrite (SCH_Delete_Task_absent _ _ Habs). simpl.
  split; [reflexivity|]. split; [|split; [|split; reflexivity]].
  - intros ->. reflexivity.
  - destruct (g_TaskListHead s); [congruence|reflexivity].
Qed.

Lemma SCH_Delete_Task_failure_codes_witness :
  let s1 := mkSched [] 3 3 0 in
  let s2 := mkSched [mkTaskNode 100 5 0 1] 3 3 0 in
  ~ In 7 (map TaskID (g_TaskListHead s1)) /\
  ~ In 7 (map TaskID (g_TaskListHead s2)) /\
  g_ErrorCode (fst (SCH_Delete_Task 7 s1)) = 2 /\
  g_ErrorCode (fst (SCH_Delete_Task 7 s2)) = 3.
Proof.
  intros s1 s2.
  assert (Habs1 : ~ In 7 (map TaskID (g_TaskListHead s1)))
    by (simpl; tauto).
  assert (Habs2 : ~ In 7 (map TaskID (g_TaskListHead s2)))
    by (simpl; intuition discriminate).
  split; [exact Habs1|]. split; [exact Habs2|]. split.
  - exact (proj1 (proj2 (SCH_Delete_Task_failure_codes 7 s1 Habs1)) eq_refl).
  - apply (proj1 (proj2 (proj2
             (SCH_Delete_Task_failure_codes 7 s2 Habs2)))).
    discriminate.
Defined.

(** * The error slot *)

(** C8.  After a failing call has set the error slot, the first
    [SCH_Get_Error_Code] returns that (nonzero) code and resets the slot,
    and a second call made right after it returns 0; the accessor changes
    nothing else. *)
Theorem SCH_Get_Error_Code_round_trip (s s' : sched) :
  failing_call s s' ->
  snd (SCH_Get_Error_Code s') = g_ErrorCode s' /\
  snd (SCH_Get_Error_Code s') <> 0 /\
  g_ErrorCode (fst (SCH_Get_Error_Code s')) = 0 /\
  snd (SCH_Get_Error_Code (fst (SCH_Get_Error_Code s'))) = 0 /\
  g_TaskListHead (fst (SCH_Get_Error_Code s')) = g_TaskListHead s' /\
  g_NextTaskID (fst (SCH_Get_Error_Code s')) = g_NextTaskID s' /\
  g_CurrentTick (fst (SCH_Get_Error_Code s')) = g_CurrentTick s'.
Proof.
  intros Hfail. simpl. repeat split.
  destruct Hfail as [D P ok s|pf D P s|taskID s Habs].
  - rewrite SCH_Add_Task_failed by now left. discriminate.
  - rewrite SCH_Add_Task_failed by now right. discriminate.
  - rewrite (SCH_Delete_Task_absent _ _ Habs). simpl.
    destruct (g_TaskListHead s); discriminate.
Qed.

Lemma SCH_Get_Error_Code_round_trip_witness :
  let s := mkSched [mkTaskNode 100 5 0 1] 3 2 0 in
  let s' := fst (SCH_Delete_Task 7 s) in
  failing_call s s' /\
  snd (SCH_Get_Error_Code s') = 3 /\
  snd (SCH_Get_Error_Code (fst (SCH_Get_Error_Code s'))) = 0.
Proof.
  intros s s'.
  assert (Hfail : failing_call s s').
  { apply fail_delete. simpl. intuition discriminate. }
  split; [exact Hfail|]. split.
  - exact (proj1 (SCH_Get_Error_Code_round_trip s s' Hfail)).
  - exact (proj1 (proj2 (proj2 (proj2
             (SCH_Get_Error_Code_round_trip s s' Hfail))))).
Defined.

(** * Where an insertion lands *)

Lemma first_later_spec (q : list TaskNode) :
  Forall node_ok q ->
  forall (acc DELAY : Z) (j : nat) (n : TaskNode),
  nth_error q j = Some n ->
  (acc + cumulative_delay q j <= DELAY <-> (j < first_later acc DELAY q)%nat).
Proof.
  induction 1 as [|h q [Hh _] Hok IH]; intros acc DELAY j n Hj.
  - destruct j; discriminate.
  - simpl first_later. destruct j as [|j]; simpl in Hj.
    + unfold cumulative_delay. simpl.
      destruct (Z.ltb_spec DELAY (acc + Delay h)); split; lia.
    + assert (Hc : cumulative_delay (h :: q) (S j)
                   = Delay h + cumulative_delay q j) by reflexivity.
      rewrite Hc.
      assert (0 <= cumulative_delay q j).
      { apply sum_delays_nonneg. now apply Forall_node_ok_firstn. }
      destruct (Z.ltb_spec DELAY (acc + Delay h)).
      * split; lia.
      * specialize (IH (acc + Delay h) DELAY j n Hj). split; intros; [|lia].
        apply -> Nat.succ_lt_mono. apply IH. lia.
Qed.

(** C2, as stated, fails: with one record due in 5 ticks queued, a second
    registration with delay 5 is linked after it, not before it. *)
Lemma ties_before_existing_fails : ~ ties_before_existing.
Proof.
  intros Hclaim.
  destruct (Hclaim (mkSched [mkTaskNode 100 5 0 1] 0 2 0) 200 5 0 O)
    as [d Hd].
  - split; [repeat constructor; simpl; u32|].
    reflexivity.
  - u32.
  - discriminate.
  - simpl. lia.
  - reflexivity.
  - vm_compute in Hd. discriminate.
Qed.

(** C2, amended.  A successful [SCH_Add_Task] links the new record
    immediately before the first record whose absolute delay is strictly
    greater than [DELAY] (at the end when there is none): the records
    before it are untouched, the record after it gives up the new record's
    relative delay, and every queued record whose absolute delay is at most
    [DELAY], in particular equal to it, stays ahead of the new record. *)
Theorem SCH_Add_Task_position (s : sched) (pFunction DELAY PERIOD : Z) :
  queue_ok (g_TaskListHead s) -> in_u32 DELAY -> pFunction <> NULL ->
  let q := g_TaskListHead s in
  let q' :=
    g_TaskListHead (fst (SCH_Add_Task pFunction DELAY PERIOD true s)) in
  let k := first_later 0 DELAY q in
  let d := DELAY - sum_delays (firstn k q) in
  nth_error q' k = Some (mkTaskNode pFunction d PERIOD (g_NextTaskID s)) /\
  firstn k q' = firstn k q /\
  skipn (S k) q' = shift_head (- d) (skipn k q) /\
  (forall j n, nth_error q j = Some n ->
     (cumulative_delay q j <= DELAY <-> (j < k)%nat)).
Proof.
  intros Hq HD Hfun q q' k d.
  assert (Hq' : q' = firstn k q ++
                     mkTaskNode pFunction d PERIOD (g_NextTaskID s) ::
                     shift_head (- d) (skipn k q)).
  { unfold q', SCH_Add_Task.
    destruct (Z.eqb_spec pFunction NULL); [contradiction|]. simpl.
    now rewrite insert_sorted_shape by assumption. }
  assert (Hk : length (firstn k q) = k).
  { apply firstn_length_le. apply first_later_le_length. }
  assert (Hties : forall j n, nth_error q j = Some n ->
            (cumulative_delay q j <= DELAY <-> (j < k)%nat)).
  { intros j n Hj. destruct Hq as [Hok _].
    apply (first_later_spec q Hok 0 DELAY j n Hj). }
  clearbody q' k d. subst q'. clearbody q.
  split; [|split; [|split; [|exact Hties]]].
  - rewrite nth_error_app2 by lia.
    rewrite Hk, Nat.sub_diag. reflexivity.
  - rewrite <- Hk at 1. rewrite firstn_app, firstn_all.
    rewrite Nat.sub_diag. simpl. now rewrite app_nil_r.
  - rewrite <- Hk at 1.
    change (S (length (firstn k q))) with (1 + length (firstn k q))%nat.
    rewrite <- skipn_skipn, skipn_app, skipn_all.
    rewrite Nat.sub_diag. reflexivity.
Qed.

Lemma SCH_Add_Task_position_witness :
  let s := mkSched [mkTaskNode 100 5 0 1] 0 2 0 in
  queue_ok (g_TaskListHead s) /\ in_u32 5 /\ 200 <> NULL /\
  nth_error (g_TaskListHead (fst (SCH_Add_Task 200 5 0 true s))) 1
  = Some (mkTaskNode 200 0 0 2).
Proof.
  intros s.
  assert (Hq : queue_ok (g_TaskListHead s)).
  { split; [repeat constructor; simpl; u32|].
    reflexivity. }
  assert (HD : in_u32 5) by (u32).
  assert (Hf : 200 <> NULL) by discriminate.
  split; [exact Hq|]. split; [exact HD|]. split; [exact Hf|].
  exact (proj1 (SCH_Add_Task_position s 200 5 0 Hq HD Hf)).
Defined.

(** * Rescheduling after a failed allocation *)

(** C3.  The dispatcher never writes the error slot.  At the failing input
    (one periodic task registered with delay 0 and period 10, then a
    dispatch whose allocation fails) the task is run and dropped from the
    queue while the slot still reads 0, so [SCH_Get_Error_Code] reports no
    error; a failed allocation in [SCH_Add_Task], by contrast, stores
    ERROR_SCH_TOO_MANY_TASKS. *)
Theorem SCH_Dispatch_Tasks_reschedule_failure_silent (s0 : sched) :
  (forall malloc s,
     g_ErrorCode (d_state (SCH_Dispatch_Tasks malloc s)) = g_ErrorCode s) /\
  let s := run [OpQueue (QAdd 100 0 10 true)] (SCH_Init s0) in
  let r := SCH_Dispatch_Tasks (fun _ => false) s in
  g_TaskListHead s = [mkTaskNode 100 0 10 1] /\
  d_ran r = [mkTaskNode 100 0 10 1] /\
  g_TaskListHead (d_state r) = [] /\
  snd (SCH_Get_Error_Code (d_state r)) = 0 /\
  snd (SCH_Get_Error_Code (fst (SCH_Add_Task 100 0 10 false s)))
  = ERROR_SCH_TOO_MANY_TASKS.
Proof.
  split.
  - intros malloc s. unfold SCH_Dispatch_Tasks.
    apply (dispatch_loop_fields malloc (length (g_TaskListHead s)) 0 s).
  - repeat split.
Qed.

(** * Task identifiers *)

(** While the id counter has not wrapped, a successful registration returns
    the value of the counter, which is positive and carried by no queued
    record, and moves the counter one up, so that later ids are greater. *)
Lemma SCH_Add_Task_fresh_id (b : Z) (s : sched)
    (pFunction DELAY PERIOD : Z) :
  sched_inv b s -> b + 1 < UINT32_MOD -> pFunction <> NULL ->
  snd (SCH_Add_Task pFunction DELAY PERIOD true s) = g_NextTaskID s /\
  0 < g_NextTaskID s /\
  ~ In (g_NextTaskID s) (map TaskID (g_TaskListHead s)) /\
  g_NextTaskID (fst (SCH_Add_Task pFunction DELAY PERIOD true s))
  = g_NextTaskID s + 1.
Proof.
  intros (Hq & Hnd & Hids & Hnext) Hb Hfun. unfold SCH_Add_Task.
  destruct (Z.eqb_spec pFunction NULL); [contradiction|]. simpl.
  rewrite wrap32_small by u32.
  repeat split; try lia. intros Hin. apply Hids in Hin. lia.
Qed.

Lemma wrap32_range (z : Z) : in_u32 (wrap32 z).
Proof. apply Z.mod_pos_bound. reflexivity. Qed.

Lemma churn_ok (n : nat) : forall id, in_u32 id -> Forall op_ok (churn n id).
Proof.
  induction n as [|n IH]; intros id Hid; simpl; constructor.
  - simpl. u32.
  - constructor; [exact Hid|]. apply IH, wrap32_range.
Qed.

Lemma churn_run (n : nat) :
  forall (id tick err : Z), in_u32 id ->
  run (churn n id) (mkSched [] tick id err)
  = mkSched [] tick (wrap32 (id + Z.of_nat n)) err.
Proof.
  induction n as [|n IH]; intros id tick err Hid.
  - simpl. now rewrite Z.add_0_r, wrap32_small.
  - change (run (churn (S n) id) (mkSched [] tick id err))
      with (run (churn n (wrap32 (id + 1)))
              (step (step (mkSched [] tick id err)
                          (OpQueue (QAdd 100 0 0 true)))
                    (OpQueue (QDelete id)))).
    assert (Hstep : step (step (mkSched [] tick id err)
                               (OpQueue (QAdd 100 0 0 true)))
                         (OpQueue (QDelete id))
                    = mkSched [] tick (wrap32 (id + 1)) err).
    { simpl. unfold SCH_Delete_Task. simpl. now rewrite Z.eqb_refl. }
    rewrite Hstep, IH by apply wrap32_range.
    f_equal. unfold wrap32. rewrite Zplus_mod_idemp_l.
    f_equal. lia.
Qed.

(** C9.  The id counter is a 32-bit integer that [SCH_Add_Task] increments
    without a check.  After [SCH_Init] (counter 1) and 2^32 - 2 rounds of
    registering and deleting a task the counter holds 2^32 - 1; the next
    registration receives that id and wraps the counter to 0, and the one
    after it succeeds (its record is queued) but returns 0, the
    [NO_TASK_ID] sentinel, which is not greater than the ids assigned
    before it. *)
Theorem SCH_Add_Task_id_wraps_to_sentinel (s0 : sched) :
  g_NextTaskID (SCH_Init s0) = 1 /\
  exists ops, Forall op_ok ops /\
    let s := run ops (SCH_Init s0) in
    let r1 := SCH_Add_Task 100 5 0 true s in
    let r2 := SCH_Add_Task 200 7 0 true (fst r1) in
    g_TaskListHead s = [] /\
    snd r1 = UINT32_MOD - 1 /\
    snd r2 = NO_TASK_ID /\
    g_TaskListHead (fst r2)
    = [mkTaskNode 100 5 0 (UINT32_MOD - 1); mkTaskNode 200 2 0 0].
Proof.
  split; [reflexivity|].
  exists (churn (Z.to_nat (UINT32_MOD - 2)) 1).
  assert (H1 : in_u32 1) by (u32).
  split; [now apply churn_ok|].
  change (SCH_Init s0) with (mkSched [] 0 1 0).
  rewrite (churn_run _ 1 0 0 H1).
  rewrite Z2Nat.id by (unfold UINT32_MOD; lia).
  replace (wrap32 (1 + (UINT32_MOD - 2))) with (UINT32_MOD - 1)
    by reflexivity.
  cbv zeta. repeat split.
Qed.

(** * The delta-queue invariant *)

(** C1, as stated, fails: a tick that finds the head already due changes no
    record, so the records behind a due head do not age.  After registering
    delays 1 and 3 and letting two ticks pass, the second record is still 2
    ticks away, not 1. *)
Lemma delta_queue_inv_all_ticks_fails : ~ delta_queue_inv_all_ticks.
Proof.
  intros Hclaim.
  destruct (Hclaim [QAdd 100 1 0 true; QAdd 200 3 0 true; QTick; QTick]
                   (mkSched [] 0 1 0)) with (k := 1%nat)
                   (n := mkTaskNode 200 2 0 2) as (r & Hr & Hsum).
  - repeat constructor; simpl; u32.
  - simpl. unfold UINT32_MOD. lia.
  - reflexivity.
  - vm_compute in Hr. injection Hr as <-. vm_compute in Hsum. discriminate.
Qed.

(** The registry only observes: the state it is paired with is the state
    the operations produce. *)
Lemma run_log_state (counts : sched -> bool) (ops : list qop) :
  forall (s : sched) (log : list registration),
  fst (run_log counts ops s log) = run (map OpQueue ops) s.
Proof.
  induction ops as [|o ops IH]; intros s log; simpl; [reflexivity|].
  apply IH.
Qed.

Lemma lookup_reg_tick (id : Z) (log : list registration) :
  lookup_reg id (map tick_reg log) = option_map tick_reg (lookup_reg id log).
Proof.
  induction log as [|r log IH]; simpl; [reflexivity|].
  destruct (reg_id r =? id); [reflexivity|exact IH].
Qed.

Lemma step_log_agrees (b : Z) (s : sched) (o : qop)
    (log : list registration) :
  sched_inv b s -> qop_ok o -> log_agrees s log ->
  log_agrees (step_queue s o) (step_log head_pending s o log).
Proof.
  intros (Hq & Hnd & Hids & Hnext) Hok Hlog.
  destruct o as [pf D P ok|taskID|]; simpl.
  - destruct Hok as (_ & HD & _). unfold SCH_Add_Task.
    destruct (pf =? NULL); simpl; [exact Hlog|].
    destruct ok; simpl; [|exact Hlog].
    intros m Hm. simpl in Hm.
    apply insert_sorted_abs_In in Hm; [|assumption..].
    destruct Hm as [-> | Hm]; simpl.
    + rewrite Z.eqb_refl. eexists. split; [reflexivity|]. simpl. lia.
    + assert (Hin : In (TaskID m) (map TaskID (g_TaskListHead s))).
      { rewrite <- (to_abs_ids 0). now apply in_map. }
      apply Hids in Hin.
      destruct (Z.eqb_spec (g_NextTaskID s) (TaskID m)); [lia|].
      now apply Hlog.
  - unfold SCH_Delete_Task.
    destruct (g_TaskListHead s) as [|h rest] eqn:Hs.
    + simpl. intros m [].
    + rewrite <- Hs in *.
      destruct (delete_node taskID (g_TaskListHead s)) as [q'|] eqn:Hd;
        simpl; [|exact Hlog].
      intros m Hm. simpl in Hm. apply Hlog.
      eapply delete_node_abs; eassumption.
  - intros m Hm. rewrite SCH_Update_abs in Hm by assumption.
    destruct (head_pending s); [|now apply Hlog].
    apply in_map_iff in Hm. destruct Hm as (m0 & <- & Hm0).
    destruct (Hlog m0 Hm0) as (r & Hr & Hd).
    exists (tick_reg r). simpl. rewrite lookup_reg_tick, Hr.
    split; [reflexivity|]. simpl. lia.
Qed.

(** A call that registers nothing leaves the bound on the ids where it
    is. *)
Lemma step_queue_inv_idle (b : Z) (s : sched) (o : qop) :
  sched_inv b s -> registers o = false -> sched_inv b (step_queue s o).
Proof.
  intros Hinv Hreg. destruct o as [pf D P ok|taskID|]; simpl.
  - simpl in Hreg. unfold SCH_Add_Task.
    destruct (pf =? NULL); [exact Hinv|].
    destruct ok; [discriminate|exact Hinv].
  - now apply SCH_Delete_Task_inv.
  - now apply SCH_Update_inv.
Qed.

Lemma registrations_cons (o : qop) (ops : list qop) :
  registrations (o :: ops)
  = if registers o then S (registrations ops) else registrations ops.
Proof. unfold registrations. simpl. now destruct (registers o). Qed.

Lemma run_log_agrees (ops : list qop) :
  forall (b : Z) (s : sched) (log : list registration),
  sched_inv b s -> Forall qop_ok ops -> log_agrees s log ->
  b + Z.of_nat (registrations ops) < UINT32_MOD ->
  sched_inv (b + Z.of_nat (registrations ops))
            (fst (run_log head_pending ops s log)) /\
  log_agrees (fst (run_log head_pending ops s log))
             (snd (run_log head_pending ops s log)).
Proof.
  induction ops as [|o ops IH]; intros b s log Hinv Hok Hlog Hb.
  - unfold registrations. simpl. rewrite Z.add_0_r. auto.
  - inversion Hok as [|? ? Ho Hops]; subst.
    rewrite registrations_cons in *. simpl run_log.
    pose proof (step_log_agrees b s o log Hinv Ho Hlog) as Hlog'.
    destruct (registers o) eqn:Hreg.
    + replace (b + Z.of_nat (S (registrations ops)))
        with (b + 1 + Z.of_nat (registrations ops)) by lia.
      apply IH; try assumption; try lia.
      apply (step_inv b s (OpQueue o)); [assumption|exact Ho|lia].
    + apply IH; try assumption.
      now apply step_queue_inv_idle.
Qed.

(** C1, amended.  Count against a record only the ticks that found the
    head of the queue not yet due (the ticks on which [SCH_Update] takes one
    off the head).  Then in every state reached from [SCH_Init] by
    [SCH_Add_Task], [SCH_Delete_Task] and [SCH_Update] calls, however many,
    of which fewer than 2^32 - 1 register a task (so that the id counter has
    not wrapped and an id names one registration), for every queued record
    the sum of the relative delays of that record and of all records before
    it equals the delay requested at its registration minus the ticks
    counted since. *)
Theorem delta_queue_inv_counted_ticks (ops : list qop) (s0 : sched) :
  Forall qop_ok ops -> Z.of_nat (registrations ops) < UINT32_MOD - 1 ->
  delta_queue_inv (fst (run_log head_pending ops (SCH_Init s0) []))
                  (snd (run_log head_pending ops (SCH_Init s0) [])).
Proof.
  intros Hok Hlen.
  destruct (run_log_agrees ops 1 (SCH_Init s0) [] (SCH_Init_inv s0) Hok)
    as [Hinv Hlog]; [intros m []|lia|].
  intros k n Hk.
  pose proof (to_abs_nth _ 0 _ _ Hk) as Habs.
  apply nth_error_In in Habs.
  destruct (Hlog _ Habs) as (r & Hr & Hd). simpl in Hr, Hd.
  exists r. split; [exact Hr|].
  destruct Hinv as ((Hnodes & _) & _).
  assert (0 <= cumulative_delay
                 (g_TaskListHead
                    (fst (run_log head_pending ops (SCH_Init s0) []))) k).
  { apply sum_delays_nonneg. now apply Forall_node_ok_firstn. }
  unfold remaining. lia.
Qed.

Lemma delta_queue_inv_counted_ticks_witness :
  let ops := [QAdd 100 1 0 true; QAdd 200 3 0 true; QTick; QTick;
              QAdd 0 9 0 true; QDelete 7; QTick; QAdd 300 2 5 false] in
  Forall qop_ok ops /\ Z.of_nat (registrations ops) < UINT32_MOD - 1 /\
  delta_queue_inv (fst (run_log head_pending ops (mkSched [] 0 1 0) []))
                  (snd (run_log head_pending ops (mkSched [] 0 1 0) [])).
Proof.
  intros ops.
  assert (Hok : Forall qop_ok ops)
    by (repeat constructor; simpl; u32).
  assert (Hlen : Z.of_nat (registrations ops) < UINT32_MOD - 1)
    by (simpl; unfold UINT32_MOD; lia).
  split; [exact Hok|]. split; [exact Hlen|].
  exact (delta_queue_inv_counted_ticks ops (mkSched [] 0 1 0) Hok Hlen).
Defined.

(** * The records a dispatch runs *)

Lemma set_Delay_same (n : TaskNode) : set_Delay n (Delay n) = n.
Proof. now destruct n. Qed.

Lemma to_abs_ge (q : list TaskNode) :
  Forall node_ok q -> forall a x, In x (to_abs a q) -> a <= Delay x.
Proof.
  induction 1 as [|n q [Hn _] _ IH]; intros a x; simpl; [tauto|].
  intros [<-|Hx]; simpl; [lia|]. specialize (IH _ _ Hx). lia.
Qed.

Lemma due_prefix_length (q : list TaskNode) :
  (length (due_prefix q) <= length q)%nat.
Proof.
  induction q as [|n q IH]; simpl; [lia|].
  destruct (Delay n =? 0); simpl; lia.
Qed.

(** A record whose absolute delay is zero is in the due prefix. *)
Lemma due_prefix_abs (q : list TaskNode) :
  Forall node_ok q ->
  forall x, In x (to_abs 0 q) -> Delay x = 0 -> In x (due_prefix q).
Proof.
  induction 1 as [|n q [Hn _] Hq IH]; intros x; simpl; [tauto|].
  destruct (Z.eqb_spec (Delay n) 0) as [Hz|Hnz].
  - rewrite Hz. intros [<-|Hx] Hd.
    + left. rewrite <- Hz. symmetry. apply set_Delay_same.
    + right. now apply IH.
  - intros [<-|Hx] Hd; simpl in Hd; [lia|].
    pose proof (to_abs_ge q Hq _ _ Hx). lia.
Qed.

Lemma due_prefix_In (q : list TaskNode) (n : TaskNode) :
  In n (due_prefix q) -> In n (to_abs 0 q) /\ Delay n = 0.
Proof.
  induction q as [|h q IH]; simpl; [tauto|].
  destruct (Z.eqb_spec (Delay h) 0) as [Hz|Hnz]; [|intros []].
  rewrite Hz. simpl. intros [<-|Hn].
  - split; [left|assumption]. rewrite <- Hz. apply set_Delay_same.
  - destruct (IH Hn). auto.
Qed.

Lemma drained_pending (q : list TaskNode) :
  Forall node_ok q -> drained q ->
  forall m, In m (to_abs 0 q) -> 0 < Delay m.
Proof.
  intros Hq Hd m Hm. destruct q as [|h rest]; [contradiction|].
  simpl in Hd. inversion Hq as [|? ? [Hh _] Hrest]; subst.
  simpl in Hm. destruct Hm as [<-|Hm]; simpl; [lia|].
  pose proof (to_abs_ge rest Hrest _ _ Hm). lia.
Qed.

Lemma due_count_drained (q : list TaskNode) :
  due_count q = O -> drained q.
Proof.
  destruct q as [|h rest]; simpl; [trivial|].
  intros Hc Hh. rewrite (due_count_pop _ _ Hh) in Hc. discriminate.
Qed.

Lemma insert_after_head (newTask current : TaskNode)
    (rest : list TaskNode) (a DELAY : Z) :
  exists t, insert_after newTask current rest a DELAY = current :: t.
Proof.
  destruct rest as [|nxt rest]; simpl; [eauto|].
  destruct (wrap32 (a + Delay nxt) <=? DELAY); eauto.
Qed.

(** Walking on from a due record is inserting into what follows it. *)
Lemma insert_after_zero (newTask current : TaskNode)
    (rest : list TaskNode) (DELAY : Z) :
  queue_ok rest -> in_u32 DELAY ->
  insert_after newTask current rest 0 DELAY
  = current :: insert_sorted newTask DELAY rest.
Proof.
  intros [Hok Hsum] HD. destruct rest as [|nxt rest]; simpl.
  - now rewrite Z.sub_0_r, wrap32_small.
  - inversion Hok as [|? ? [Hn _] Hrest]; subst. simpl in Hsum.
    pose proof (sum_delays_nonneg _ Hrest).
    rewrite (wrap32_small (Delay nxt)) by u32.
    rewrite Z.sub_0_r, (wrap32_small DELAY) by assumption.
    destruct (Z.leb_spec (Delay nxt) DELAY);
      destruct (Z.ltb_spec DELAY (Delay nxt)); try lia; reflexivity.
Qed.

(** Rescheduling with a positive period leaves the due prefix alone. *)
Lemma due_prefix_insert (newTask : TaskNode) (DELAY : Z)
    (q : list TaskNode) :
  queue_ok q -> in_u32 DELAY -> 0 < DELAY ->
  due_prefix (insert_sorted newTask DELAY q) = due_prefix q.
Proof.
  intros Hq HD Hpos. induction q as [|h rest IH].
  - simpl. destruct (Z.eqb_spec DELAY 0); [lia|reflexivity].
  - pose proof (queue_ok_tail _ _ Hq) as Hrest.
    destruct Hq as [Hok _]. inversion Hok as [|? ? [Hh _] _]; subst.
    unfold insert_sorted. fold (insert_sorted newTask DELAY rest).
    destruct (Z.ltb_spec DELAY (Delay h)).
    + simpl. destruct (Z.eqb_spec DELAY 0); [lia|].
      destruct (Z.eqb_spec (Delay h) 0); [lia|reflexivity].
    + destruct (Z.eqb_spec (Delay h) 0) as [Hz|Hnz].
      * rewrite Hz, insert_after_zero by assumption.
        simpl. rewrite Hz. simpl. now rewrite IH.
      * destruct (insert_after_head newTask h rest (Delay h) DELAY)
          as [t ->].
        simpl. destruct (Z.eqb_spec (Delay h) 0); [lia|reflexivity].
Qed.

(** A record registered with delay zero joins the due prefix at its end. *)
Lemma due_prefix_insert_now (newTask : TaskNode) (q : list TaskNode) :
  queue_ok q ->
  due_prefix (insert_sorted newTask 0 q)
  = due_prefix q ++ [set_Delay newTask 0].
Proof.
  assert (H0 : in_u32 0) by u32.
  intros Hq. induction q as [|h rest IH]; [reflexivity|].
  pose proof (queue_ok_tail _ _ Hq) as Hrest.
  destruct Hq as [Hok Hsum]. inversion Hok as [|? ? [Hh _] Hok']; subst.
  simpl in Hsum. pose proof (sum_delays_nonneg _ Hok').
  unfold insert_sorted. fold (insert_sorted newTask 0 rest).
  destruct (Z.ltb_spec 0 (Delay h)).
  - simpl. rewrite Z.sub_0_r, wrap32_small by u32.
    destruct (Z.eqb_spec (Delay h) 0); [lia|reflexivity].
  - assert (Hz : Delay h = 0) by lia.
    rewrite Hz, insert_after_zero by assumption.
    simpl. rewrite Hz. simpl. now rewrite IH.
Qed.

Section DispatchedRecords.

Variable malloc : nat -> bool.

Lemma dispatch_loop_ran (fuel : nat) :
  forall (k : nat) (s : sched),
  queue_ok (g_TaskListHead s) ->
  (due_count (g_TaskListHead s) <= fuel)%nat ->
  d_ran (dispatch_loop fuel malloc k s) = due_prefix (g_TaskListHead s).
Proof.
  induction fuel as [|fuel IH]; intros k s Hq Hfuel; simpl.
  - destruct (g_TaskListHead s) as [|h rest]; [reflexivity|]. simpl.
    destruct (Z.eqb_spec (Delay h) 0) as [Hh|Hh]; [|reflexivity].
    rewrite (due_count_pop _ _ Hh) in Hfuel. lia.
  - destruct (g_TaskListHead s) as [|h rest] eqn:Hs; [reflexivity|].
    simpl due_prefix.
    destruct (Z.eqb_spec (Delay h) 0) as [Hh|Hh]; [|reflexivity].
    rewrite (due_count_pop _ _ Hh) in Hfuel.
    pose proof (queue_ok_tail _ _ Hq) as Hrest.
    assert (HP : in_u32 (Period h)).
    { destruct Hq as [Hok _]. inversion Hok as [|? ? [_ HP] _]; now subst. }
    destruct (Z.ltb_spec 0 (Period h)); [destruct (malloc k)|]; simpl;
      rewrite IH; simpl; try assumption; try lia; try reflexivity.
    + now rewrite due_prefix_insert.
    + now apply insert_sorted_ok.
    + rewrite due_count_insert by assumption. lia.
Qed.

(** When nothing is rescheduled the loop only unlinks the due prefix. *)
Lemma dispatch_loop_drop (fuel : nat) :
  forall (k : nat) (s : sched),
  (forall j, malloc j = false) \/
  (forall n, In n (due_prefix (g_TaskListHead s)) -> Period n = 0) ->
  (length (due_prefix (g_TaskListHead s)) <= fuel)%nat ->
  g_TaskListHead (d_state (dispatch_loop fuel malloc k s))
  = skipn (length (due_prefix (g_TaskListHead s))) (g_TaskListHead s).
Proof.
  induction fuel as [|fuel IH]; intros k s Hno Hfuel; simpl.
  - destruct (due_prefix (g_TaskListHead s)); [reflexivity|].
    simpl in Hfuel. lia.
  - destruct (g_TaskListHead s) as [|h rest] eqn:Hs;
      [simpl; now rewrite Hs|].
    simpl due_prefix in *.
    destruct (Z.eqb_spec (Delay h) 0) as [Hh|Hh]; [|simpl; now rewrite Hs].
    simpl in Hfuel. simpl length. simpl skipn.
    assert (Hrest : (if 0 <? Period h
                     then if malloc k
                          then (insert_sorted h (Period h) rest, S k)
                          else (rest, S k)
                     else (rest, k))
                    = (rest, if 0 <? Period h then S k else k)).
    { destruct Hno as [Hfail|Hone].
      - rewrite Hfail. now destruct (0 <? Period h).
      - rewrite (Hone h (or_introl eq_refl)). reflexivity. }
    rewrite Hrest. simpl. rewrite IH; simpl; [reflexivity| |lia].
    destruct Hno as [Hfail|Hone]; [now left|right].
    intros n Hn. apply Hone. now right.
Qed.

End DispatchedRecords.

(** * What a dispatch leaves in the queue *)

Lemma to_abs_pop (h : TaskNode) (rest : list TaskNode) :
  Delay h = 0 -> to_abs 0 (h :: rest) = h :: to_abs 0 rest.
Proof.
  intros Hh. simpl. rewrite Hh. simpl. f_equal.
  rewrite <- Hh. apply set_Delay_same.
Qed.

Section DispatchedQueue.

Variable malloc : nat -> bool.

(** The final queue is well formed and holds, at their old absolute
    delays, the records that were not due, and besides them only records
    that were run and rescheduled at an absolute delay equal to their
    period. *)
Lemma dispatch_abs_post_stop (s : sched) (q : list TaskNode) :
  g_TaskListHead s = q -> queue_ok q -> drained q ->
  dispatch_abs_post malloc q (mkDispatched s []).
Proof.
  intros <- Hq Hd. unfold dispatch_abs_post. simpl.
  split; [assumption|]. split; [auto|]. split.
  - intros m Hm. left. split; [assumption|].
    destruct Hq as [Hok _]. eapply drained_pending; eassumption.
  - intros _ n [].
Qed.

Lemma dispatch_loop_abs (fuel : nat) :
  forall (k : nat) (s : sched),
  queue_ok (g_TaskListHead s) ->
  (due_count (g_TaskListHead s) <= fuel)%nat ->
  dispatch_abs_post malloc (g_TaskListHead s)
    (dispatch_loop fuel malloc k s).
Proof.
  induction fuel as [|fuel IH]; intros k s Hq Hfuel.
  - simpl. apply dispatch_abs_post_stop; [reflexivity|assumption|].
    apply due_count_drained. lia.
  - simpl. destruct (g_TaskListHead s) as [|h rest] eqn:Hs.
    { now apply dispatch_abs_post_stop. }
    destruct (Z.eqb_spec (Delay h) 0) as [Hh|Hh].
    2:{ now apply dispatch_abs_post_stop. }
    rewrite (due_count_pop _ _ Hh) in Hfuel.
    pose proof (queue_ok_tail _ _ Hq) as Hrest.
    assert (HP : in_u32 (Period h)).
    { destruct Hq as [Hok _]. inversion Hok as [|? ? [_ HP] _]; now subst. }
    unfold dispatch_abs_post. rewrite (to_abs_pop _ _ Hh).
    set (q1 := if 0 <? Period h
               then if malloc k
                    then (insert_sorted h (Period h) rest, S k)
                    else (rest, S k)
               else (rest, k)).
    assert (Hq1 : queue_ok (fst q1) /\
                  (due_count (fst q1) <= fuel)%nat /\
                  (forall m, In m (to_abs 0 rest) ->
                             In m (to_abs 0 (fst q1))) /\
                  (forall m, In m (to_abs 0 (fst q1)) ->
                     In m (to_abs 0 rest) \/
                     (0 < Period h /\ m = set_Delay h (Period h))) /\
                  ((forall j, malloc j = true) -> Period h <> 0 ->
                   In (set_Delay h (Period h)) (to_abs 0 (fst q1)))).
    { unfold q1. destruct (Z.ltb_spec 0 (Period h)) as [Hpos|Hnpos];
        [destruct (malloc k) eqn:Hm|]; simpl.
      - split; [now apply insert_sorted_ok|].
        split; [rewrite due_count_insert by assumption; lia|].
        split; [intros m Hm'; apply insert_sorted_abs_In; auto|].
        split.
        + intros m Hm'. apply insert_sorted_abs_In in Hm'; [|assumption..].
          destruct Hm' as [->|Hm']; auto.
        + intros _ _. apply insert_sorted_abs_In; auto.
      - split; [assumption|]. split; [lia|]. split; [auto|].
        split; [auto|]. intros Hall. rewrite Hall in Hm. discriminate.
      - split; [assumption|]. split; [lia|]. split; [auto|].
        split; [auto|]. destruct HP. lia. }
    destruct q1 as [q' k']. simpl in Hq1.
    destruct Hq1 as (Hok1 & Hfuel1 & Hkeep1 & Hfrom1 & Hper1).
    destruct (IH k' (mkSched q' (g_CurrentTick s) (g_NextTaskID s)
                             (g_ErrorCode s)) Hok1 Hfuel1)
      as (Hok2 & Hkeep2 & Hfrom2 & Hper2).
    simpl in Hkeep2, Hfrom2. simpl.
    split; [assumption|]. split; [|split].
    + intros m [<-|Hm] Hpos; [lia|]. apply Hkeep2; auto.
    + intros m Hm. destruct (Hfrom2 m Hm) as [[Hm1 Hpos]|(n & Hn & HPn & ->)].
      * destruct (Hfrom1 m Hm1) as [Hold|[HPh ->]].
        -- left. split; [now right|assumption].
        -- right. exists h. split; [now left|]. split; [assumption|].
           reflexivity.
      * right. exists n. split; [now right|]. split; [assumption|].
        reflexivity.
    + intros Hall n [<-|Hn] Hnz.
      * apply Hkeep2; [now apply Hper1|]. simpl. destruct HP. lia.
      * now apply Hper2.
Qed.

Lemma allocs_before_cons (h : TaskNode) (ran : list TaskNode) (i : nat) :
  allocs_before (h :: ran) (S i)
  = ((if (0 <? Period h)%Z then 1 else 0) + allocs_before ran i)%nat.
Proof. unfold allocs_before. simpl. now destruct (0 <? Period h). Qed.

(** A periodic record whose own allocation succeeds is queued again at an
    absolute delay equal to its period, and stays there until the loop
    ends, whatever the other allocations of the call do. *)
Lemma dispatch_loop_requeued (fuel : nat) :
  forall (k : nat) (s : sched) (i : nat) (n : TaskNode),
  queue_ok (g_TaskListHead s) ->
  (due_count (g_TaskListHead s) <= fuel)%nat ->
  nth_error (d_ran (dispatch_loop fuel malloc k s)) i = Some n ->
  Period n <> 0 ->
  malloc (k + allocs_before (d_ran (dispatch_loop fuel malloc k s)) i)
  = true ->
  In (set_Delay n (Period n))
     (to_abs 0 (g_TaskListHead (d_state (dispatch_loop fuel malloc k s)))).
Proof.
  induction fuel as [|fuel IH]; intros k s i n Hq Hfuel.
  - simpl. destruct i; discriminate.
  - simpl. destruct (g_TaskListHead s) as [|h rest] eqn:Hs.
    { simpl. destruct i; discriminate. }
    destruct (Z.eqb_spec (Delay h) 0) as [Hh|Hh].
    2:{ simpl. destruct i; discriminate. }
    rewrite (due_count_pop _ _ Hh) in Hfuel.
    pose proof (queue_ok_tail _ _ Hq) as Hrest.
    assert (HP : in_u32 (Period h)).
    { destruct Hq as [Hok _]. inversion Hok as [|? ? [_ HP] _]; now subst. }
    set (q1 := if 0 <? Period h
               then if malloc k
                    then (insert_sorted h (Period h) rest, S k)
                    else (rest, S k)
               else (rest, k)).
    assert (Hq1 : queue_ok (fst q1) /\
                  (due_count (fst q1) <= fuel)%nat /\
                  snd q1 = (k + if (0 <? Period h)%Z then 1 else 0)%nat /\
                  (Period h <> 0 -> malloc k = true ->
                   In (set_Delay h (Period h)) (to_abs 0 (fst q1)))).
    { unfold q1. destruct (Z.ltb_spec 0 (Period h)) as [Hpos|Hnpos];
        [destruct (malloc k) eqn:Hm|]; simpl.
      - split; [now apply insert_sorted_ok|].
        split; [rewrite due_count_insert by assumption; lia|].
        split; [lia|].
        intros _ _. apply insert_sorted_abs_In; auto.
      - split; [assumption|]. split; [lia|]. split; [lia|].
        intros _ Hno. discriminate.
      - split; [assumption|]. split; [lia|]. split; [lia|].
        destruct HP. lia. }
    destruct q1 as [q' k']. simpl in Hq1.
    destruct Hq1 as (Hok1 & Hfuel1 & Hk' & Hper1).
    cbn [d_ran d_state]. destruct i as [|i].
    + simpl. intros [= <-] Hnz Hm.
      unfold allocs_before in Hm. simpl in Hm. rewrite Nat.add_0_r in Hm.
      destruct (dispatch_loop_abs fuel k'
                  (mkSched q' (g_CurrentTick s) (g_NextTaskID s)
                           (g_ErrorCode s)) Hok1 Hfuel1)
        as (_ & Hkeep & _).
      apply Hkeep; [now apply Hper1|]. simpl. destruct HP. lia.
    + rewrite allocs_before_cons. cbn [nth_error]. intros Hi Hnz Hm.
      apply (IH k' (mkSched q' (g_CurrentTick s) (g_NextTaskID s)
                            (g_ErrorCode s)) i n Hok1 Hfuel1 Hi Hnz).
      rewrite Nat.add_assoc, <- Hk' in Hm. exact Hm.
Qed.

End DispatchedQueue.

(** * The identifiers a dispatch leaves in the queue *)

Lemma insert_sorted_count (newTask : TaskNode) (DELAY : Z)
    (q : list TaskNode) (id : Z) :
  queue_ok q -> in_u32 DELAY ->
  count_occ Z.eq_dec (map TaskID (insert_sorted newTask DELAY q)) id
  = count_occ Z.eq_dec (map TaskID (newTask :: q)) id.
Proof.
  intros Hq HD. rewrite insert_sorted_shape by assumption.
  set (k := first_later 0 DELAY q).
  assert (Hsh : forall d l, map TaskID (shift_head d l) = map TaskID l)
    by (intros d [|p ps]; reflexivity).
  transitivity (count_occ Z.eq_dec
                  (map TaskID (newTask :: firstn k q ++ skipn k q)) id);
    [|now rewrite firstn_skipn].
  rewrite map_app. simpl map. rewrite Hsh, map_app.
  rewrite count_occ_app. simpl count_occ.
  destruct (Z.eq_dec (TaskID newTask) id); rewrite count_occ_app; lia.
Qed.

(** Every record of the final queue and every one-shot record that was run
    account for a record of the queue at the call: the loop creates no
    identifier and a one-shot record takes its own out of the queue. *)
Lemma dispatch_loop_count (malloc : nat -> bool) (fuel : nat) :
  forall (k : nat) (s : sched) (id : Z),
  queue_ok (g_TaskListHead s) ->
  (count_occ Z.eq_dec
     (map TaskID (g_TaskListHead (d_state (dispatch_loop fuel malloc k s))))
     id
   + count_occ Z.eq_dec
       (map TaskID (filter (fun m => (Period m =? 0)%Z)
                      (d_ran (dispatch_loop fuel malloc k s)))) id
   <= count_occ Z.eq_dec (map TaskID (g_TaskListHead s)) id)%nat.
Proof.
  induction fuel as [|fuel IH]; intros k s id Hq; [simpl; lia|].
  simpl. destruct (g_TaskListHead s) as [|h rest] eqn:Hs;
    [simpl; rewrite Hs; simpl; lia|].
  destruct (Z.eqb_spec (Delay h) 0) as [Hh|Hh];
    [|simpl; rewrite Hs; simpl; lia].
  pose proof (queue_ok_tail _ _ Hq) as Hrest.
  assert (HP : in_u32 (Period h)).
  { destruct Hq as [Hok _]. inversion Hok as [|? ? [_ HP] _]; now subst. }
  destruct (Z.ltb_spec 0 (Period h)) as [Hpos|Hnpos];
    [destruct (malloc k)|]; cbn [d_ran d_state filter].
  - destruct (Z.eqb_spec (Period h) 0); [lia|].
    etransitivity; [apply IH; simpl; now apply insert_sorted_ok|].
    cbn [g_TaskListHead]. now rewrite insert_sorted_count.
  - destruct (Z.eqb_spec (Period h) 0); [lia|].
    etransitivity; [apply IH; simpl; assumption|].
    cbn [g_TaskListHead]. simpl. destruct (Z.eq_dec (TaskID h) id); lia.
  - destruct (Z.eqb_spec (Period h) 0); [|destruct HP; lia].
    specialize (IH k (mkSched rest (g_CurrentTick s) (g_NextTaskID s)
                              (g_ErrorCode s)) id Hrest).
    cbn [g_TaskListHead] in IH. simpl.
    destruct (Z.eq_dec (TaskID h) id); lia.
Qed.


(** * What the dispatcher does with each due record *)

Lemma run_app (l1 l2 : list op) (s : sched) :
  run (l1 ++ l2) s = run l2 (run l1 s).
Proof. apply fold_left_app. Qed.

Lemma run_cons (o : op) (l : list op) (s : sched) :
  run (o :: l) s = run l (step s o).
Proof. reflexivity. Qed.

Lemma wrap32_skips_one (j : nat) :
  Z.of_nat j < UINT32_MOD - 1 -> wrap32 (2 + Z.of_nat j) <> 1.
Proof.
  intros Hj. unfold wrap32.
  destruct (Z.eq_dec (2 + Z.of_nat j) UINT32_MOD) as [He|He].
  - rewrite He, Z_mod_same_full. discriminate.
  - rewrite Z.mod_small by (unfold UINT32_MOD in *; lia). lia.
Qed.

(** Rounds of registering and deleting a task behind a due record that
    carries id 1: as long as the counter does not pass through 1 the record
    stays alone in the queue and the counter moves on. *)
Lemma churn_run_behind (n : nat) :
  forall (id tick err : Z), in_u32 id ->
  (forall j, (j < n)%nat -> wrap32 (id + Z.of_nat j) <> 1) ->
  run (churn n id) (mkSched [mkTaskNode 100 0 0 1] tick id err)
  = mkSched [mkTaskNode 100 0 0 1] tick (wrap32 (id + Z.of_nat n)) err.
Proof.
  induction n as [|n IH]; intros id tick err Hid Hfree.
  - simpl. now rewrite Z.add_0_r, wrap32_small.
  - change (run (churn (S n) id) (mkSched [mkTaskNode 100 0 0 1] tick id err))
      with (run (churn n (wrap32 (id + 1)))
              (step (step (mkSched [mkTaskNode 100 0 0 1] tick id err)
                          (OpQueue (QAdd 100 0 0 true)))
                    (OpQueue (QDelete id)))).
    assert (Hne : id <> 1).
    { specialize (Hfree O ltac:(lia)). simpl in Hfree.
      now rewrite Z.add_0_r, wrap32_small in Hfree. }
    assert (Hstep : step (step (mkSched [mkTaskNode 100 0 0 1] tick id err)
                               (OpQueue (QAdd 100 0 0 true)))
                         (OpQueue (QDelete id))
                    = mkSched [mkTaskNode 100 0 0 1] tick (wrap32 (id + 1))
                              err).
    { simpl. unfold SCH_Delete_Task. simpl.
      change (match id with
              | Z.pos q => (1 =? q)%positive
              | _ => false
              end) with (1 =? id).
      replace (1 =? id) with false by (symmetry; apply Z.eqb_neq; congruence).
      now rewrite Z.eqb_refl. }
    rewrite Hstep, IH.
    + f_equal. unfold wrap32. rewrite Zplus_mod_idemp_l. f_equal. lia.
    + apply wrap32_range.
    + intros j Hj. specialize (Hfree (S j) ltac:(lia)).
      unfold wrap32 in *. rewrite Zplus_mod_idemp_l.
      replace (id + 1 + Z.of_nat j) with (id + Z.of_nat (S j)) by lia.
      exact Hfree.
Qed.

(** C6, as stated, fails on both counts.  A periodic record whose
    allocation fails is run and not queued again: after [SCH_Init] and
    [SCH_Add_Task (f, 0, 10)] a dispatch without memory leaves the queue
    empty.  And a one-shot record that was run can share its id with a
    record that is still queued, once the id counter has gone round: after
    [SCH_Add_Task (f, 0, 0)] (id 1), 2^32 - 1 rounds of registering and
    deleting a task, and [SCH_Add_Task (g, 5, 0)] (id 1 again), a dispatch
    runs the first record and [SCH_Delete_Task 1] then succeeds, on the
    second. *)
Lemma dispatch_unconditional_fails :
  ~ periodic_always_requeued /\ ~ one_shot_always_gone.
Proof.
  split; intros Hclaim.
  - pose proof (Hclaim [OpQueue (QAdd 100 0 10 true)] (mkSched [] 0 1 0)
                  (fun _ => false)) as H.
    cbv zeta in H.
    destruct (H ltac:(repeat constructor; simpl; u32)
                (mkTaskNode 100 0 10 1) (or_introl eq_refl)
                ltac:(discriminate)) as (k & m & Hk & _).
    destruct k; discriminate.
  - pose (ops := OpQueue (QAdd 100 0 0 true)
                 :: churn (Z.to_nat (UINT32_MOD - 1)) 2
                 ++ [OpQueue (QAdd 200 5 0 true)]).
    assert (H2 : in_u32 2) by u32.
    assert (Hok : Forall op_ok ops).
    { constructor; [simpl; u32|]. apply Forall_app.
      split; [now apply churn_ok|]. repeat constructor; simpl; u32. }
    assert (Hrun : run ops (SCH_Init (mkSched [] 0 1 0))
                   = mkSched [mkTaskNode 100 0 0 1; mkTaskNode 200 5 0 1]
                             0 2 0).
    { assert (H1 : step (SCH_Init (mkSched [] 0 1 0))
                        (OpQueue (QAdd 100 0 0 true))
                   = mkSched [mkTaskNode 100 0 0 1] 0 2 0) by reflexivity.
      assert (Hfree : forall j, (j < Z.to_nat (UINT32_MOD - 1))%nat ->
                                wrap32 (2 + Z.of_nat j) <> 1).
      { intros j Hj. apply wrap32_skips_one.
        apply Nat2Z.inj_lt in Hj.
        rewrite Z2Nat.id in Hj by (unfold UINT32_MOD; lia). exact Hj. }
      pose proof (churn_run_behind (Z.to_nat (UINT32_MOD - 1)) 2 0 0 H2
                    Hfree) as Hc.
      rewrite Z2Nat.id in Hc by (unfold UINT32_MOD; lia).
      unfold ops. rewrite run_cons, run_app, H1.
      transitivity (run [OpQueue (QAdd 200 5 0 true)]
                        (mkSched [mkTaskNode 100 0 0 1] 0 1 0));
        [|reflexivity].
      apply (f_equal (run [OpQueue (QAdd 200 5 0 true)])).
      exact Hc. }
    pose proof (Hclaim ops (mkSched [] 0 1 0) (fun _ => true) Hok
                  (fun _ => eq_refl)) as H.
    cbv zeta in H. rewrite Hrun in H.
    specialize (H (mkTaskNode 100 0 0 1) (or_introl eq_refl) eq_refl).
    vm_compute in H. discriminate.
Qed.

(** C6, amended.  On a well-formed queue [SCH_Dispatch_Tasks] runs exactly
    the records that are due at the call (those at the head with relative
    delay 0), in queue order, and stops with a head that is not due.  A
    record it ran whose period is nonzero, and for which the allocation of
    the new node succeeds, is back in the queue with the same id, callback
    and period at an absolute delay equal to its period, whatever the other
    allocations of the call do.  A record it ran whose period is zero is
    gone; when its id was carried by no other queued record, no queued
    record carries that id and a following [SCH_Delete_Task] with it
    returns 0. *)
Theorem SCH_Dispatch_Tasks_postcondition (malloc : nat -> bool) (s : sched) :
  queue_ok (g_TaskListHead s) ->
  let q := g_TaskListHead s in
  let r := SCH_Dispatch_Tasks malloc s in
  let q' := g_TaskListHead (d_state r) in
  d_ran r = due_prefix q /\
  drained q' /\
  forall i n, nth_error (d_ran r) i = Some n ->
    Delay n = 0 /\
    (Period n <> 0 -> malloc (allocs_before (d_ran r) i) = true ->
     exists k m, nth_error q' k = Some m /\
       TaskID m = TaskID n /\ pTask m = pTask n /\ Period m = Period n /\
       cumulative_delay q' k = Period n) /\
    (Period n = 0 ->
     count_occ Z.eq_dec (map TaskID q) (TaskID n) = 1%nat ->
     ~ In (TaskID n) (map TaskID q') /\
     snd (SCH_Delete_Task (TaskID n) (d_state r)) = 0).
Proof.
  intros Hq. cbv zeta. unfold SCH_Dispatch_Tasks.
  pose proof (due_count_le_length (g_TaskListHead s)) as Hfuel.
  split; [now apply dispatch_loop_ran|].
  split; [now apply dispatch_loop_done|].
  intros i n Hi. split; [|split].
  - apply nth_error_In in Hi.
    rewrite dispatch_loop_ran in Hi by assumption.
    now apply due_prefix_In in Hi.
  - intros Hnz Hm.
    pose proof (dispatch_loop_requeued malloc _ 0 s i n Hq Hfuel Hi Hnz Hm)
      as Hback.
    destruct (to_abs_In _ _ _ Hback) as (k & m & Hk & Hm').
    exists k, m. split; [exact Hk|].
    apply (f_equal TaskID) in Hm' as Hid.
    apply (f_equal pTask) in Hm' as Hfn.
    apply (f_equal Period) in Hm' as Hpd.
    apply (f_equal Delay) in Hm' as Hdl.
    simpl in Hid, Hfn, Hpd, Hdl. repeat split; auto.
  - intros Hz Hone.
    assert (Habsent : ~ In (TaskID n)
                        (map TaskID
                           (g_TaskListHead
                              (d_state (dispatch_loop
                                          (length (g_TaskListHead s))
                                          malloc 0 s))))).
    { pose proof (dispatch_loop_count malloc (length (g_TaskListHead s)) 0 s
                    (TaskID n) Hq) as Hcount.
      rewrite Hone in Hcount.
      assert (Hran : In (TaskID n)
                        (map TaskID
                           (filter (fun m => Period m =? 0)
                              (d_ran (dispatch_loop
                                        (length (g_TaskListHead s))
                                        malloc 0 s))))).
      { apply in_map, filter_In. split; [eapply nth_error_In; eassumption|].
        now apply Z.eqb_eq. }
      apply (count_occ_In Z.eq_dec) in Hran.
      apply (count_occ_not_In Z.eq_dec). lia. }
    split; [exact Habsent|].
    now rewrite (SCH_Delete_Task_absent _ _ Habsent).
Qed.

Lemma SCH_Dispatch_Tasks_postcondition_witness :
  let s := mkSched [mkTaskNode 100 0 0 1; mkTaskNode 200 0 10 2;
                    mkTaskNode 300 0 20 3; mkTaskNode 400 4 0 4] 7 5 0 in
  let malloc := fun k : nat => Nat.eqb k 1 in
  let r := SCH_Dispatch_Tasks malloc s in
  let q' := g_TaskListHead (d_state r) in
  queue_ok (g_TaskListHead s) /\
  d_ran r = [mkTaskNode 100 0 0 1; mkTaskNode 200 0 10 2;
             mkTaskNode 300 0 20 3] /\
  q' = [mkTaskNode 400 4 0 4; mkTaskNode 300 16 20 3] /\
  (exists k m, nth_error q' k = Some m /\
     TaskID m = 3 /\ pTask m = 300 /\ Period m = 20 /\
     cumulative_delay q' k = 20) /\
  snd (SCH_Delete_Task 1 (d_state r)) = 0.
Proof.
  intros s malloc r q'.
  assert (Hq : queue_ok (g_TaskListHead s)).
  { split; [repeat constructor; simpl; u32|reflexivity]. }
  pose proof (SCH_Dispatch_Tasks_postcondition malloc s Hq) as Hpost.
  cbv zeta in Hpost. destruct Hpost as (Hran & _ & Hrec).
  split; [exact Hq|]. split; [exact Hran|]. split; [reflexivity|]. split.
  - apply (proj1 (proj2 (Hrec 2%nat (mkTaskNode 300 0 20 3) eq_refl)));
      [discriminate|reflexivity].
  - exact (proj2 (proj2 (proj2 (Hrec 0%nat (mkTaskNode 100 0 0 1) eq_refl))
                    eq_refl eq_refl)).
Defined.

(** X1.  [SCH_Dispatch_Tasks] runs exactly the records that were due when
    it was called (the records at the head with relative delay 0), each
    once and in queue order, whatever the allocations do; when it returns
    no due record is left at the head. *)
Theorem SCH_Dispatch_Tasks_runs_due_prefix (malloc : nat -> bool)
    (s : sched) :
  queue_ok (g_TaskListHead s) ->
  d_ran (SCH_Dispatch_Tasks malloc s) = due_prefix (g_TaskListHead s) /\
  drained (g_TaskListHead (d_state (SCH_Dispatch_Tasks malloc s))).
Proof.
  intros Hq. unfold SCH_Dispatch_Tasks. split.
  - apply dispatch_loop_ran; [assumption|apply due_count_le_length].
  - apply dispatch_loop_done; [assumption|apply due_count_le_length].
Qed.

Lemma SCH_Dispatch_Tasks_runs_due_prefix_witness :
  let s := mkSched [mkTaskNode 100 0 0 1; mkTaskNode 200 0 10 2;
                    mkTaskNode 300 4 0 3] 7 4 0 in
  queue_ok (g_TaskListHead s) /\
  d_ran (SCH_Dispatch_Tasks (fun _ => false) s)
  = [mkTaskNode 100 0 0 1; mkTaskNode 200 0 10 2].
Proof.
  intros s.
  assert (Hq : queue_ok (g_TaskListHead s)).
  { split; [repeat constructor; simpl; u32|reflexivity]. }
  split; [exact Hq|].
  exact (proj1 (SCH_Dispatch_Tasks_runs_due_prefix (fun _ => false) s Hq)).
Defined.

(** X2.  [SCH_Dispatch_Tasks] changes neither the tick counter nor the id
    counter, keeps the queue well formed, and keeps every record that was
    not due at its absolute delay.  Whatever else the final queue holds is
    a record that was run in this call and rescheduled at an absolute delay
    equal to its (nonzero) period. *)
Theorem SCH_Dispatch_Tasks_keeps_pending (malloc : nat -> bool)
    (s : sched) :
  queue_ok (g_TaskListHead s) ->
  g_CurrentTick (d_state (SCH_Dispatch_Tasks malloc s)) = g_CurrentTick s /\
  g_NextTaskID (d_state (SCH_Dispatch_Tasks malloc s)) = g_NextTaskID s /\
  queue_ok (g_TaskListHead (d_state (SCH_Dispatch_Tasks malloc s))) /\
  (forall m, In m (to_abs 0 (g_TaskListHead s)) -> 0 < Delay m ->
     In m (to_abs 0 (g_TaskListHead (d_state (SCH_Dispatch_Tasks malloc s)))))
  /\
  (forall m,
     In m (to_abs 0 (g_TaskListHead (d_state (SCH_Dispatch_Tasks malloc s))))
     ->
     (In m (to_abs 0 (g_TaskListHead s)) /\ 0 < Delay m) \/
     (exists n, In n (d_ran (SCH_Dispatch_Tasks malloc s)) /\
                0 < Period n /\ m = set_Delay n (Period n))).
Proof.
  intros Hq. unfold SCH_Dispatch_Tasks.
  destruct (dispatch_loop_fields malloc (length (g_TaskListHead s)) 0 s)
    as (Ht & Hn & _).
  destruct (dispatch_loop_abs malloc (length (g_TaskListHead s)) 0 s Hq
              (due_count_le_length _)) as (Hok & Hkeep & Hfrom & _).
  auto.
Qed.

Lemma SCH_Dispatch_Tasks_keeps_pending_witness :
  let s := mkSched [mkTaskNode 100 0 0 1; mkTaskNode 200 0 3 2;
                    mkTaskNode 300 4 0 3] 7 4 0 in
  queue_ok (g_TaskListHead s) /\
  g_NextTaskID (d_state (SCH_Dispatch_Tasks (fun _ => true) s)) = 4 /\
  g_TaskListHead (d_state (SCH_Dispatch_Tasks (fun _ => true) s))
  = [mkTaskNode 200 3 3 2; mkTaskNode 300 1 0 3].
Proof.
  intros s.
  assert (Hq : queue_ok (g_TaskListHead s)).
  { split; [repeat constructor; simpl; u32|reflexivity]. }
  split; [exact Hq|]. split; [|reflexivity].
  exact (proj1 (proj2
           (SCH_Dispatch_Tasks_keeps_pending (fun _ => true) s Hq))).
Defined.

(** X3.  When no due record is rescheduled, because every due record is
    one-shot or because every allocation fails, [SCH_Dispatch_Tasks] only
    unlinks the due records: the rest of the queue is left exactly as it
    was, relative delays included. *)
Theorem SCH_Dispatch_Tasks_only_unlinks (malloc : nat -> bool) (s : sched) :
  (forall j, malloc j = false) \/
  (forall n, In n (due_prefix (g_TaskListHead s)) -> Period n = 0) ->
  g_TaskListHead (d_state (SCH_Dispatch_Tasks malloc s))
  = skipn (length (due_prefix (g_TaskListHead s))) (g_TaskListHead s).
Proof.
  intros Hno. unfold SCH_Dispatch_Tasks.
  apply dispatch_loop_drop; [assumption|apply due_prefix_length].
Qed.

Lemma SCH_Dispatch_Tasks_only_unlinks_witness :
  let s := mkSched [mkTaskNode 100 0 0 1; mkTaskNode 200 0 10 2;
                    mkTaskNode 300 4 0 3] 7 4 0 in
  ((forall j : nat, (fun _ : nat => false) j = false) \/
   (forall n, In n (due_prefix (g_TaskListHead s)) -> Period n = 0)) /\
  g_TaskListHead (d_state (SCH_Dispatch_Tasks (fun _ => false) s))
  = [mkTaskNode 300 4 0 3].
Proof.
  intros s.
  assert (Hno : (forall j : nat, (fun _ : nat => false) j = false) \/
                (forall n, In n (due_prefix (g_TaskListHead s)) ->
                           Period n = 0)) by (left; reflexivity).
  split; [exact Hno|].
  exact (SCH_Dispatch_Tasks_only_unlinks (fun _ => false) s Hno).
Defined.

(** X4.  A task registered with delay 0 is run by the next call of
    [SCH_Dispatch_Tasks], after the records that were already due and
    before anything else. *)
Theorem SCH_Add_Task_now_runs_next (malloc : nat -> bool) (s : sched)
    (pFunction PERIOD : Z) :
  queue_ok (g_TaskListHead s) -> in_u32 PERIOD -> pFunction <> NULL ->
  d_ran (SCH_Dispatch_Tasks malloc
           (fst (SCH_Add_Task pFunction 0 PERIOD true s)))
  = due_prefix (g_TaskListHead s)
    ++ [mkTaskNode pFunction 0 PERIOD (g_NextTaskID s)].
Proof.
  intros Hq HP Hfun.
  assert (H0 : in_u32 0) by u32.
  assert (Hq' : queue_ok (g_TaskListHead
                            (fst (SCH_Add_Task pFunction 0 PERIOD true s)))).
  { unfold SCH_Add_Task. destruct (Z.eqb_spec pFunction NULL);
      [contradiction|]. simpl. now apply insert_sorted_ok. }
  unfold SCH_Dispatch_Tasks.
  rewrite dispatch_loop_ran by (try assumption; apply due_count_le_length).
  unfold SCH_Add_Task. destruct (Z.eqb_spec pFunction NULL);
    [contradiction|]. simpl.
  now rewrite due_prefix_insert_now.
Qed.

Lemma SCH_Add_Task_now_runs_next_witness :
  let s := mkSched [mkTaskNode 100 0 0 1; mkTaskNode 300 4 0 3] 7 4 0 in
  queue_ok (g_TaskListHead s) /\ in_u32 10 /\ 200 <> NULL /\
  d_ran (SCH_Dispatch_Tasks (fun _ => true)
           (fst (SCH_Add_Task 200 0 10 true s)))
  = [mkTaskNode 100 0 0 1; mkTaskNode 200 0 10 4].
Proof.
  intros s.
  assert (Hq : queue_ok (g_TaskListHead s)).
  { split; [repeat constructor; simpl; u32|reflexivity]. }
  assert (HP : in_u32 10) by u32.
  assert (Hf : 200 <> NULL) by discriminate.
  split; [exact Hq|]. split; [exact HP|]. split; [exact Hf|].
  exact (SCH_Add_Task_now_runs_next (fun _ => true) s 200 10 Hq HP Hf).
Defined.

(** * Delays never wrap *)

Lemma step_queue_ok (s : sched) (o : op) :
  queue_ok (g_TaskListHead s) -> op_ok o ->
  queue_ok (g_TaskListHead (step s o)).
Proof.
  intros Hq Hok. destruct o as [[pf D P ok|taskID|]|malloc|]; simpl.
  - destruct Hok as (_ & HD & HP). unfold SCH_Add_Task.
    destruct (pf =? NULL); [assumption|].
    destruct ok; simpl; [|assumption]. now apply insert_sorted_ok.
  - unfold SCH_Delete_Task.
    destruct (g_TaskListHead s) as [|h rest] eqn:Hs; [assumption|].
    destruct (delete_node taskID (h :: rest)) as [q'|] eqn:Hd; simpl;
      [|assumption].
    eapply delete_node_ok; eassumption.
  - now apply SCH_Update_ok.
  - unfold SCH_Dispatch_Tasks.
    apply (dispatch_loop_abs malloc (length (g_TaskListHead s)) 0 s Hq
             (due_count_le_length _)).
  - assumption.
Qed.

(** X5.  In every state reached from [SCH_Init] by any number of
    operations with in-range arguments, whatever allocations fail, no
    relative delay has wrapped: every relative delay is non-negative, every
    period is in range, and the sum of all relative delays (the largest
    absolute delay) is below 2^32.  In particular the subtractions and
    additions on [Delay] in [SCH_Add_Task], [SCH_Delete_Task], [SCH_Update]
    and [SCH_Dispatch_Tasks] never underflow or overflow. *)
Theorem reachable_queue_ok (ops : list op) (s0 : sched) :
  Forall op_ok ops -> queue_ok (g_TaskListHead (run ops (SCH_Init s0))).
Proof.
  intros Hops.
  assert (Hgen : forall s, queue_ok (g_TaskListHead s) ->
                           queue_ok (g_TaskListHead (run ops s))).
  { induction Hops as [|o ops Ho _ IH]; intros s Hq; [exact Hq|].
    change (run (o :: ops) s) with (run ops (step s o)).
    apply IH. now apply step_queue_ok. }
  apply Hgen. split; [constructor|reflexivity].
Qed.

Lemma reachable_queue_ok_witness :
  let ops := [OpQueue (QAdd 100 7 0 true); OpQueue (QAdd 200 3 5 true);
              OpQueue QTick; OpQueue (QDelete 2);
              OpDispatch (fun _ => false)] in
  Forall op_ok ops /\
  queue_ok (g_TaskListHead (run ops (SCH_Init (mkSched [] 0 0 0)))).
Proof.
  intros ops.
  assert (Hops : Forall op_ok ops) by (repeat constructor; simpl; u32).
  split; [exact Hops|].
  exact (reachable_queue_ok ops (mkSched [] 0 0 0) Hops).
Defined.

(** * Successful registration and removal *)

(** X6.  A successful [SCH_Add_Task] returns the value of the id counter,
    leaves the error slot and the tick counter alone, makes the queue one
    record longer, gives the new record an absolute delay of [DELAY] and
    leaves every queued record at the absolute delay it had. *)
Theorem SCH_Add_Task_success (s : sched) (pFunction DELAY PERIOD : Z) :
  queue_ok (g_TaskListHead s) -> in_u32 DELAY -> pFunction <> NULL ->
  snd (SCH_Add_Task pFunction DELAY PERIOD true s) = g_NextTaskID s /\
  g_ErrorCode (fst (SCH_Add_Task pFunction DELAY PERIOD true s))
  = g_ErrorCode s /\
  g_CurrentTick (fst (SCH_Add_Task pFunction DELAY PERIOD true s))
  = g_CurrentTick s /\
  length (g_TaskListHead (fst (SCH_Add_Task pFunction DELAY PERIOD true s)))
  = S (length (g_TaskListHead s)) /\
  (forall m,
     In m (to_abs 0 (g_TaskListHead
                       (fst (SCH_Add_Task pFunction DELAY PERIOD true s))))
     <-> m = mkTaskNode pFunction DELAY PERIOD (g_NextTaskID s) \/
         In m (to_abs 0 (g_TaskListHead s))).
Proof.
  intros Hq HD Hfun. unfold SCH_Add_Task.
  destruct (Z.eqb_spec pFunction NULL); [contradiction|]. simpl.
  split; [reflexivity|]. split; [reflexivity|]. split; [reflexivity|].
  split.
  - rewrite insert_sorted_shape by assumption.
    set (k := first_later 0 DELAY (g_TaskListHead s)).
    pose proof (f_equal (@length TaskNode)
                  (firstn_skipn k (g_TaskListHead s))) as Hlen.
    rewrite length_app in *. simpl.
    destruct (skipn k (g_TaskListHead s)); simpl in *; lia.
  - intros m. now apply insert_sorted_abs_In.
Qed.

Lemma SCH_Add_Task_success_witness :
  let s := mkSched [mkTaskNode 100 3 0 1; mkTaskNode 300 9 0 3] 7 4 0 in
  queue_ok (g_TaskListHead s) /\ in_u32 10 /\ 200 <> NULL /\
  snd (SCH_Add_Task 200 10 0 true s) = 4 /\
  g_TaskListHead (fst (SCH_Add_Task 200 10 0 true s))
  = [mkTaskNode 100 3 0 1; mkTaskNode 200 7 0 4; mkTaskNode 300 2 0 3].
Proof.
  intros s.
  assert (Hq : queue_ok (g_TaskListHead s)).
  { split; [repeat constructor; simpl; u32|reflexivity]. }
  assert (HD : in_u32 10) by u32.
  assert (Hf : 200 <> NULL) by discriminate.
  split; [exact Hq|]. split; [exact HD|]. split; [exact Hf|].
  split; [|reflexivity].
  exact (proj1 (SCH_Add_Task_success s 200 10 0 Hq HD Hf)).
Defined.

Lemma SCH_Delete_Task_present (taskID : Z) (s : sched)
    (q' : list TaskNode) :
  delete_node taskID (g_TaskListHead s) = Some q' ->
  SCH_Delete_Task taskID s
  = (mkSched q' (g_CurrentTick s) (g_NextTaskID s) (g_ErrorCode s), 1).
Proof.
  intros Hd. unfold SCH_Delete_Task.
  destruct (g_TaskListHead s) as [|h rest] eqn:Hs; [discriminate|].
  now rewrite Hd.
Qed.

Lemma delete_node_found (taskID : Z) (q : list TaskNode) :
  In taskID (map TaskID q) -> exists q', delete_node taskID q = Some q'.
Proof.
  intros Hin. destruct (delete_node taskID q) as [q'|] eqn:Hd; [eauto|].
  apply delete_node_None in Hd. contradiction.
Qed.

(** X7.  [SCH_Delete_Task] with an id that some queued record carries
    returns 1 and leaves the error slot, the tick counter and the id
    counter alone.  It removes the first record with that id and no other;
    the records that stay keep their order and their absolute delays. *)
Theorem SCH_Delete_Task_success (taskID : Z) (s : sched) :
  queue_ok (g_TaskListHead s) ->
  In taskID (map TaskID (g_TaskListHead s)) ->
  snd (SCH_Delete_Task taskID s) = 1 /\
  g_ErrorCode (fst (SCH_Delete_Task taskID s)) = g_ErrorCode s /\
  g_CurrentTick (fst (SCH_Delete_Task taskID s)) = g_CurrentTick s /\
  g_NextTaskID (fst (SCH_Delete_Task taskID s)) = g_NextTaskID s /\
  exists before c after,
    to_abs 0 (g_TaskListHead s) = before ++ c :: after /\
    TaskID c = taskID /\ ~ In taskID (map TaskID before) /\
    to_abs 0 (g_TaskListHead (fst (SCH_Delete_Task taskID s)))
    = before ++ after.
Proof.
  intros Hq Hin. destruct (delete_node_found _ _ Hin) as [q' Hd].
  rewrite (SCH_Delete_Task_present _ _ _ Hd). simpl.
  repeat (split; [reflexivity|]).
  destruct (delete_node_shape _ _ _ Hq Hd)
    as (pre & c & post & Hsplit & Hid & Hpre & ->).
  rewrite Hsplit.
  exists (to_abs 0 pre), (set_Delay c (sum_delays pre + Delay c)),
         (to_abs (sum_delays pre + Delay c) post).
  rewrite !to_abs_app, to_abs_shift_head, to_abs_ids. simpl.
  repeat split; assumption.
Qed.

Lemma SCH_Delete_Task_success_witness :
  let s := mkSched [mkTaskNode 100 3 0 1; mkTaskNode 200 4 0 2;
                    mkTaskNode 300 5 0 3] 7 4 0 in
  queue_ok (g_TaskListHead s) /\
  In 2 (map TaskID (g_TaskListHead s)) /\
  snd (SCH_Delete_Task 2 s) = 1 /\
  g_TaskListHead (fst (SCH_Delete_Task 2 s))
  = [mkTaskNode 100 3 0 1; mkTaskNode 300 9 0 3].
Proof.
  intros s.
  assert (Hq : queue_ok (g_TaskListHead s)).
  { split; [repeat constructor; simpl; u32|reflexivity]. }
  assert (Hin : In 2 (map TaskID (g_TaskListHead s)))
    by (simpl; auto).
  split; [exact Hq|]. split; [exact Hin|]. split; [|reflexivity].
  exact (proj1 (SCH_Delete_Task_success 2 s Hq Hin)).
Defined.

Lemma delete_node_app (taskID : Z) (pre : list TaskNode) (c : TaskNode)
    (post : list TaskNode) :
  ~ In taskID (map TaskID pre) -> TaskID c = taskID ->
  delete_node taskID (pre ++ c :: post)
  = Some (pre ++ match post with
                 | nxt :: rest =>
                     set_Delay nxt (wrap32 (Delay nxt + Delay c)) :: rest
                 | [] => []
                 end).
Proof.
  intros Hpre Hc. induction pre as [|p pre IH]; simpl.
  - rewrite Hc, Z.eqb_refl. now destruct post.
  - simpl in Hpre. destruct (Z.eqb_spec (TaskID p) taskID); [tauto|].
    rewrite IH by tauto. reflexivity.
Qed.

(** X8.  Registering a task and deleting it again with the id that was
    returned gives back the queue as it was, record for record and delay
    for delay; only the id counter has moved on.  This holds whenever the
    value of the id counter is not the id of a queued record. *)
Theorem SCH_Add_Delete_round_trip (s : sched) (pFunction DELAY PERIOD : Z) :
  queue_ok (g_TaskListHead s) -> in_u32 DELAY -> pFunction <> NULL ->
  ~ In (g_NextTaskID s) (map TaskID (g_TaskListHead s)) ->
  let added := SCH_Add_Task pFunction DELAY PERIOD true s in
  SCH_Delete_Task (snd added) (fst added)
  = (mkSched (g_TaskListHead s) (g_CurrentTick s)
             (wrap32 (g_NextTaskID s + 1)) (g_ErrorCode s), 1).
Proof.
  intros Hq HD Hfun Hfresh. cbv zeta. unfold SCH_Add_Task.
  destruct (Z.eqb_spec pFunction NULL); [contradiction|]. simpl.
  match goal with
  | |- SCH_Delete_Task _ ?s1 = _ =>
      rewrite (SCH_Delete_Task_present (g_NextTaskID s) s1
                 (g_TaskListHead s)); [reflexivity|]
  end.
  simpl. rewrite insert_sorted_shape by assumption.
  set (k := first_later 0 DELAY (g_TaskListHead s)).
  set (d := DELAY - sum_delays (firstn k (g_TaskListHead s))).
  assert (Hpre' : ~ In (g_NextTaskID s)
                     (map TaskID (firstn k (g_TaskListHead s)))).
  { intros Hin. apply Hfresh.
    rewrite <- (firstn_skipn k (g_TaskListHead s)), map_app.
    apply in_or_app. now left. }
  rewrite delete_node_app by (try assumption; reflexivity).
  f_equal.
  transitivity (firstn k (g_TaskListHead s) ++ skipn k (g_TaskListHead s));
    [|apply firstn_skipn].
  f_equal.
  destruct Hq as [Hok Hsum].
  pose proof (Forall_node_ok_skipn k _ Hok) as Hpost.
  pose proof (Forall_node_ok_firstn k _ Hok) as Hpre.
  pose proof (sum_delays_nonneg _ Hpre).
  pose proof (sum_delays_split k (g_TaskListHead s)) as Hsplit.
  destruct (skipn k (g_TaskListHead s)) as [|p ps]; [reflexivity|].
  inversion Hpost as [|? ? [Hp _] Hps]; subst.
  pose proof (sum_delays_nonneg _ Hps). simpl in Hsplit.
  simpl. f_equal. unfold set_Delay. simpl.
  replace (Delay p + - d + d) with (Delay p) by lia.
  rewrite wrap32_small by u32. now destruct p.
Qed.

Lemma SCH_Add_Delete_round_trip_witness :
  let s := mkSched [mkTaskNode 100 3 0 1; mkTaskNode 300 9 0 3] 7 4 0 in
  queue_ok (g_TaskListHead s) /\ in_u32 10 /\ 200 <> NULL /\
  ~ In (g_NextTaskID s) (map TaskID (g_TaskListHead s)) /\
  g_TaskListHead
    (fst (SCH_Delete_Task 4 (fst (SCH_Add_Task 200 10 0 true s))))
  = [mkTaskNode 100 3 0 1; mkTaskNode 300 9 0 3].
Proof.
  intros s.
  assert (Hq : queue_ok (g_TaskListHead s)).
  { split; [repeat constructor; simpl; u32|reflexivity]. }
  assert (HD : in_u32 10) by u32.
  assert (Hf : 200 <> NULL) by discriminate.
  assert (Hfresh : ~ In (g_NextTaskID s) (map TaskID (g_TaskListHead s)))
    by (simpl; intuition discriminate).
  split; [exact Hq|]. split; [exact HD|]. split; [exact Hf|].
  split; [exact Hfresh|].
  exact (f_equal (fun r => g_TaskListHead (fst r))
           (SCH_Add_Delete_round_trip s 200 10 0 Hq HD Hf Hfresh)).
Defined.

(** X9.  When the queued ids are distinct, a successful [SCH_Delete_Task]
    removes the id from the queue: a second call with the same id returns 0
    and leaves the queue as the first call left it. *)
Theorem SCH_Delete_Task_twice (taskID : Z) (s : sched) :
  queue_ok (g_TaskListHead s) ->
  NoDup (map TaskID (g_TaskListHead s)) ->
  In taskID (map TaskID (g_TaskListHead s)) ->
  let s1 := fst (SCH_Delete_Task taskID s) in
  ~ In taskID (map TaskID (g_TaskListHead s1)) /\
  snd (SCH_Delete_Task taskID s1) = 0 /\
  g_TaskListHead (fst (SCH_Delete_Task taskID s1)) = g_TaskListHead s1.
Proof.
  intros Hq Hnd Hin. cbv zeta.
  destruct (delete_node_found _ _ Hin) as [q' Hd].
  rewrite (SCH_Delete_Task_present _ _ _ Hd). simpl.
  assert (Hgone : ~ In taskID (map TaskID q')).
  { destruct (delete_node_shape _ _ _ Hq Hd)
      as (pre & c & post & Hsplit & Hid & Hpre & ->).
    rewrite Hsplit, map_app in Hnd. simpl in Hnd.
    apply NoDup_remove_2 in Hnd. rewrite Hid in Hnd.
    assert (Hsh : forall d l, map TaskID (shift_head d l) = map TaskID l)
      by (intros d [|p ps]; reflexivity).
    now rewrite map_app, Hsh. }
  split; [assumption|].
  rewrite SCH_Delete_Task_absent by (simpl; assumption). simpl. auto.
Qed.

Lemma SCH_Delete_Task_twice_witness :
  let s := mkSched [mkTaskNode 100 3 0 1; mkTaskNode 200 4 0 2] 7 3 0 in
  queue_ok (g_TaskListHead s) /\
  NoDup (map TaskID (g_TaskListHead s)) /\
  In 2 (map TaskID (g_TaskListHead s)) /\
  snd (SCH_Delete_Task 2 (fst (SCH_Delete_Task 2 s))) = 0.
Proof.
  intros s.
  assert (Hq : queue_ok (g_TaskListHead s)).
  { split; [repeat constructor; simpl; u32|reflexivity]. }
  assert (Hnd : NoDup (map TaskID (g_TaskListHead s))).
  { simpl. repeat constructor; simpl; intuition discriminate. }
  assert (Hin : In 2 (map TaskID (g_TaskListHead s))) by (simpl; auto).
  split; [exact Hq|]. split; [exact Hnd|]. split; [exact Hin|].
  exact (proj1 (proj2 (SCH_Delete_Task_twice 2 s Hq Hnd Hin))).
Defined.

(** * Time *)

Lemma SCH_Update_head (s : sched) :
  queue_ok (g_TaskListHead s) ->
  g_TaskListHead (SCH_Update s)
  = match g_TaskListHead s with
    | [] => []
    | h :: rest => set_Delay h (Z.max 0 (Delay h - 1)) :: rest
    end.
Proof.
  intros [Hok Hsum]. unfold SCH_Update.
  destruct (g_TaskListHead s) as [|h rest]; [reflexivity|].
  inversion Hok as [|? ? [Hh _] Hok']; subst. simpl in Hsum.
  pose proof (sum_delays_nonneg _ Hok').
  destruct (Z.ltb_spec 0 (Delay h)); simpl.
  - rewrite wrap32_small by u32. do 2 f_equal. lia.
  - f_equal. replace (Z.max 0 (Delay h - 1)) with (Delay h) by lia.
    symmetry. apply set_Delay_same.
Qed.

(** X10.  [n] calls of [SCH_Update] in a row, with no dispatch in between,
    advance the tick counter by [n] modulo 2^32 and bring the relative
    delay of the head record down to [max 0 (Delay - n)]: the head stops at
    zero and the records behind it are not touched, however many ticks
    pass.  The id counter and the error slot are unchanged. *)
Theorem ticks_only_age_the_head (n : nat) (s : sched) :
  queue_ok (g_TaskListHead s) -> in_u32 (g_CurrentTick s) ->
  g_CurrentTick (ticks n s) = wrap32 (g_CurrentTick s + Z.of_nat n) /\
  g_NextTaskID (ticks n s) = g_NextTaskID s /\
  g_ErrorCode (ticks n s) = g_ErrorCode s /\
  g_TaskListHead (ticks n s)
  = match g_TaskListHead s with
    | [] => []
    | h :: rest => set_Delay h (Z.max 0 (Delay h - Z.of_nat n)) :: rest
    end.
Proof.
  revert s. induction n as [|n IH]; intros s Hq Ht.
  - simpl ticks. rewrite Z.add_0_r, wrap32_small by assumption.
    repeat (split; [reflexivity|]).
    destruct (g_TaskListHead s) as [|h rest] eqn:Hs; [reflexivity|].
    destruct Hq as [Hok _]. inversion Hok as [|? ? [Hh _] _]; subst.
    f_equal. replace (Z.max 0 (Delay h - Z.of_nat 0)) with (Delay h) by lia.
    symmetry. apply set_Delay_same.
  - simpl ticks.
    destruct (SCH_Update_fields s) as (Hn & He & Htick).
    destruct (IH (SCH_Update s) (SCH_Update_ok s Hq))
      as (IHt & IHn & IHe & IHq).
    { rewrite Htick. apply wrap32_range. }
    rewrite IHt, IHn, IHe, IHq, Hn, He, Htick.
    split; [|split; [reflexivity|split; [reflexivity|]]].
    + unfold wrap32. rewrite Zplus_mod_idemp_l. f_equal. lia.
    + rewrite (SCH_Update_head s Hq).
      destruct (g_TaskListHead s) as [|h rest]; [reflexivity|].
      destruct Hq as [Hok _]. inversion Hok as [|? ? [Hh _] _]; subst.
      unfold set_Delay. simpl. do 2 f_equal. lia.
Qed.

Lemma ticks_only_age_the_head_witness :
  let s := mkSched [mkTaskNode 100 3 0 1; mkTaskNode 200 4 0 2] 7 3 0 in
  queue_ok (g_TaskListHead s) /\ in_u32 (g_CurrentTick s) /\
  g_CurrentTick (ticks 5 s) = 12 /\
  g_TaskListHead (ticks 5 s) = [mkTaskNode 100 0 0 1; mkTaskNode 200 4 0 2].
Proof.
  intros s.
  assert (Hq : queue_ok (g_TaskListHead s)).
  { split; [repeat constructor; simpl; u32|reflexivity]. }
  assert (Ht : in_u32 (g_CurrentTick s)) by (simpl; u32).
  split; [exact Hq|]. split; [exact Ht|]. split.
  - exact (proj1 (ticks_only_age_the_head 5 s Hq Ht)).
  - exact (proj2 (proj2 (proj2 (ticks_only_age_the_head 5 s Hq Ht)))).
Defined.

(** X11.  [SCH_Get_Current_Time] advances by 10 for every call of
    [SCH_Update], modulo 2^32: after [n] ticks it reads the time before
    them plus [10 * n], reduced modulo 2^32.  (The product by 10 is taken
    in 32 bits, so the reading wraps ten times as often as the tick
    counter.) *)
Theorem SCH_Get_Current_Time_after_ticks (n : nat) (s : sched) :
  SCH_Get_Current_Time (ticks n s)
  = wrap32 (SCH_Get_Current_Time s + 10 * Z.of_nat n).
Proof.
  revert s. induction n as [|n IH]; intros s.
  - simpl ticks. unfold SCH_Get_Current_Time, wrap32.
    rewrite Z.mul_0_r, Z.add_0_r. now rewrite Zmod_mod.
  - simpl ticks. rewrite IH. unfold SCH_Get_Current_Time.
    destruct (SCH_Update_fields s) as (_ & _ & ->).
    unfold wrap32. rewrite Zmult_mod_idemp_l, !Zplus_mod_idemp_l.
    f_equal. lia.
Qed.

(** * The error slot between failures *)

Lemma step_keeps_error (s : sched) (o : op) :
  op_succeeds s o = true -> g_ErrorCode (step s o) = g_ErrorCode s.
Proof.
  destruct o as [[pf D P ok|taskID|]|malloc|]; simpl; intros Hok.
  - apply andb_prop in Hok as [Hpf ->]. unfold SCH_Add_Task.
    destruct (pf =? NULL); [discriminate|reflexivity].
  - apply existsb_exists in Hok as (n & Hn & Hid).
    apply Z.eqb_eq in Hid.
    assert (Hin : In taskID (map TaskID (g_TaskListHead s))).
    { rewrite <- Hid. now apply in_map. }
    destruct (delete_node_found _ _ Hin) as [q' Hd].
    now rewrite (SCH_Delete_Task_present _ _ _ Hd).
  - apply SCH_Update_fields.
  - unfold SCH_Dispatch_Tasks. apply dispatch_loop_fields.
  - discriminate.
Qed.

(** X12.  The error slot is written only by a failing call: a run of
    successful registrations, successful deletions, ticks and dispatches,
    however long, leaves it as it was, so a recorded error stays readable
    until [SCH_Get_Error_Code] is called and no such run ever raises
    one. *)
Theorem error_slot_kept_by_successes (ops : list op) (s : sched) :
  all_succeed ops s = true -> g_ErrorCode (run ops s) = g_ErrorCode s.
Proof.
  revert s. induction ops as [|o ops IH]; intros s; [reflexivity|].
  simpl all_succeed. intros Hall. apply andb_prop in Hall as [Ho Hops].
  change (run (o :: ops) s) with (run ops (step s o)).
  rewrite (IH _ Hops). now apply step_keeps_error.
Qed.

Lemma error_slot_kept_by_successes_witness :
  let s := mkSched [mkTaskNode 100 0 5 1] 7 2 ERROR_SCH_TASK_NOT_FOUND in
  let ops := [OpQueue (QAdd 200 3 0 true); OpQueue QTick;
              OpDispatch (fun _ => true); OpQueue (QDelete 2)] in
  all_succeed ops s = true /\
  g_ErrorCode (run ops s) = ERROR_SCH_TASK_NOT_FOUND.
Proof.
  intros s ops.
  assert (Hall : all_succeed ops s = true) by reflexivity.
  split; [exact Hall|].
  exact (error_slot_kept_by_successes ops s Hall).
Defined.

(** * A dispatch after every tick *)

Lemma NoDup_ids_eq (l : list TaskNode) (a b : TaskNode) :
  NoDup (map TaskID l) -> In a l -> In b l -> TaskID a = TaskID b -> a = b.
Proof.
  induction l as [|x l IH]; simpl; [tauto|].
  intros Hnd Ha Hb Hid. inversion Hnd as [|? ? Hx Hnd']; subst.
  destruct Ha as [<-|Ha]; destruct Hb as [<-|Hb]; auto.
  - exfalso. apply Hx. rewrite Hid. now apply in_map.
  - exfalso. apply Hx. rewrite <- Hid. now apply in_map.
Qed.

(** The state between two turns: well formed, distinct ids if they were
    distinct, and nothing due. *)
Lemma cycle_ok (malloc : nat -> bool) (s : sched) :
  queue_ok (g_TaskListHead s) ->
  queue_ok (g_TaskListHead (cycle malloc s)) /\
  drained (g_TaskListHead (cycle malloc s)) /\
  (NoDup (map TaskID (g_TaskListHead s)) ->
   NoDup (map TaskID (g_TaskListHead (cycle malloc s)))).
Proof.
  intros Hq. pose proof (SCH_Update_ok s Hq) as Hq'.
  unfold cycle, SCH_Dispatch_Tasks. split; [|split].
  - apply (dispatch_loop_abs malloc _ 0 _ Hq' (due_count_le_length _)).
  - apply dispatch_loop_done; [assumption|apply due_count_le_length].
  - intros Hnd. rewrite <- SCH_Update_ids in Hnd.
    apply (dispatch_loop_spec malloc _ 0 _ Hq' Hnd).
Qed.

Lemma main_loop_ok (ms : list (nat -> bool)) :
  forall s : sched,
  queue_ok (g_TaskListHead s) -> drained (g_TaskListHead s) ->
  queue_ok (g_TaskListHead (main_loop ms s)) /\
  drained (g_TaskListHead (main_loop ms s)) /\
  (NoDup (map TaskID (g_TaskListHead s)) ->
   NoDup (map TaskID (g_TaskListHead (main_loop ms s)))).
Proof.
  induction ms as [|m0 ms IH]; intros s Hq Hd; [simpl; auto|].
  change (main_loop (m0 :: ms) s) with (main_loop ms (cycle m0 s)).
  destruct (cycle_ok m0 s Hq) as (Hq1 & Hd1 & Hnd1).
  destruct (IH _ Hq1 Hd1) as (Hq2 & Hd2 & Hnd2). auto.
Qed.

(** A tick that finds nothing due takes one off every absolute delay. *)
Lemma tick_ages_all (s : sched) (m : TaskNode) :
  queue_ok (g_TaskListHead s) -> drained (g_TaskListHead s) ->
  In m (to_abs 0 (g_TaskListHead s)) ->
  In (set_Delay m (Delay m - 1)) (to_abs 0 (g_TaskListHead (SCH_Update s))).
Proof.
  intros Hq Hd Hm. rewrite SCH_Update_abs by assumption.
  assert (Hp : head_pending s = true).
  { unfold head_pending. destruct (g_TaskListHead s) as [|h rest];
      [contradiction|].
    simpl in Hd. destruct Hq as [Hok _].
    inversion Hok as [|? ? [Hh _] _]; subst. apply Z.ltb_lt. lia. }
  rewrite Hp. now apply (in_map (fun m => set_Delay m (Delay m - 1))).
Qed.

Lemma cycle_pending (malloc : nat -> bool) (s : sched) (m : TaskNode) :
  queue_ok (g_TaskListHead s) -> drained (g_TaskListHead s) ->
  In m (to_abs 0 (g_TaskListHead s)) -> 1 < Delay m ->
  In (set_Delay m (Delay m - 1)) (to_abs 0 (g_TaskListHead (cycle malloc s))).
Proof.
  intros Hq Hd Hm Hlate. pose proof (SCH_Update_ok s Hq) as Hq'.
  unfold cycle, SCH_Dispatch_Tasks.
  apply (dispatch_loop_abs malloc _ 0 _ Hq' (due_count_le_length _)).
  - now apply tick_ages_all.
  - simpl. lia.
Qed.

Lemma main_loop_pending (ms : list (nat -> bool)) :
  forall (s : sched) (m : TaskNode),
  queue_ok (g_TaskListHead s) -> drained (g_TaskListHead s) ->
  In m (to_abs 0 (g_TaskListHead s)) ->
  Z.of_nat (length ms) < Delay m ->
  In (set_Delay m (Delay m - Z.of_nat (length ms)))
     (to_abs 0 (g_TaskListHead (main_loop ms s))).
Proof.
  induction ms as [|m0 ms IH]; intros s m Hq Hd Hm Hlate.
  - simpl. rewrite Z.sub_0_r, set_Delay_same. exact Hm.
  - change (main_loop (m0 :: ms) s) with (main_loop ms (cycle m0 s)).
    simpl length in *.
    destruct (cycle_ok m0 s Hq) as (Hq1 & Hd1 & _).
    pose proof (cycle_pending m0 s m Hq Hd Hm ltac:(lia)) as Hm1.
    specialize (IH _ _ Hq1 Hd1 Hm1). simpl in IH.
    replace (Delay m - Z.of_nat (S (length ms)))
      with (Delay m - 1 - Z.of_nat (length ms)) by lia.
    apply IH. lia.
Qed.

Lemma main_loop_runs (ms : list (nat -> bool)) (malloc : nat -> bool)
    (s : sched) (m : TaskNode) :
  queue_ok (g_TaskListHead s) -> drained (g_TaskListHead s) ->
  In m (to_abs 0 (g_TaskListHead s)) ->
  Delay m = Z.of_nat (length ms) + 1 ->
  In (set_Delay m 0)
     (d_ran (SCH_Dispatch_Tasks malloc (SCH_Update (main_loop ms s)))).
Proof.
  intros Hq Hd Hm HD.
  destruct (main_loop_ok ms s Hq Hd) as (Hq1 & Hd1 & _).
  pose proof (main_loop_pending ms s m Hq Hd Hm ltac:(lia)) as Hm1.
  pose proof (tick_ages_all _ _ Hq1 Hd1 Hm1) as Hm2. simpl in Hm2.
  replace (Delay m - Z.of_nat (length ms) - 1) with 0 in Hm2 by lia.
  pose proof (SCH_Update_ok _ Hq1) as Hq2.
  unfold SCH_Dispatch_Tasks.
  rewrite dispatch_loop_ran by (try assumption; apply due_count_le_length).
  destruct Hq2 as [Hok _]. now apply due_prefix_abs.
Qed.

(** X13.  When the dispatcher is called after every tick and nothing is
    due at the start, a queued record whose absolute delay is [D >= 1] is
    run in the [D]-th turn, whatever the allocations do; when the queued
    ids are distinct, no record with its id is run in any earlier turn. *)
Theorem main_loop_runs_on_time (ms : list (nat -> bool))
    (malloc : nat -> bool) (s : sched) (m : TaskNode) :
  queue_ok (g_TaskListHead s) -> drained (g_TaskListHead s) ->
  In m (to_abs 0 (g_TaskListHead s)) ->
  Delay m = Z.of_nat (length ms) + 1 ->
  In (set_Delay m 0)
     (d_ran (SCH_Dispatch_Tasks malloc (SCH_Update (main_loop ms s)))) /\
  (NoDup (map TaskID (g_TaskListHead s)) ->
   forall ms1 malloc1 ms2 n, ms = ms1 ++ malloc1 :: ms2 ->
   In n (d_ran (SCH_Dispatch_Tasks malloc1
                  (SCH_Update (main_loop ms1 s)))) ->
   TaskID n <> TaskID m).
Proof.
  intros Hq Hd Hm HD. split; [now apply main_loop_runs|].
  intros Hnd ms1 malloc1 ms2 n -> Hn Hid.
  rewrite length_app in HD. simpl length in HD.
  destruct (main_loop_ok ms1 s Hq Hd) as (Hq1 & Hd1 & Hnd1).
  specialize (Hnd1 Hnd).
  pose proof (main_loop_pending ms1 s m Hq Hd Hm ltac:(lia)) as Hm1.
  pose proof (tick_ages_all _ _ Hq1 Hd1 Hm1) as Hm2. simpl in Hm2.
  pose proof (SCH_Update_ok _ Hq1) as Hq2.
  unfold SCH_Dispatch_Tasks in Hn.
  rewrite dispatch_loop_ran in Hn
    by (try assumption; apply due_count_le_length).
  apply due_prefix_In in Hn as [Hn Hdue].
  rewrite <- SCH_Update_ids, <- (to_abs_ids 0) in Hnd1.
  pose proof (NoDup_ids_eq _ _ _ Hnd1 Hn Hm2 Hid) as Heq.
  rewrite Heq in Hdue. simpl in Hdue. lia.
Qed.

Lemma main_loop_runs_on_time_witness :
  let s := mkSched [mkTaskNode 100 2 0 1; mkTaskNode 200 1 0 2] 7 3 0 in
  let m := mkTaskNode 200 3 0 2 in
  let ok := fun _ : nat => true in
  queue_ok (g_TaskListHead s) /\ drained (g_TaskListHead s) /\
  In m (to_abs 0 (g_TaskListHead s)) /\
  Delay m = Z.of_nat (length [ok; ok]) + 1 /\
  In (mkTaskNode 200 0 0 2)
     (d_ran (SCH_Dispatch_Tasks ok (SCH_Update (main_loop [ok; ok] s)))).
Proof.
  intros s m ok.
  assert (Hq : queue_ok (g_TaskListHead s)).
  { split; [repeat constructor; simpl; u32|reflexivity]. }
  assert (Hd : drained (g_TaskListHead s)) by (simpl; discriminate).
  assert (Hm : In m (to_abs 0 (g_TaskListHead s))) by (simpl; auto).
  assert (HD : Delay m = Z.of_nat (length [ok; ok]) + 1) by reflexivity.
  split; [exact Hq|]. split; [exact Hd|]. split; [exact Hm|].
  split; [exact HD|].
  exact (proj1 (main_loop_runs_on_time [ok; ok] ok s m Hq Hd Hm HD)).
Defined.

(** X14.  With a dispatch after every tick, a periodic record comes back.
    A queued record with absolute delay [D >= 1] and period [P >= 1] is run
    in the [D]-th turn; if the allocation made for it in that call succeeds
    (the other allocations of the call may fail), it is queued again with
    absolute delay [P] when that turn ends and is run again in the [P]-th
    turn after it, whatever the later allocations do. *)
Theorem main_loop_periodic_recurrence (ms ms' : list (nat -> bool))
    (malloc malloc' : nat -> bool) (s : sched) (m : TaskNode) :
  queue_ok (g_TaskListHead s) -> drained (g_TaskListHead s) ->
  In m (to_abs 0 (g_TaskListHead s)) ->
  Delay m = Z.of_nat (length ms) + 1 ->
  Period m = Z.of_nat (length ms') + 1 ->
  let r := SCH_Dispatch_Tasks malloc (SCH_Update (main_loop ms s)) in
  let s1 := cycle malloc (main_loop ms s) in
  In (set_Delay m 0) (d_ran r) /\
  forall i, nth_error (d_ran r) i = Some (set_Delay m 0) ->
    malloc (allocs_before (d_ran r) i) = true ->
    In (set_Delay m (Period m)) (to_abs 0 (g_TaskListHead s1)) /\
    In (set_Delay m 0)
       (d_ran (SCH_Dispatch_Tasks malloc' (SCH_Update (main_loop ms' s1)))).
Proof.
  intros Hq Hd Hm HD HP. cbv zeta.
  split; [now apply main_loop_runs|].
  intros i Hi Halloc.
  destruct (main_loop_ok ms s Hq Hd) as (Hq1 & Hd1 & _).
  pose proof (SCH_Update_ok _ Hq1) as Hq2.
  assert (Hback : In (set_Delay m (Period m))
                     (to_abs 0 (g_TaskListHead
                                  (cycle malloc (main_loop ms s))))).
  { unfold cycle. unfold SCH_Dispatch_Tasks in *.
    apply (dispatch_loop_requeued malloc _ 0 _ i (set_Delay m 0) Hq2
             (due_count_le_length _) Hi); [simpl; lia|exact Halloc]. }
  split; [assumption|].
  destruct (cycle_ok malloc _ Hq1) as (Hq3 & Hd3 & _).
  apply (main_loop_runs ms' malloc' _ (set_Delay m (Period m)) Hq3 Hd3 Hback).
  simpl. exact HP.
Qed.

Lemma main_loop_periodic_recurrence_witness :
  let s := mkSched [mkTaskNode 100 2 3 1; mkTaskNode 200 0 5 2] 7 3 0 in
  let m := mkTaskNode 200 2 5 2 in
  let second := fun k : nat => Nat.eqb k 1 in
  let no := fun _ : nat => false in
  queue_ok (g_TaskListHead s) /\ drained (g_TaskListHead s) /\
  In m (to_abs 0 (g_TaskListHead s)) /\
  Delay m = Z.of_nat (length [no]) + 1 /\
  Period m = Z.of_nat (length [no; no; no; no]) + 1 /\
  d_ran (SCH_Dispatch_Tasks second (SCH_Update (main_loop [no] s)))
  = [mkTaskNode 100 0 3 1; mkTaskNode 200 0 5 2] /\
  g_TaskListHead (cycle second (main_loop [no] s))
  = [mkTaskNode 200 5 5 2] /\
  In (mkTaskNode 200 0 5 2)
     (d_ran (SCH_Dispatch_Tasks no
               (SCH_Update (main_loop [no; no; no; no]
                              (cycle second (main_loop [no] s)))))).
Proof.
  intros s m second no.
  assert (Hq : queue_ok (g_TaskListHead s)).
  { split; [repeat constructor; simpl; u32|reflexivity]. }
  assert (Hd : drained (g_TaskListHead s)) by (simpl; discriminate).
  assert (Hm : In m (to_abs 0 (g_TaskListHead s))) by (simpl; auto).
  assert (HD : Delay m = Z.of_nat (length [no]) + 1) by reflexivity.
  assert (HP : Period m = Z.of_nat (length [no; no; no; no]) + 1)
    by reflexivity.
  split; [exact Hq|]. split; [exact Hd|]. split; [exact Hm|].
  split; [exact HD|]. split; [exact HP|].
  split; [reflexivity|]. split; [reflexivity|].
  exact (proj2 (proj2 (main_loop_periodic_recurrence [no] [no; no; no; no]
                         second no s m Hq Hd Hm HD HP)
                  1%nat eq_refl eq_refl)).
Defined.

(** * Worked examples *)

(** Tasks registered with delays 5, 5 and 3: the third is run after three
    ticks, the first two after two more ticks, in the order in which they
    were registered. *)
Example due_order_dispatch :
  let add d := OpQueue (QAdd 100 d 0 true) in
  let tick := OpQueue QTick in
  let s3 := run [add 5; add 5; add 3; tick; tick; tick]
                (SCH_Init (mkSched [] 0 0 0)) in
  let r3 := SCH_Dispatch_Tasks (fun _ => true) s3 in
  let s5 := run [tick; tick] (d_state r3) in
  let r5 := SCH_Dispatch_Tasks (fun _ => true) s5 in
  map TaskID (d_ran r3) = [3] /\
  map TaskID (d_ran r5) = [1; 2] /\
  g_TaskListHead (d_state r5) = [].
Proof. repeat split. Qed.

(** Tasks due in 3, 7 and 12 ticks: deleting the middle one hands its
    relative delay to the last, which stays due in 12 ticks. *)
Example delete_mid_queue :
  let add d := OpQueue (QAdd 100 d 0 true) in
  let s := run [add 3; add 7; add 12; OpQueue (QDelete 2)]
               (SCH_Init (mkSched [] 0 0 0)) in
  g_TaskListHead s = [mkTaskNode 100 3 0 1; mkTaskNode 100 9 0 3] /\
  cumulative_delay (g_TaskListHead s) 1 = 12.
Proof. repeat split. Qed.

(** A task with delay 0 and period 10 is run by the first dispatch and is
    then due again in 10 ticks. *)
Example periodic_round_trip :
  let s := run [OpQueue (QAdd 100 0 10 true)] (SCH_Init (mkSched [] 0 0 0)) in
  let r := SCH_Dispatch_Tasks (fun _ => true) s in
  d_ran r = [mkTaskNode 100 0 10 1] /\
  g_TaskListHead (d_state r) = [mkTaskNode 100 10 10 1] /\
  d_ran (SCH_Dispatch_Tasks (fun _ => true) (d_state r)) = [].
Proof. repeat split. Qed.

(** * The table scheduler: removal and initialisation *)

Module ArraySchedFacts.

Import ArraySched.

Lemma delete_scan_None (taskID : Z) (tasks : list sTask) :
  delete_scan taskID tasks = None <-> ~ In taskID (map TaskID tasks).
Proof.
  induction tasks as [|t rest IH]; simpl.
  - tauto.
  - destruct (Z.eqb_spec (TaskID t) taskID) as [He|Hne].
    + split; [discriminate|tauto].
    + destruct (delete_scan taskID rest) as [rest'|].
      * split; [discriminate|]. intros H. exfalso.
        assert (Hin : ~ In taskID (map TaskID rest)) by tauto.
        apply IH in Hin. discriminate.
      * split; [|reflexivity]. intros _ [H|H]; [contradiction|].
        now apply (proj1 IH eq_refl).
Qed.

Lemma delete_scan_app (taskID : Z) (before : list sTask) (t : sTask)
    (after : list sTask) :
  ~ In taskID (map TaskID before) -> TaskID t = taskID ->
  delete_scan taskID (before ++ t :: after)
  = Some (before ++ cleared :: after).
Proof.
  intros Hb Ht. induction before as [|b before IH]; simpl.
  - now rewrite Ht, Z.eqb_refl.
  - simpl in Hb. destruct (Z.eqb_spec (TaskID b) taskID); [tauto|].
    rewrite IH by tauto. reflexivity.
Qed.

Lemma delete_scan_Some (taskID : Z) (tasks tasks' : list sTask) :
  delete_scan taskID tasks = Some tasks' ->
  exists before t after,
    tasks = before ++ t :: after /\ TaskID t = taskID /\
    ~ In taskID (map TaskID before) /\
    tasks' = before ++ cleared :: after.
Proof.
  revert tasks'. induction tasks as [|x rest IH]; intros tasks'; simpl;
    [discriminate|].
  destruct (Z.eqb_spec (TaskID x) taskID) as [He|Hne].
  - intros [= <-]. exists [], x, rest. simpl. auto.
  - destruct (delete_scan taskID rest) as [rest'|]; [|discriminate].
    intros [= <-].
    destruct (IH rest' eq_refl) as (before & t & after & -> & Ht & Hb & ->).
    exists (x :: before), t, after. simpl. repeat split; auto.
    intros [H|H]; contradiction.
Qed.

(** X15.  [SCH_Delete_Task] of the table scheduler either finds the id,
    and then clears the first slot that carries it (all fields zero),
    touches no other slot and no other variable and returns RETURN_NORMAL;
    or finds no slot with the id, and then leaves the table as it is,
    stores ERROR_SCH_CANNOT_DELETE_TASK and returns RETURN_ERROR. *)
Theorem table_delete_spec (taskID : Z) (s : sched) :
  (exists before t after,
     SCH_tasks_G s = before ++ t :: after /\ TaskID t = taskID /\
     ~ In taskID (map TaskID before) /\
     SCH_Delete_Task taskID s
     = (with_tasks s (before ++ cleared :: after), RETURN_NORMAL)) \/
  (~ In taskID (map TaskID (SCH_tasks_G s)) /\
   SCH_Delete_Task taskID s
   = (mkSched (SCH_tasks_G s) ERROR_SCH_CANNOT_DELETE_TASK
              (Last_error_code_G s) (Error_tick_count_G s)
              (Task_ID_Counter s), RETURN_ERROR)).
Proof.
  unfold SCH_Delete_Task.
  destruct (delete_scan taskID (SCH_tasks_G s)) as [tasks'|] eqn:Hd.
  - left. destruct (delete_scan_Some _ _ _ Hd)
      as (before & t & after & Hs & Ht & Hb & ->).
    exists before, t, after. auto.
  - right. split; [now apply delete_scan_None|reflexivity].
Qed.

(** X16.  Deleting the sentinel id: when the first slot whose id is 0 is
    an empty (cleared) slot, as in the table at start-up or after any
    deletion, [SCH_Delete_Task (NO_TASK_ID)] returns RETURN_NORMAL and
    changes nothing at all. *)
Theorem table_delete_sentinel (s : sched) (before after : list sTask) :
  SCH_tasks_G s = before ++ cleared :: after ->
  ~ In NO_TASK_ID (map TaskID before) ->
  SCH_Delete_Task NO_TASK_ID s = (s, RETURN_NORMAL).
Proof.
  intros Hs Hb. unfold SCH_Delete_Task.
  rewrite Hs, delete_scan_app by (try assumption; reflexivity).
  rewrite <- Hs. now destruct s.
Qed.

Lemma table_delete_sentinel_witness :
  let s := mkSched [mk_sTask 100 5 0 0 1; cleared; mk_sTask 200 0 3 1 2]
                   0 0 0 3 in
  SCH_tasks_G s = [mk_sTask 100 5 0 0 1] ++ cleared :: [mk_sTask 200 0 3 1 2]
  /\ ~ In NO_TASK_ID (map TaskID [mk_sTask 100 5 0 0 1]) /\
  SCH_Delete_Task 0 s = (s, 1).
Proof.
  intros s.
  assert (Hs : SCH_tasks_G s
               = [mk_sTask 100 5 0 0 1] ++ cleared :: [mk_sTask 200 0 3 1 2])
    by reflexivity.
  assert (Hb : ~ In NO_TASK_ID (map TaskID [mk_sTask 100 5 0 0 1]))
    by (simpl; intuition discriminate).
  split; [exact Hs|]. split; [exact Hb|].
  exact (table_delete_sentinel s _ _ Hs Hb).
Defined.

Lemma delete_other_slot (taskID : Z) (s : sched) (i : nat) (t : sTask) :
  nth_error (SCH_tasks_G s) i = Some t -> TaskID t <> taskID ->
  nth_error (SCH_tasks_G (fst (SCH_Delete_Task taskID s))) i = Some t.
Proof.
  intros Hi Hne. unfold SCH_Delete_Task.
  destruct (delete_scan taskID (SCH_tasks_G s)) as [tasks'|] eqn:Hd;
    simpl; [|assumption].
  destruct (delete_scan_Some _ _ _ Hd)
    as (before & x & after & Hs & Hx & Hb & ->).
  rewrite Hs in Hi.
  destruct (Nat.lt_ge_cases i (length before)) as [Hlt|Hge].
  - rewrite nth_error_app1 in * by assumption. exact Hi.
  - rewrite nth_error_app2 in * by assumption.
    destruct (i - length before)%nat as [|k]; simpl in *; [|exact Hi].
    congruence.
Qed.

Lemma delete_length (taskID : Z) (s : sched) :
  length (SCH_tasks_G (fst (SCH_Delete_Task taskID s)))
  = length (SCH_tasks_G s).
Proof.
  unfold SCH_Delete_Task.
  destruct (delete_scan taskID (SCH_tasks_G s)) as [tasks'|] eqn:Hd;
    simpl; [|reflexivity].
  destruct (delete_scan_Some _ _ _ Hd)
    as (before & x & after & -> & _ & _ & ->).
  now rewrite !length_app.
Qed.

Lemma init_loop_other_slot (n : nat) :
  forall (j : Z) (s : sched) (i : nat) (t : sTask),
  nth_error (SCH_tasks_G s) i = Some t ->
  ~ (j <= TaskID t < j + Z.of_nat n) ->
  nth_error (SCH_tasks_G (init_loop n j s)) i = Some t.
Proof.
  induction n as [|n IH]; intros j s i t Hi Hout; [exact Hi|].
  simpl init_loop. apply IH; [|lia].
  apply delete_other_slot; [assumption|lia].
Qed.

Lemma init_loop_length (n : nat) :
  forall (j : Z) (s : sched),
  length (SCH_tasks_G (init_loop n j s)) = length (SCH_tasks_G s).
Proof.
  induction n as [|n IH]; intros j s; [reflexivity|].
  simpl init_loop. now rewrite IH, delete_length.
Qed.

Lemma mkSched_fields (tasks : list sTask) (e l c k : Z) :
  SCH_tasks_G (mkSched tasks e l c k) = tasks /\
  Error_code_G (mkSched tasks e l c k) = e /\
  Last_error_code_G (mkSched tasks e l c k) = l /\
  Error_tick_count_G (mkSched tasks e l c k) = c /\
  Task_ID_Counter (mkSched tasks e l c k) = k.
Proof. repeat split. Qed.

Lemma SCH_Init_fields (s : sched) :
  SCH_tasks_G (SCH_Init s) = SCH_tasks_G (init_loop SCH_MAX_TASKS 0 s) /\
  Error_code_G (SCH_Init s) = 0 /\
  Last_error_code_G (SCH_Init s) = 0 /\
  Error_tick_count_G (SCH_Init s) = 0 /\
  Task_ID_Counter (SCH_Init s) = 1.
Proof.
  exact (mkSched_fields (SCH_tasks_G (init_loop SCH_MAX_TASKS 0 s)) 0 0 0 1).
Qed.

(** X17.  [SCH_Init] passes the indices 0 to 39 to [SCH_Delete_Task],
    which takes a task id: a slot whose id is 40 or more (or any value
    outside 0..39) is still in the table, unchanged, after [SCH_Init],
    while the id counter is back at 1 and the error variables at 0.  The
    table keeps its size. *)
Theorem table_init_keeps_large_ids (s : sched) (i : nat) (t : sTask) :
  nth_error (SCH_tasks_G s) i = Some t ->
  ~ (0 <= TaskID t < Z.of_nat SCH_MAX_TASKS) ->
  nth_error (SCH_tasks_G (SCH_Init s)) i = Some t /\
  Task_ID_Counter (SCH_Init s) = 1 /\
  Error_code_G (SCH_Init s) = 0 /\
  length (SCH_tasks_G (SCH_Init s)) = length (SCH_tasks_G s).
Proof.
  intros Hi Hout.
  destruct (SCH_Init_fields s) as (-> & -> & _ & _ & ->).
  split; [now apply init_loop_other_slot|].
  split; [reflexivity|]. split; [reflexivity|]. apply init_loop_length.
Qed.

Lemma table_init_keeps_large_ids_witness :
  let s := mkSched [mk_sTask 100 5 0 0 7; mk_sTask 200 9 3 1 41] 2 0 0 42 in
  nth_error (SCH_tasks_G s) 1 = Some (mk_sTask 200 9 3 1 41) /\
  ~ (0 <= 41 < Z.of_nat SCH_MAX_TASKS) /\
  nth_error (SCH_tasks_G (SCH_Init s)) 1 = Some (mk_sTask 200 9 3 1 41) /\
  SCH_tasks_G (SCH_Init s) = [cleared; mk_sTask 200 9 3 1 41].
Proof.
  intros s.
  assert (Hi : nth_error (SCH_tasks_G s) 1 = Some (mk_sTask 200 9 3 1 41))
    by reflexivity.
  assert (Hout : ~ (0 <= 41 < Z.of_nat SCH_MAX_TASKS))
    by (unfold SCH_MAX_TASKS; lia).
  split; [exact Hi|]. split; [exact Hout|]. split; [|reflexivity].
  exact (proj1 (table_init_keeps_large_ids s 1 _ Hi Hout)).
Defined.

Lemma delete_slot_cases (taskID : Z) (s : sched) (i : nat) (t' : sTask) :
  nth_error (SCH_tasks_G (fst (SCH_Delete_Task taskID s))) i = Some t' ->
  t' = cleared \/ nth_error (SCH_tasks_G s) i = Some t'.
Proof.
  unfold SCH_Delete_Task.
  destruct (delete_scan taskID (SCH_tasks_G s)) as [tasks'|] eqn:Hd;
    simpl; [|auto].
  destruct (delete_scan_Some _ _ _ Hd)
    as (before & x & after & -> & Hx & Hb & ->).
  destruct (Nat.lt_ge_cases i (length before)) as [Hlt|Hge].
  - rewrite !nth_error_app1 by assumption. auto.
  - rewrite !nth_error_app2 by assumption.
    destruct (i - length before)%nat as [|k]; simpl; [|auto].
    intros [= <-]. now left.
Qed.

Lemma delete_clears_id (taskID : Z) (s : sched) :
  distinct_ids (SCH_tasks_G s) -> taskID <> 0 ->
  ~ In taskID (map TaskID (SCH_tasks_G (fst (SCH_Delete_Task taskID s)))).
Proof.
  intros Hd Hnz. unfold SCH_Delete_Task.
  destruct (delete_scan taskID (SCH_tasks_G s)) as [tasks'|] eqn:Hs;
    simpl; [|now apply delete_scan_None].
  destruct (delete_scan_Some _ _ _ Hs)
    as (before & x & after & Htab & Hx & Hb & ->).
  unfold distinct_ids in Hd. rewrite Htab, map_app, filter_app in Hd.
  simpl in Hd. rewrite Hx in Hd.
  destruct (Z.eqb_spec taskID 0); [contradiction|]. simpl in Hd.
  apply NoDup_remove_2 in Hd.
  rewrite map_app, in_app_iff. simpl. intros [H|[H|H]]; [tauto|lia|].
  apply Hd. apply in_or_app. right. apply filter_In. split; [assumption|].
  destruct (Z.eqb_spec taskID 0); [contradiction|reflexivity].
Qed.

Lemma delete_keeps_distinct (taskID : Z) (s : sched) :
  distinct_ids (SCH_tasks_G s) ->
  distinct_ids (SCH_tasks_G (fst (SCH_Delete_Task taskID s))).
Proof.
  intros Hd. unfold SCH_Delete_Task.
  destruct (delete_scan taskID (SCH_tasks_G s)) as [tasks'|] eqn:Hs;
    simpl; [|assumption].
  destruct (delete_scan_Some _ _ _ Hs)
    as (before & x & after & Htab & Hx & Hb & ->).
  unfold distinct_ids in *. rewrite Htab in Hd.
  rewrite map_app, filter_app in *. simpl in *.
  destruct (negb (TaskID x =? 0)); [|assumption].
  now apply NoDup_remove_1 in Hd.
Qed.

Lemma init_loop_spec (n : nat) :
  forall (j : Z) (s : sched),
  distinct_ids (SCH_tasks_G s) ->
  (forall i t, nth_error (SCH_tasks_G s) i = Some t ->
               ~ (1 <= TaskID t < j)) ->
  forall i t, nth_error (SCH_tasks_G (init_loop n j s)) i = Some t ->
  ~ (1 <= TaskID t < j + Z.of_nat n).
Proof.
  induction n as [|n IH]; intros j s Hd Hlow i t Hi.
  - simpl in Hi. specialize (Hlow i t Hi). lia.
  - simpl init_loop in Hi.
    replace (j + Z.of_nat (S n)) with (j + 1 + Z.of_nat n) by lia.
    apply (IH (j + 1) (fst (SCH_Delete_Task j s))
              (delete_keeps_distinct j s Hd)) with (i := i);
      [|exact Hi].
    intros i' t' Hi' Hrange.
    destruct (delete_slot_cases _ _ _ _ Hi') as [->|Hold].
    + simpl in Hrange. lia.
    + specialize (Hlow i' t' Hold).
      assert (Hj : TaskID t' = j) by lia.
      assert (Hnz : j <> 0) by lia.
      assert (Hin : In (TaskID t')
                       (map TaskID
                          (SCH_tasks_G (fst (SCH_Delete_Task j s)))))
        by (apply in_map; eapply nth_error_In; exact Hi').
      rewrite Hj in Hin. exact (delete_clears_id j s Hd Hnz Hin).
Qed.

Lemma init_loop_cases (n : nat) :
  forall (j : Z) (s : sched) (i : nat) (t' : sTask),
  nth_error (SCH_tasks_G (init_loop n j s)) i = Some t' ->
  t' = cleared \/ nth_error (SCH_tasks_G s) i = Some t'.
Proof.
  induction n as [|n IH]; intros j s i t' Hi; [now right|].
  simpl init_loop in Hi. destruct (IH _ _ _ _ Hi) as [->|Hold]; [now left|].
  now apply delete_slot_cases in Hold.
Qed.

(** X18.  When no two slots share a nonzero id, [SCH_Init] removes every
    task whose id is between 1 and 39: afterwards each slot is either
    cleared or a slot of the old table, untouched, whose id is not in
    1..39. *)
Theorem table_init_clears_small_ids (s : sched) (i : nat) (t : sTask) :
  distinct_ids (SCH_tasks_G s) ->
  nth_error (SCH_tasks_G (SCH_Init s)) i = Some t ->
  ~ (1 <= TaskID t < Z.of_nat SCH_MAX_TASKS) /\
  (t = cleared \/ nth_error (SCH_tasks_G s) i = Some t).
Proof.
  intros Hd. destruct (SCH_Init_fields s) as (-> & _). intros Hi. split.
  - apply (init_loop_spec SCH_MAX_TASKS 0 s Hd) with (i := i);
      [|exact Hi].
    intros i' t' _. lia.
  - eapply init_loop_cases. exact Hi.
Qed.

Lemma table_init_clears_small_ids_witness :
  let s := mkSched [mk_sTask 100 5 0 0 7; mk_sTask 200 9 3 1 41;
                    mk_sTask 300 1 1 0 39] 2 0 0 42 in
  distinct_ids (SCH_tasks_G s) /\
  SCH_tasks_G (SCH_Init s) = [cleared; mk_sTask 200 9 3 1 41; cleared] /\
  ~ (1 <= 41 < Z.of_nat SCH_MAX_TASKS).
Proof.
  intros s.
  assert (Hd : distinct_ids (SCH_tasks_G s)).
  { unfold distinct_ids. simpl.
    repeat constructor; simpl; intuition discriminate. }
  split; [exact Hd|]. split; [reflexivity|].
  exact (proj1 (table_init_clears_small_ids s 1 (mk_sTask 200 9 3 1 41)
                  Hd eq_refl)).
Defined.

(** * The table scheduler: registration *)

Lemma set_slot_app (before : list sTask) (x t : sTask)
    (after : list sTask) :
  set_slot (length before) x (before ++ t :: after) = before ++ x :: after.
Proof.
  induction before as [|b before IH]; simpl; [reflexivity|].
  now rewrite IH.
Qed.

Lemma find_gap_Some (tasks : list sTask) (i : nat) :
  find_gap tasks = Some i ->
  exists before t after,
    tasks = before ++ t :: after /\ length before = i /\
    pTask t = NULL /\ Forall (fun b => pTask b <> NULL) before.
Proof.
  revert i. induction tasks as [|x rest IH]; intros i; simpl;
    [discriminate|].
  destruct (Z.eqb_spec (pTask x) NULL) as [Hx|Hx].
  - intros [= <-]. exists [], x, rest. auto.
  - destruct (find_gap rest) as [k|]; [|discriminate]. intros [= <-].
    destruct (IH k eq_refl) as (before & t & after & -> & <- & Ht & Hb).
    exists (x :: before), t, after. simpl. auto.
Qed.

Lemma find_gap_free (tasks : list sTask) :
  (exists t, In t tasks /\ pTask t = NULL) ->
  exists i, find_gap tasks = Some i.
Proof.
  intros (t & Hin & Ht). induction tasks as [|x rest IH]; [contradiction|].
  simpl. destruct (Z.eqb_spec (pTask x) NULL); [eauto|].
  destruct Hin as [->|Hin]; [contradiction|].
  destruct (IH Hin) as [i ->]. simpl. eauto.
Qed.

(** X19.  On a table with a free slot, [SCH_Add_Task] of the table
    scheduler stores the task in the first slot whose [pTask] is null, with
    [RunMe] 0 and the value of the id counter as its id, returns that id
    and moves the counter one up (modulo 2^32); the other slots and the
    error variables are unchanged.  The callback is not checked: a null
    [pFunction] is stored like any other. *)
Theorem table_add_spec (pFunction DELAY PERIOD : Z) (s : sched) :
  (exists t, In t (SCH_tasks_G s) /\ pTask t = NULL) ->
  exists before t after,
    SCH_tasks_G s = before ++ t :: after /\ pTask t = NULL /\
    Forall (fun b => pTask b <> NULL) before /\
    SCH_Add_Task pFunction DELAY PERIOD s
    = Some (mkSched
              (before ++
               mk_sTask pFunction DELAY PERIOD 0 (Task_ID_Counter s) :: after)
              (Error_code_G s) (Last_error_code_G s)
              (Error_tick_count_G s) (wrap32 (Task_ID_Counter s + 1)),
            Task_ID_Counter s).
Proof.
  intros Hfree. destruct (find_gap_free _ Hfree) as [i Hi].
  destruct (find_gap_Some _ _ Hi) as (before & t & after & Hs & <- & Ht & Hb).
  exists before, t, after.
  split; [exact Hs|]. split; [exact Ht|]. split; [exact Hb|].
  unfold SCH_Add_Task. rewrite Hi, Hs, set_slot_app. reflexivity.
Qed.

Lemma table_add_spec_witness :
  let s := mkSched [mk_sTask 100 5 0 0 1; cleared; cleared] 0 0 0 2 in
  (exists t, In t (SCH_tasks_G s) /\ pTask t = NULL) /\
  SCH_Add_Task 200 3 4 s
  = Some (mkSched [mk_sTask 100 5 0 0 1; mk_sTask 200 3 4 0 2; cleared]
                  0 0 0 3, 2).
Proof.
  intros s.
  assert (Hfree : exists t, In t (SCH_tasks_G s) /\ pTask t = NULL).
  { exists cleared. split; [simpl; auto|reflexivity]. }
  split; [exact Hfree|].
  pose proof (table_add_spec 200 3 4 s Hfree) as H.
  destruct H as (before & t & after & _ & _ & _ & _).
  reflexivity.
Defined.

(** X20.  Registering a task in the table and deleting it again with the
    id that was returned clears the slot that was used and touches no
    other slot; the call returns RETURN_NORMAL and the error variables are
    unchanged.  This holds whenever the value of the id counter is not the
    id of a slot of the table. *)
Theorem table_add_delete_round_trip (pFunction DELAY PERIOD : Z)
    (s : sched) :
  (exists t, In t (SCH_tasks_G s) /\ pTask t = NULL) ->
  ~ In (Task_ID_Counter s) (map TaskID (SCH_tasks_G s)) ->
  exists before t after s1,
    SCH_tasks_G s = before ++ t :: after /\ pTask t = NULL /\
    SCH_Add_Task pFunction DELAY PERIOD s
    = Some (s1, Task_ID_Counter s) /\
    SCH_Delete_Task (Task_ID_Counter s) s1
    = (mkSched (before ++ cleared :: after)
               (Error_code_G s) (Last_error_code_G s)
               (Error_tick_count_G s) (wrap32 (Task_ID_Counter s + 1)),
       RETURN_NORMAL).
Proof.
  intros Hfree Hfresh. destruct (find_gap_free _ Hfree) as [i Hi].
  destruct (find_gap_Some _ _ Hi) as (before & t & after & Hs & <- & Ht & Hb).
  exists before, t, after. eexists. split; [exact Hs|]. split; [exact Ht|].
  unfold SCH_Add_Task. rewrite Hi. split; [reflexivity|].
  unfold SCH_Delete_Task. cbn [SCH_tasks_G Error_code_G Last_error_code_G
                               Error_tick_count_G Task_ID_Counter].
  rewrite Hs, set_slot_app.
  rewrite delete_scan_app; [reflexivity| |reflexivity].
  intros Hin. apply Hfresh. rewrite Hs, map_app. apply in_or_app. now left.
Qed.

Lemma table_add_delete_round_trip_witness :
  let s := mkSched [mk_sTask 100 5 0 0 1; cleared; cleared] 0 0 0 2 in
  (exists t, In t (SCH_tasks_G s) /\ pTask t = NULL) /\
  ~ In (Task_ID_Counter s) (map TaskID (SCH_tasks_G s)) /\
  exists s1, SCH_Add_Task 200 3 4 s = Some (s1, 2) /\
    SCH_tasks_G (fst (SCH_Delete_Task 2 s1)) = SCH_tasks_G s.
Proof.
  intros s.
  assert (Hfree : exists t, In t (SCH_tasks_G s) /\ pTask t = NULL).
  { exists cleared. split; [simpl; auto|reflexivity]. }
  assert (Hfresh : ~ In (Task_ID_Counter s) (map TaskID (SCH_tasks_G s)))
    by (simpl; intuition discriminate).
  split; [exact Hfree|]. split; [exact Hfresh|].
  destruct (table_add_delete_round_trip 200 3 4 s Hfree Hfresh)
    as (before & t & after & s1 & _ & _ & Hadd & _).
  exists s1. split; [exact Hadd|].
  injection Hadd as <-. reflexivity.
Defined.

(** * The table scheduler: ticks *)

Lemma ticks_tasks (n : nat) :
  forall s : sched,
  SCH_tasks_G (ticks n s) = map (age n) (SCH_tasks_G s) /\
  Error_code_G (ticks n s) = Error_code_G s /\
  Task_ID_Counter (ticks n s) = Task_ID_Counter s.
Proof.
  induction n as [|n IH]; intros s.
  - simpl. now rewrite map_id.
  - simpl ticks. destruct (IH (SCH_Update s)) as (-> & -> & ->).
    simpl. rewrite map_map. auto.
Qed.

Lemma age_S_r (n : nat) :
  forall t : sTask, age (S n) t = update_task (age n t).
Proof.
  induction n as [|n IH]; intros t; [reflexivity|].
  change (age (S (S n)) t) with (age (S n) (update_task t)).
  now rewrite IH.
Qed.

Lemma age_add (n m : nat) :
  forall t : sTask, age (n + m) t = age m (age n t).
Proof.
  induction n as [|n IH]; intros t; [reflexivity|].
  simpl. apply IH.
Qed.

Lemma age_countdown (n : nat) :
  forall t : sTask,
  pTask t <> NULL -> Z.of_nat n <= Delay t -> Delay t < UINT32_MOD ->
  age n t
  = mk_sTask (pTask t) (Delay t - Z.of_nat n) (Period t) (RunMe t)
             (TaskID t).
Proof.
  induction n as [|n IH]; intros t Hfun Hn Hmax.
  - simpl. rewrite Z.sub_0_r. now destruct t.
  - simpl age. unfold update_task at 1.
    destruct (Z.eqb_spec (pTask t) NULL); [contradiction|].
    destruct (Z.eqb_spec (Delay t) 0); [lia|].
    rewrite IH; simpl; rewrite ?wrap32_small; try u32; try assumption.
    f_equal. lia.
Qed.

Lemma age_flag (d : nat) (t : sTask) :
  pTask t <> NULL -> Delay t = Z.of_nat d -> Delay t < UINT32_MOD ->
  age (S d) t
  = mk_sTask (pTask t) (Period t) (Period t) (wrap8 (RunMe t + 1))
             (TaskID t).
Proof.
  intros Hfun Hd Hmax. rewrite age_S_r, age_countdown by (try assumption; lia).
  unfold update_task. simpl.
  destruct (Z.eqb_spec (pTask t) NULL); [contradiction|].
  replace (Delay t - Z.of_nat d) with 0 by lia. simpl.
  destruct (Z.eqb_spec (Period t) 0) as [->|]; reflexivity.
Qed.

(** X21.  An occupied slot with delay [d] counts down one per call of
    [SCH_Update] and is flagged by the call after the one that brought the
    delay to zero: during the first [d] ticks only [Delay] changes, and
    the tick number [d + 1] adds one to [RunMe] (modulo 256) and reloads
    [Delay] with [Period] (which leaves it at zero for a one-shot task).
    Free slots are never touched. *)
Theorem table_task_flagged_after_delay (s : sched) (i n : nat) (t : sTask) :
  nth_error (SCH_tasks_G s) i = Some t ->
  0 <= Delay t < UINT32_MOD ->
  (pTask t = NULL -> nth_error (SCH_tasks_G (ticks n s)) i = Some t) /\
  (pTask t <> NULL -> Z.of_nat n <= Delay t ->
   nth_error (SCH_tasks_G (ticks n s)) i
   = Some (mk_sTask (pTask t) (Delay t - Z.of_nat n) (Period t) (RunMe t)
                    (TaskID t))) /\
  (pTask t <> NULL -> Z.of_nat n = Delay t + 1 ->
   nth_error (SCH_tasks_G (ticks n s)) i
   = Some (mk_sTask (pTask t) (Period t) (Period t) (wrap8 (RunMe t + 1))
                    (TaskID t))).
Proof.
  intros Hi [Hd0 Hd]. destruct (ticks_tasks n s) as (-> & _).
  rewrite nth_error_map, Hi. simpl. split; [|split].
  - intros Hfree. f_equal. clear Hi. revert t Hfree Hd0 Hd.
    induction n as [|n IH]; intros t Hfree Hd0 Hd; [reflexivity|].
    simpl. unfold update_task at 1. rewrite Hfree. simpl.
    now apply IH.
  - intros Hfun Hn. f_equal. now apply age_countdown.
  - intros Hfun Hn. f_equal. destruct n as [|d]; [lia|].
    apply age_flag; [assumption|lia|assumption].
Qed.

Lemma table_task_flagged_after_delay_witness :
  let s := mkSched [mk_sTask 100 2 5 0 1; cleared] 0 0 0 2 in
  nth_error (SCH_tasks_G s) 0 = Some (mk_sTask 100 2 5 0 1) /\
  0 <= 2 < UINT32_MOD /\
  nth_error (SCH_tasks_G (ticks 3 s)) 0 = Some (mk_sTask 100 5 5 1 1).
Proof.
  intros s.
  assert (Hi : nth_error (SCH_tasks_G s) 0 = Some (mk_sTask 100 2 5 0 1))
    by reflexivity.
  assert (Hd : 0 <= Delay (mk_sTask 100 2 5 0 1) < UINT32_MOD)
    by (simpl; u32).
  split; [exact Hi|]. split; [exact Hd|].
  apply (proj2 (proj2 (table_task_flagged_after_delay s 0 3 _ Hi Hd)));
    [discriminate|reflexivity].
Defined.

(** X22.  A periodic task of the table is flagged once every
    [Period + 1] ticks, not every [Period] ticks: starting from a slot
    whose delay has just been reloaded ([Delay = Period = P >= 1]), after
    [k * (P + 1)] calls of [SCH_Update] the delay is [P] again and [RunMe]
    has gone up by [k] (modulo 256). *)
Theorem table_period_is_one_longer (s : sched) (i k P : nat) (t : sTask) :
  nth_error (SCH_tasks_G s) i = Some t ->
  pTask t <> NULL ->
  Delay t = Z.of_nat P -> Period t = Z.of_nat P ->
  (1 <= P)%nat -> Z.of_nat P < UINT32_MOD -> 0 <= RunMe t < 2 ^ 8 ->
  nth_error (SCH_tasks_G (ticks (k * (P + 1)) s)) i
  = Some (mk_sTask (pTask t) (Z.of_nat P) (Z.of_nat P)
                   (wrap8 (RunMe t + Z.of_nat k)) (TaskID t)).
Proof.
  intros Hi Hfun HD HP H1 Hmax Hrun. destruct (ticks_tasks (k * (P + 1)) s)
    as (-> & _).
  rewrite nth_error_map, Hi. simpl. f_equal. clear Hi.
  revert t Hfun HD HP Hrun. induction k as [|k IH]; intros t Hfun HD HP Hrun.
  - simpl. rewrite Z.add_0_r. unfold wrap8.
    rewrite Z.mod_small by assumption. rewrite <- HD at 1. rewrite <- HP.
    now destruct t.
  - simpl Nat.mul. rewrite age_add.
    replace (age (P + 1) t) with (age (S P) t)
      by (now rewrite Nat.add_1_r).
    rewrite (age_flag P t) by (try assumption; lia).
    rewrite IH; simpl; try assumption.
    + f_equal. unfold wrap8. rewrite Zplus_mod_idemp_l. f_equal. lia.
    + unfold wrap8. apply Z.mod_pos_bound. reflexivity.
Qed.

Lemma table_period_is_one_longer_witness :
  let s := mkSched [mk_sTask 100 2 2 0 1; cleared] 0 0 0 2 in
  let t := mk_sTask 100 2 2 0 1 in
  nth_error (SCH_tasks_G s) 0 = Some t /\ pTask t <> NULL /\
  Delay t = Z.of_nat 2 /\ Period t = Z.of_nat 2 /\ (1 <= 2)%nat /\
  Z.of_nat 2 < UINT32_MOD /\ 0 <= RunMe t < 2 ^ 8 /\
  nth_error (SCH_tasks_G (ticks 6 s)) 0 = Some (mk_sTask 100 2 2 2 1).
Proof.
  intros s t.
  assert (Hi : nth_error (SCH_tasks_G s) 0 = Some t) by reflexivity.
  assert (Hfun : pTask t <> NULL) by discriminate.
  assert (HD : Delay t = Z.of_nat 2) by reflexivity.
  assert (HP : Period t = Z.of_nat 2) by reflexivity.
  assert (H1 : (1 <= 2)%nat) by lia.
  assert (Hmax : Z.of_nat 2 < UINT32_MOD) by u32.
  assert (Hrun : 0 <= RunMe t < 2 ^ 8) by (simpl; lia).
  repeat (split; [assumption|]).
  exact (table_period_is_one_longer s 0 2 2 t Hi Hfun HD HP H1 Hmax Hrun).
Defined.

(** * The table scheduler: the error display *)

Lemma reports_countdown (c : nat) :
  forall s : sched,
  Error_code_G s = Last_error_code_G s ->
  Error_tick_count_G s = Z.of_nat (S c) -> Z.of_nat (S c) < UINT32_MOD ->
  (forall n, (n <= c)%nat -> Error_code_G (reports n s) = Error_code_G s) /\
  Error_code_G (reports (S c) s) = 0.
Proof.
  induction c as [|c IH]; intros s Hsame Hcount Hmax.
  - split.
    + intros n Hn. assert (n = O) by lia. now subst.
    + simpl. unfold SCH_Report_Status.
      rewrite Hsame, Z.eqb_refl, Hcount. reflexivity.
  - assert (Hstep : SCH_Report_Status s
                    = mkSched (SCH_tasks_G s) (Error_code_G s)
                              (Last_error_code_G s) (Z.of_nat (S c))
                              (Task_ID_Counter s)).
    { unfold SCH_Report_Status. rewrite Hsame at 1.
      rewrite Z.eqb_refl, Hcount. simpl negb.
      destruct (Z.eqb_spec (Z.of_nat (S (S c))) 0); [lia|]. simpl negb.
      cbv zeta.
      replace (wrap32 (Z.of_nat (S (S c)) - 1)) with (Z.of_nat (S c))
        by (rewrite wrap32_small by u32; lia).
      destruct (Z.eqb_spec (Z.of_nat (S c)) 0); [lia|reflexivity]. }
    destruct (IH (SCH_Report_Status s)) as [Hkeep Hclear];
      [rewrite Hstep; exact Hsame|rewrite Hstep; reflexivity|lia|].
    split.
    + intros [|n] Hn; [reflexivity|].
      simpl reports. rewrite Hkeep by lia. now rewrite Hstep.
    + simpl reports. simpl reports in Hclear. exact Hclear.
Qed.

Lemma reports_hold (c : nat) (s : sched) :
  Error_code_G s <> 0 -> Error_code_G s <> Last_error_code_G s ->
  Z.of_nat (S c) = 60000 ->
  (forall n, (n <= S c)%nat ->
             Error_code_G (reports n s) = Error_code_G s) /\
  Error_code_G (reports (S (S c)) s) = 0.
Proof.
  intros Hnz Hnew Hc.
  assert (Hfirst : SCH_Report_Status s
                   = mkSched (SCH_tasks_G s) (Error_code_G s)
                             (Error_code_G s) 60000 (Task_ID_Counter s)).
  { unfold SCH_Report_Status.
    destruct (Z.eqb_spec (Error_code_G s) (Last_error_code_G s));
      [contradiction|].
    destruct (Z.eqb_spec (Error_code_G s) 0); [contradiction|reflexivity]. }
  destruct (reports_countdown c (SCH_Report_Status s))
    as [Hkeep Hclear];
    [rewrite Hfirst; reflexivity|rewrite Hfirst, Hc; reflexivity|
     rewrite Hc; u32|].
  split.
  - intros [|n] Hn; [reflexivity|].
    change (reports (S n) s) with (reports n (SCH_Report_Status s)).
    rewrite Hkeep by lia. now rewrite Hfirst.
  - change (reports (S (S c)) s) with (reports (S c) (SCH_Report_Status s)).
    exact Hclear.
Qed.

(** X23.  [SCH_Report_Status] shows a new nonzero error code for 60000
    further calls and then clears it by itself: the call that first sees
    the code keeps it and arms the count, the code is still there after
    every one of the next 59999 calls, and the 60000th call after the
    first resets [Error_code_G] to zero. *)
Theorem table_error_cleared_after_hold (s : sched) :
  Error_code_G s <> 0 -> Error_code_G s <> Last_error_code_G s ->
  (forall n, Z.of_nat n <= 60000 ->
             Error_code_G (reports n s) = Error_code_G s) /\
  Error_code_G (reports (Z.to_nat 60001) s) = 0.
Proof.
  intros Hnz Hnew.
  destruct (reports_hold (Z.to_nat 59999) s Hnz Hnew ltac:(lia))
    as [Hkeep Hclear].
  split.
  - intros n Hn. apply Hkeep. lia.
  - replace (Z.to_nat 60001) with (S (S (Z.to_nat 59999))) by lia.
    exact Hclear.
Qed.

Lemma table_error_cleared_after_hold_witness :
  let s := mkSched [cleared] ERROR_SCH_CANNOT_DELETE_TASK 0 0 1 in
  Error_code_G s <> 0 /\ Error_code_G s <> Last_error_code_G s /\
  Error_code_G (reports 3 s) = ERROR_SCH_CANNOT_DELETE_TASK.
Proof.
  intros s.
  assert (Hnz : Error_code_G s <> 0) by discriminate.
  assert (Hnew : Error_code_G s <> Last_error_code_G s) by discriminate.
  split; [exact Hnz|]. split; [exact Hnew|].
  apply (proj1 (table_error_cleared_after_hold s Hnz Hnew)). lia.
Defined.

(** * The table scheduler: the dispatcher *)

Lemma with_tasks_same (s : sched) : with_tasks s (SCH_tasks_G s) = s.
Proof. now destruct s. Qed.

Lemma dispatch_slot_at (s : sched) (done : list sTask) (t : sTask)
    (todo : list sTask) :
  SCH_tasks_G s = done ++ t :: todo ->
  dispatch_slot (length done) s
  = if flagged t then
      if Period t =? 0
      then (fst (SCH_Delete_Task (TaskID t)
                   (with_tasks s
                      (done ++
                       mk_sTask (pTask t) (Delay t) (Period t)
                                (wrap8 (RunMe t - 1)) (TaskID t) :: todo))),
            [t])
      else (with_tasks s
              (done ++
               mk_sTask (pTask t) (Delay t) (Period t)
                        (wrap8 (RunMe t - 1)) (TaskID t) :: todo), [t])
    else (s, []).
Proof.
  intros Hs. unfold dispatch_slot. rewrite Hs.
  rewrite nth_error_app2 by lia. rewrite Nat.sub_diag. cbn [nth_error].
  destruct (flagged t); [|reflexivity].
  cbv zeta. rewrite set_slot_app. reflexivity.
Qed.

Lemma dispatch_from_spec (todo : list sTask) :
  forall (done : list sTask) (s : sched),
  SCH_tasks_G s = done ++ todo ->
  (forall pre t post, todo = pre ++ t :: post ->
     flagged t = true -> Period t = 0 ->
     TaskID t <> 0 /\ ~ In (TaskID t) (map TaskID done) /\
     ~ In (TaskID t) (map TaskID pre)) ->
  dispatch_from (length todo) (length done) s
  = (with_tasks s (done ++ map dispatch_task todo), filter flagged todo).
Proof.
  induction todo as [|t todo IH]; intros done s Hs Hfirst.
  - simpl. rewrite app_nil_r in *. rewrite <- Hs.
    now rewrite with_tasks_same.
  - change (dispatch_from (length (t :: todo)) (length done) s)
      with (let '(s1, ran1) := dispatch_slot (length done) s in
            let '(s2, ran2) := dispatch_from (length todo)
                                 (S (length done)) s1 in
            (s2, ran1 ++ ran2)).
    rewrite (dispatch_slot_at s done t todo Hs).
    assert (Hlen : forall x, S (length done) = length (done ++ [x]))
      by (intros x; rewrite length_app; simpl; lia).
    assert (Hnext : forall x, TaskID x = TaskID t \/ TaskID x = 0 ->
              forall pre t2 post, todo = pre ++ t2 :: post ->
              flagged t2 = true -> Period t2 = 0 ->
              TaskID t2 <> 0 /\ ~ In (TaskID t2) (map TaskID (done ++ [x])) /\
              ~ In (TaskID t2) (map TaskID pre)).
    { intros x Hx pre t2 post Htodo Hf HP.
      destruct (Hfirst (t :: pre) t2 post) as (Hnz & Hdone & Hpre);
        [simpl; now rewrite Htodo|assumption|assumption|].
      simpl in Hpre. split; [assumption|]. split; [|tauto].
      rewrite map_app, in_app_iff. simpl. intros [H|[H|[]]]; [tauto| ].
      destruct Hx as [Hx|Hx]; rewrite Hx in H; [tauto|congruence]. }
    unfold dispatch_task at 1. simpl map. simpl filter.
    destruct (flagged t) eqn:Hf.
    + destruct (Z.eqb_spec (Period t) 0) as [HP|HP].
      * destruct (Hfirst [] t todo eq_refl Hf HP) as (Hnz & Hdone & _).
        unfold SCH_Delete_Task. cbn [with_tasks SCH_tasks_G fst].
        rewrite delete_scan_app by (try assumption; reflexivity).
        cbn [fst Error_code_G Last_error_code_G Error_tick_count_G
             Task_ID_Counter].
        rewrite (Hlen cleared).
        rewrite (IH (done ++ [cleared])); cbn [SCH_tasks_G];
          [|now rewrite <- app_assoc|apply Hnext; now right].
        unfold with_tasks. cbn [Error_code_G Last_error_code_G
                                Error_tick_count_G Task_ID_Counter].
        now rewrite <- app_assoc.
      * set (t' := mk_sTask (pTask t) (Delay t) (Period t)
                            (wrap8 (RunMe t - 1)) (TaskID t)).
        rewrite (Hlen t').
        rewrite (IH (done ++ [t'])); cbn [with_tasks SCH_tasks_G];
          [|now rewrite <- app_assoc|apply Hnext; now left].
        unfold with_tasks. cbn [Error_code_G Last_error_code_G
                                Error_tick_count_G Task_ID_Counter].
        now rewrite <- app_assoc.
    + rewrite (Hlen t).
      rewrite (IH (done ++ [t])); [|now rewrite <- app_assoc
                                   |apply Hnext; now left].
      now rewrite <- app_assoc.
Qed.

Lemma SCH_Dispatch_Tasks_eq (s : sched) :
  SCH_Dispatch_Tasks s
  = (SCH_Report_Status (fst (dispatch_from SCH_MAX_TASKS 0 s)),
     snd (dispatch_from SCH_MAX_TASKS 0 s)).
Proof.
  unfold SCH_Dispatch_Tasks, SCH_Go_To_Sleep.
  now destruct (dispatch_from SCH_MAX_TASKS 0 s).
Qed.

Lemma one_shots_first_spec (tasks : list sTask) :
  forall seen : list Z,
  one_shots_first seen tasks = true ->
  forall pre t post, tasks = pre ++ t :: post ->
  flagged t = true -> Period t = 0 ->
  TaskID t <> 0 /\ ~ In (TaskID t) seen /\ ~ In (TaskID t) (map TaskID pre).
Proof.
  induction tasks as [|x rest IH]; intros seen Hok pre t post Hs Hf HP.
  - destruct pre; discriminate.
  - simpl in Hok. apply andb_prop in Hok as [Hx Hrest].
    destruct pre as [|p pre]; simpl in Hs; injection Hs as -> ->.
    + rewrite Hf, HP in Hx. simpl in Hx.
      apply andb_prop in Hx as [Hnz Hseen].
      split; [|split; [|tauto]].
      * intros H0. rewrite H0 in Hnz. discriminate.
      * intros Hin. apply negb_true_iff in Hseen.
        assert (existsb (Z.eqb (TaskID t)) seen = true)
          by (apply existsb_exists; exists (TaskID t);
              split; [assumption|apply Z.eqb_refl]).
        congruence.
    + destruct (IH _ Hrest pre t post eq_refl Hf HP) as (Hnz & Hseen & Hpre).
      simpl in Hseen. simpl. tauto.
Qed.

(** X24.  On a full-size table in which every flagged one-shot slot has a
    nonzero id that no earlier slot carries, one call of
    [SCH_Dispatch_Tasks] runs exactly the flagged slots (occupied, with
    [RunMe > 0]), in table order and once each whatever the value of
    [RunMe]: a flagged periodic slot has its [RunMe] taken down by one, a
    flagged one-shot slot is cleared, every other slot is untouched; then
    [SCH_Report_Status] is applied. *)
Theorem table_dispatch_spec (s : sched) :
  length (SCH_tasks_G s) = SCH_MAX_TASKS ->
  one_shots_first [] (SCH_tasks_G s) = true ->
  SCH_Dispatch_Tasks s
  = (SCH_Report_Status
       (with_tasks s (map dispatch_task (SCH_tasks_G s))),
     filter flagged (SCH_tasks_G s)).
Proof.
  intros Hlen Hok. rewrite SCH_Dispatch_Tasks_eq, <- Hlen.
  change O with (length (@nil sTask)).
  rewrite (dispatch_from_spec (SCH_tasks_G s) [] s); [reflexivity..|].
  intros pre t post Hs Hf HP.
  destruct (one_shots_first_spec _ _ Hok pre t post Hs Hf HP)
    as (Hnz & _ & Hpre).
  simpl. tauto.
Qed.

Lemma table_dispatch_spec_witness :
  let s := mkSched ([mk_sTask 100 0 0 1 1; mk_sTask 200 5 5 2 2;
                     mk_sTask 300 3 0 0 3] ++ repeat cleared 37)
                   0 0 0 4 in
  length (SCH_tasks_G s) = SCH_MAX_TASKS /\
  one_shots_first [] (SCH_tasks_G s) = true /\
  snd (SCH_Dispatch_Tasks s)
  = [mk_sTask 100 0 0 1 1; mk_sTask 200 5 5 2 2] /\
  firstn 3 (SCH_tasks_G (fst (SCH_Dispatch_Tasks s)))
  = [cleared; mk_sTask 200 5 5 1 2; mk_sTask 300 3 0 0 3].
Proof.
  intros s.
  assert (Hlen : length (SCH_tasks_G s) = SCH_MAX_TASKS) by reflexivity.
  assert (Hok : one_shots_first [] (SCH_tasks_G s) = true) by reflexivity.
  split; [exact Hlen|]. split; [exact Hok|].
  rewrite (table_dispatch_spec s Hlen Hok). split; reflexivity.
Defined.

End ArraySchedFacts.
